(** * icon-library-web: the client-side data and render pipeline

    A shallow embedding of [src/IconModal.tsx] (the SVG attribute
    transformer) and of [src/App.tsx] (collection loading, style index,
    search and style filtering, row partition, the names shown, the
    controls offered, the copy button), followed by the properties of the
    specification that were settled against it and by further properties
    of the code.

    JavaScript strings are sequences of code units; every pattern of the
    program is plain ASCII, so a string is a [list ascii] here. *)

From Stdlib Require Import Ascii String List Arith NArith Lia.
From Stdlib Require Import QArith.
From Stdlib Require Import DecimalString.
From Equations Require Import Equations.
From stdpp Require Import base option list gmap strings sorting.

Abbreviation jsstring := (list ascii).

(** A string literal of the source, as a list of code units. *)
Abbreviation lit s := (list_ascii_of_string s%string).

(** The double quote character. *)
Definition dq : ascii := "034"%char.
Definition dollar : ascii := "$"%char.

(* ================================================================== *)
(** ** The JavaScript built-ins the program calls *)
(* ================================================================== *)

Module JS.

(** [s.startsWith(pat)], used to try a literal at the current position. *)
Fixpoint starts_with (pat s : jsstring) : bool :=
  match pat, s with
  | [], _ => true
  | _ :: _, [] => false
  | p :: pat', c :: s' => if Ascii.eqb p c then starts_with pat' s' else false
  end.

(** [s.indexOf(pat)]: the leftmost position at which [pat] occurs. *)
Fixpoint indexOf (pat s : jsstring) : option nat :=
  if starts_with pat s then Some 0
  else match s with
       | [] => None
       | _ :: s' => S <$> indexOf pat s'
       end.

(** [s.includes(pat)]. *)
Definition includes (s pat : jsstring) : bool :=
  bool_decide (is_Some (indexOf pat s)).

(** ECMAScript's GetSubstitution for a pattern with no capture group:
    in the replacement text [$$] is a dollar sign, [$&] the matched
    text, [$`] what precedes the match and [$'] what follows it; every
    other character, a lone dollar sign included, is copied. *)
Fixpoint GetSubstitution (matched str : jsstring) (position : nat)
    (template : jsstring) : jsstring :=
  match template with
  | [] => []
  | c :: t =>
    if Ascii.eqb c dollar then
      match t with
      | [] => [dollar]
      | d :: t' =>
        if Ascii.eqb d dollar then
          dollar :: GetSubstitution matched str position t'
        else if Ascii.eqb d "&" then
          matched ++ GetSubstitution matched str position t'
        else if Ascii.eqb d "`" then
          take position str ++ GetSubstitution matched str position t'
        else if Ascii.eqb d "'" then
          drop (position + length matched) str
            ++ GetSubstitution matched str position t'
        else dollar :: GetSubstitution matched str position t
      end
    else c :: GetSubstitution matched str position t
  end.

(** [s.replace(pat, template)] with a string pattern: only the first
    occurrence is replaced, and a string without the pattern is
    returned as it is. *)
Definition replace_string (s pat template : jsstring) : jsstring :=
  match indexOf pat s with
  | None => s
  | Some i =>
    take i s ++ GetSubstitution pat s i template ++ drop (i + length pat) s
  end.

(** The fragment of regular expressions the program uses: a literal,
    and a greedy run of characters other than a given one. *)
Inductive atom : Type :=
| Lit (p : jsstring)
| StarNot (c : ascii).

Record RegExp : Type := { pattern : list atom; global : bool }.

(** A greedy [[^c]*] followed by the continuation [k]: the longest run
    is tried first, and the matcher backtracks to shorter runs. The
    result is the length of the text matched. *)
Fixpoint star_not (c : ascii) (k : jsstring -> option nat) (s : jsstring)
    : option nat :=
  match s with
  | [] => k []
  | a :: s' =>
    if Ascii.eqb a c then k s
    else match star_not c k s' with
         | Some n => Some (S n)
         | None => k s
         end
  end.

(** Match the pattern at the start of [s]. *)
Fixpoint match_here (atoms : list atom) (s : jsstring) : option nat :=
  match atoms with
  | [] => Some 0
  | Lit p :: atoms' =>
    if starts_with p s
    then (λ n, length p + n) <$> match_here atoms' (drop (length p) s)
    else None
  | StarNot c :: atoms' => star_not c (match_here atoms') s
  end.

(** RegExpBuiltinExec from position 0: the leftmost match, as its index
    and length. Every position up to the end of the string is tried. *)
Fixpoint exec (atoms : list atom) (s : jsstring) : option (nat * nat) :=
  match match_here atoms s with
  | Some n => Some (0, n)
  | None =>
    match s with
    | [] => None
    | _ :: s' => (λ r, (S r.1, r.2)) <$> exec atoms s'
    end
  end.

(** [re.test(s)] for a regular expression without the [g] flag (no
    [lastIndex] is kept between calls). *)
Definition test (re : RegExp) (s : jsstring) : bool :=
  bool_decide (is_Some (exec (pattern re) s)).

(** The loop of [RegExp.prototype[Symbol.replace]] for a regular
    expression with the [g] flag, read along the string: at a position
    that is not inside the previous match the pattern is tried; a match
    appends the expanded replacement and the next [skip] characters are
    consumed, otherwise the character is copied. After an empty match
    the scan advances by one character, which is copied. *)
Fixpoint replace_loop (atoms : list atom) (template str : jsstring)
    (position skip : nat) (s : jsstring) : jsstring :=
  match skip with
  | S k =>
    match s with
    | [] => []
    | _ :: s' => replace_loop atoms template str (S position) k s'
    end
  | 0 =>
    match match_here atoms s with
    | Some n =>
      GetSubstitution (take n s) str position template
        ++ match s with
           | [] => []
           | a :: s' =>
             (if n is 0 then [a] else [])
               ++ replace_loop atoms template str (S position) (pred n) s'
           end
    | None =>
      match s with
      | [] => []
      | a :: s' => a :: replace_loop atoms template str (S position) 0 s'
      end
    end
  end.

(** [s.replace(re, template)]: every match when [re] is global, the
    leftmost match otherwise. *)
Definition replace (s : jsstring) (re : RegExp) (template : jsstring)
    : jsstring :=
  if global re then replace_loop (pattern re) template s 0 0 s
  else match exec (pattern re) s with
       | None => s
       | Some (i, n) =>
         take i s ++ GetSubstitution (take n (drop i s)) s i template
           ++ drop (i + n) s
       end.

(** [String(n)] for a non-negative integer: its decimal digits. *)
Definition Number_toString (n : N) : jsstring :=
  lit (NilEmpty.string_of_uint (N.to_uint n)).

End JS.

(* ================================================================== *)
(** ** IconModal.tsx: the SVG attribute transformer *)
(* ================================================================== *)

Module IconModal.
Import JS.

(** The three regular expressions have one shape: an attribute name,
    an equals sign, a double quote, the longest run of characters other
    than a double quote, and a double quote. [FILL_REGEX] carries the
    [g] flag, the other two do not. *)
Definition attr_pattern (name : jsstring) : list atom :=
  [Lit (name ++ lit "=" ++ [dq]); StarNot dq; Lit [dq]].

Definition FILL_REGEX : RegExp :=
  {| pattern := attr_pattern (lit "fill"); global := true |}.
Definition WIDTH_REGEX : RegExp :=
  {| pattern := attr_pattern (lit "width"); global := false |}.
Definition HEIGHT_REGEX : RegExp :=
  {| pattern := attr_pattern (lit "height"); global := false |}.

(** The template literals of the transform. *)
Definition fill_attr (color : jsstring) : jsstring :=
  lit "fill=" ++ [dq] ++ color ++ [dq].
Definition width_attr (size : N) : jsstring :=
  lit "width=" ++ [dq] ++ Number_toString size ++ [dq].
Definition height_attr (size : N) : jsstring :=
  lit "height=" ++ [dq] ++ Number_toString size ++ [dq].

(** "Handle fill": the first statement of the [useMemo] body. *)
Definition handle_fill (s color : jsstring) : jsstring :=
  if includes s (lit "fill=")
  then replace s FILL_REGEX (fill_attr color)
  else replace_string s (lit "<svg") (lit "<svg " ++ fill_attr color).

(** "Handle dimensions": the rest of the body. Both tests are made
    before any replacement. *)
Definition handle_dimensions (s : jsstring) (size : N) : jsstring :=
  let hasWidth := test WIDTH_REGEX s in
  let hasHeight := test HEIGHT_REGEX s in
  let s := if hasWidth then replace s WIDTH_REGEX (width_attr size) else s in
  let s := if hasHeight then replace s HEIGHT_REGEX (height_attr size) else s in
  if negb hasWidth && negb hasHeight
  then replace_string s (lit "<svg")
         (lit "<svg " ++ width_attr size ++ lit " " ++ height_attr size)
  else s.

(** The memoised [svg] of the modal: a function of the icon's content,
    the colour and the size. *)
Definition svg (content color : jsstring) (size : N) : jsstring :=
  handle_dimensions (handle_fill content color) size.

End IconModal.

(* ================================================================== *)
(** ** Vocabulary for the attribute patterns *)
(* ================================================================== *)

Module Patterns.
Import JS IconModal.

(** The text of the pattern before the value: the name and the equals
    sign. *)
Definition key (name : jsstring) : jsstring := name ++ lit "=".

(** The replacements of the program hold no dollar sign, so that
    [replace] puts the template in as it is: in the place of the
    leftmost match for a pattern without the global flag, *)
Definition subst_first (atoms : list atom) (T s : jsstring) : jsstring :=
  match exec atoms s with
  | None => s
  | Some (i, n) => take i s ++ T ++ drop (i + n) s
  end.

(** and in the place of every match, from left to right, for a global
    pattern. *)
Definition subst_all (atoms : list atom) (T s : jsstring) : jsstring :=
  replace_loop atoms T [] 0 0 s.

(** A match, found [d] code units further to the right. *)
Definition shift (d : nat) (r : option (nat * nat)) : option (nat * nat) :=
  (λ r, (d + r.1, r.2)) <$> r.

(** The characters of a decimal numeral. *)
Definition digits : jsstring := lit "0123456789".

(** What the specification asks of a replacement of every occurrence of
    an attribute: reading the markup from the left, each occurrence of
    the name, an equals sign and a quoted value is replaced by the new
    text, and every other character is kept. *)
Inductive Replaced (name T : jsstring) : jsstring -> jsstring -> Prop :=
| Replaced_end : Replaced name T [] []
| Replaced_attr (v rest out : jsstring) :
    dq ∉ v -> Replaced name T rest out ->
    Replaced name T (key name ++ dq :: v ++ dq :: rest) (T ++ out)
| Replaced_char (a : ascii) (s out : jsstring) :
    (forall v rest, dq ∉ v -> a :: s <> key name ++ dq :: v ++ dq :: rest) ->
    Replaced name T s out ->
    Replaced name T (a :: s) (a :: out).

(** An occurrence of an attribute: the name, an equals sign and a
    quoted value, anywhere in the markup. *)
Definition Occurs (name s : jsstring) : Prop :=
  exists pre v post,
    (dq ∉ v) /\ s = pre ++ key name ++ dq :: v ++ dq :: post.

(** And of a replacement of the leftmost occurrence only: where there
    is no occurrence the markup is kept, and otherwise the occurrence
    before which the shortest text stands is replaced. *)
Inductive Replaced_first (name T : jsstring) : jsstring -> jsstring -> Prop :=
| Replaced_first_none (s : jsstring) :
    ~ Occurs name s -> Replaced_first name T s s
| Replaced_first_attr (pre v post : jsstring) :
    dq ∉ v ->
    (forall pre' v' post',
       dq ∉ v' ->
       pre ++ key name ++ dq :: v ++ dq :: post
       = pre' ++ key name ++ dq :: v' ++ dq :: post' ->
       length pre <= length pre') ->
    Replaced_first name T
      (pre ++ key name ++ dq :: v ++ dq :: post) (pre ++ T ++ post).

End Patterns.

(* ================================================================== *)
(** ** App.tsx: collections, style index, filtering, rows *)
(* ================================================================== *)

Module App.

Record Icon : Type := {
  name : jsstring;
  category : jsstring;
  style : jsstring;
  path : jsstring;
  content : jsstring;
  collection : jsstring;
}.

Definition ICONS_PER_ROW : nat := 9.
Definition ROW_HEIGHT : nat := 120.

(** The options the program passes to the search library. *)
Record FuseOptions : Type := {
  keys : list jsstring;
  threshold : Q;
  ignoreLocation : bool;
  useExtendedSearch : bool;
  findAllMatches : bool;
}.

Definition FUSE_OPTIONS : FuseOptions :=
  {| keys := [lit "name"]; threshold := (3 # 10)%Q; ignoreLocation := true;
     useExtendedSearch := false; findAllMatches := false |}.

(** [icon[key]] for a key that is a string. *)
Definition Icon_get (key : jsstring) (i : Icon) : option jsstring :=
  if bool_decide (key = lit "name") then Some (name i)
  else if bool_decide (key = lit "category") then Some (category i)
  else if bool_decide (key = lit "style") then Some (style i)
  else if bool_decide (key = lit "path") then Some (path i)
  else if bool_decide (key = lit "content") then Some (content i)
  else if bool_decide (key = lit "collection") then Some (collection i)
  else None.

(** *** fuse.js, the search library

    The library is not part of the repository. An index is built from a
    list of icons and options; [Fuse_matches] stands for the hits of a
    pattern in the library's order, and [Fuse_score] for the score the
    library gives a record for a pattern under the options: 0 for a
    perfect match, and none when the record does not match the pattern
    closely enough for the threshold. *)
Record FuseResult : Type := { item : Icon; refIndex : nat }.

Class FuseLib : Type := {
  Fuse : Type;
  new_Fuse : list Icon -> FuseOptions -> Fuse;
  Fuse_matches : Fuse -> jsstring -> list FuseResult;
  Fuse_score : FuseOptions -> jsstring -> Icon -> option Q;
}.

(** [fuse.search(pattern, { limit })]: the library sorts the hits and
    keeps the first [limit] of them. *)
Definition Fuse_search `{FuseLib} (fuse : Fuse) (pattern : jsstring)
    (limit : nat) : list FuseResult :=
  take limit (Fuse_matches fuse pattern).

(** What the program relies on: a hit of an index is one of the icons
    the index was built from. *)
Class FuseContract `{FuseLib} : Prop := {
  Fuse_matches_docs :
    forall (data : list Icon) (pattern : jsstring) (r : FuseResult),
      r ∈ Fuse_matches (new_Fuse data FUSE_OPTIONS) pattern ->
      item r ∈ data;
}.

(** The records of a list that match a pattern, each with its score and
    its index in the list. *)
Definition scored (score : FuseOptions -> jsstring -> Icon -> option Q)
    (options : FuseOptions) (pattern : jsstring) (docs : list Icon)
    : list (Q * FuseResult) :=
  omap (λ r, (λ s, (s, r)) <$> score options pattern (item r))
    (imap (λ idx icon, {| item := icon; refIndex := idx |}) docs).

(** The library's default order of the hits: the lower score first,
    and the lower index among equal scores. *)
Definition sortFn_leb (a b : Q * FuseResult) : bool :=
  match Qcompare a.1 b.1 with
  | Lt => true
  | Eq => Nat.leb (refIndex a.2) (refIndex b.2)
  | Gt => false
  end.

Definition sortFn : relation (Q * FuseResult) :=
  λ a b, Is_true (sortFn_leb a b).

Definition ranked (score : FuseOptions -> jsstring -> Icon -> option Q)
    (options : FuseOptions) (pattern : jsstring) (docs : list Icon)
    : list FuseResult :=
  snd <$> merge_sort sortFn (scored score options pattern docs).

(** What the documentation of the library says of a search: the hits
    are the records that match the pattern, in the default order; and
    the score of a record depends on the fields named by the keys of
    the options and on nothing else. *)
Class FuseSpec `{FuseLib} : Prop := {
  Fuse_matches_ranked :
    forall (docs : list Icon) (options : FuseOptions) (pattern : jsstring),
      Fuse_matches (new_Fuse docs options) pattern
      = ranked Fuse_score options pattern docs;
  Fuse_score_keys :
    forall (options : FuseOptions) (pattern : jsstring) (i j : Icon),
      (forall k, k ∈ keys options -> Icon_get k i = Icon_get k j) ->
      Fuse_score options pattern i = Fuse_score options pattern j;
}.

(** *** Style index: the [styles] and [styleIndex] memo *)

(** A JavaScript [Set] of strings keeps its elements in insertion
    order, each once. *)
Definition Set_add (x : jsstring) (set : list jsstring) : list jsstring :=
  if bool_decide (x ∈ set) then set else set ++ [x].

(** The default order of [Array.prototype.sort]: strings compared code
    unit by code unit, a proper prefix first. *)
Fixpoint str_le (a b : jsstring) : bool :=
  match a, b with
  | [], _ => true
  | _ :: _, [] => false
  | x :: a', y :: b' =>
    match N.compare (N_of_ascii x) (N_of_ascii y) with
    | Lt => true
    | Gt => false
    | Eq => str_le a' b'
    end
  end.

Definition str_le_rel : relation jsstring := λ a b, Is_true (str_le a b).

Definition Array_sort (l : list jsstring) : list jsstring :=
  merge_sort str_le_rel l.

(** The body of the [for ... of] loop. [arr] is the group of the
    icon's style, or a fresh array when the style is new. *)
Definition index_icon (acc : list jsstring * gmap jsstring (list Icon))
    (icon : Icon) : list jsstring * gmap jsstring (list Icon) :=
  let styleSet := Set_add (style icon) acc.1 in
  let arr := default [] (acc.2 !! style icon) in
  let arr := arr ++ [icon] in
  (styleSet, <[style icon := arr]> acc.2).

Definition build_index (icons : list Icon)
    : list jsstring * gmap jsstring (list Icon) :=
  foldl index_icon ([], ∅) icons.

Definition styles (icons : list Icon) : list jsstring :=
  lit "all" :: Array_sort (build_index icons).1.

Definition styleIndex (icons : list Icon) : gmap jsstring (list Icon) :=
  (build_index icons).2.

(** *** The [filtered] memo *)

(** A string is truthy when it is not empty. *)
Definition truthy (s : jsstring) : bool :=
  match s with [] => false | _ :: _ => true end.

Definition filtered `{FuseLib} (icons : list Icon) (fuseRef : option Fuse)
    (debouncedSearch style_ : jsstring)
    (styleIndex_ : gmap jsstring (list Icon)) : list Icon :=
  match truthy debouncedSearch, fuseRef with
  | true, Some fuse =>
    let result := item <$> Fuse_search fuse debouncedSearch 500 in
    if bool_decide (style_ ≠ lit "all")
    then filter (λ i, style i = style_) result
    else result
  | _, _ =>
    if bool_decide (style_ ≠ lit "all")
    then default [] (styleIndex_ !! style_)
    else icons
  end.

(** *** The [rows] memo *)

(** [arr.slice(start, end)] for indices that are not negative. *)
Definition slice {A} (arr : list A) (start end_ : nat) : list A :=
  take (end_ - start) (drop start arr).

Equations? rows_from (filtered_ : list Icon) (i : nat) : list (list Icon)
    by wf (length filtered_ - i) lt :=
  rows_from filtered_ i with decide (i < length filtered_) := {
    | left _ =>
      slice filtered_ i (i + ICONS_PER_ROW)
        :: rows_from filtered_ (i + ICONS_PER_ROW)
    | right _ => [] }.
Proof. unfold ICONS_PER_ROW. lia. Qed.

Definition rows (filtered_ : list Icon) : list (list Icon) :=
  rows_from filtered_ 0.

(** *** The component state and its events

    The state kept by [useState] and [useRef], the module-level
    [cache], and the collection fetches that have not resolved yet.
    What only the view reads ([selected], [dropdownOpen]) is left out. *)
Section Component.
Context `{FuseLib}.

(** The static endpoint [/icons/<collection>.json]. *)
Variable server : jsstring -> list Icon.

Record CacheEntry : Type := { icons : list Icon; fuse : Fuse }.

Record State : Type := {
  st_icons : list Icon;
  st_collections : list jsstring;
  st_collection : jsstring;
  st_search : jsstring;
  st_debouncedSearch : jsstring;
  st_style : jsstring;
  st_loading : bool;
  st_fuseRef : option Fuse;
  st_cache : gmap jsstring CacheEntry;
  st_pending : list jsstring;
}.

Definition initial : State :=
  {| st_icons := []; st_collections := []; st_collection := [];
     st_search := []; st_debouncedSearch := []; st_style := lit "all";
     st_loading := true; st_fuseRef := None; st_cache := ∅;
     st_pending := [] |}.

Definition setIcons (v : list Icon) (st : State) : State :=
  {| st_icons := v; st_collections := st_collections st;
     st_collection := st_collection st; st_search := st_search st;
     st_debouncedSearch := st_debouncedSearch st;
     st_style := st_style st; st_loading := st_loading st;
     st_fuseRef := st_fuseRef st; st_cache := st_cache st;
     st_pending := st_pending st |}.

Definition setCollections (v : list jsstring) (st : State) : State :=
  {| st_icons := st_icons st; st_collections := v;
     st_collection := st_collection st; st_search := st_search st;
     st_debouncedSearch := st_debouncedSearch st;
     st_style := st_style st; st_loading := st_loading st;
     st_fuseRef := st_fuseRef st; st_cache := st_cache st;
     st_pending := st_pending st |}.

Definition setCollection (v : jsstring) (st : State) : State :=
  {| st_icons := st_icons st; st_collections := st_collections st;
     st_collection := v; st_search := st_search st;
     st_debouncedSearch := st_debouncedSearch st;
     st_style := st_style st; st_loading := st_loading st;
     st_fuseRef := st_fuseRef st; st_cache := st_cache st;
     st_pending := st_pending st |}.

Definition setSearch (v : jsstring) (st : State) : State :=
  {| st_icons := st_icons st; st_collections := st_collections st;
     st_collection := st_collection st; st_search := v;
     st_debouncedSearch := st_debouncedSearch st;
     st_style := st_style st; st_loading := st_loading st;
     st_fuseRef := st_fuseRef st; st_cache := st_cache st;
     st_pending := st_pending st |}.

Definition setDebouncedSearch (v : jsstring) (st : State) : State :=
  {| st_icons := st_icons st; st_collections := st_collections st;
     st_collection := st_collection st; st_search := st_search st;
     st_debouncedSearch := v;
     st_style := st_style st; st_loading := st_loading st;
     st_fuseRef := st_fuseRef st; st_cache := st_cache st;
     st_pending := st_pending st |}.

Definition setStyle (v : jsstring) (st : State) : State :=
  {| st_icons := st_icons st; st_collections := st_collections st;
     st_collection := st_collection st; st_search := st_search st;
     st_debouncedSearch := st_debouncedSearch st;
     st_style := v; st_loading := st_loading st;
     st_fuseRef := st_fuseRef st; st_cache := st_cache st;
     st_pending := st_pending st |}.

Definition setLoading (v : bool) (st : State) : State :=
  {| st_icons := st_icons st; st_collections := st_collections st;
     st_collection := st_collection st; st_search := st_search st;
     st_debouncedSearch := st_debouncedSearch st;
     st_style := st_style st; st_loading := v;
     st_fuseRef := st_fuseRef st; st_cache := st_cache st;
     st_pending := st_pending st |}.

Definition setFuseRef (v : option Fuse) (st : State) : State :=
  {| st_icons := st_icons st; st_collections := st_collections st;
     st_collection := st_collection st; st_search := st_search st;
     st_debouncedSearch := st_debouncedSearch st;
     st_style := st_style st; st_loading := st_loading st;
     st_fuseRef := v; st_cache := st_cache st;
     st_pending := st_pending st |}.

Definition setCache (v : gmap jsstring CacheEntry) (st : State) : State :=
  {| st_icons := st_icons st; st_collections := st_collections st;
     st_collection := st_collection st; st_search := st_search st;
     st_debouncedSearch := st_debouncedSearch st;
     st_style := st_style st; st_loading := st_loading st;
     st_fuseRef := st_fuseRef st; st_cache := v;
     st_pending := st_pending st |}.

Definition setPending (v : list jsstring) (st : State) : State :=
  {| st_icons := st_icons st; st_collections := st_collections st;
     st_collection := st_collection st; st_search := st_search st;
     st_debouncedSearch := st_debouncedSearch st;
     st_style := st_style st; st_loading := st_loading st;
     st_fuseRef := st_fuseRef st; st_cache := st_cache st;
     st_pending := v |}.

(** The effect "Load collection with pre-built Fuse index", run when
    [collection] has changed: a cached collection is shown at once,
    another one is fetched. *)
Definition load_collection (st : State) : State :=
  if truthy (st_collection st) then
    match st_cache st !! st_collection st with
    | Some cached =>
      setLoading false (setFuseRef (Some (fuse cached))
        (setIcons (icons cached) st))
    | None =>
      setPending (st_pending st ++ [st_collection st])
        (setLoading true st)
    end
  else st.

(** The callback of that fetch, for the collection [requested] the
    effect was run for: it is the closure's [collection], not the
    state's. *)
Definition fetch_resolved (requested : jsstring) (data : list Icon)
    (st : State) : State :=
  let fuse_ := new_Fuse data FUSE_OPTIONS in
  let st := setCache
    (<[requested := {| icons := data; fuse := fuse_ |}]> (st_cache st)) st in
  let st := setFuseRef (Some fuse_) st in
  let st := setIcons data st in
  setLoading false st.

(** A change of [collection] runs the two effects that depend on it:
    the load, and the reset of the style. Setting the value it
    already has runs nothing. *)
Definition change_collection (c : jsstring) (st : State) : State :=
  if bool_decide (c = st_collection st) then st
  else setStyle (lit "all") (load_collection (setCollection c st)).

(** What happens to the component. A fetch of a collection resolves
    with the data of the server or fails; the program has no handler
    for a failure, so that a failed fetch only stops being pending. *)
Inductive Event : Type :=
| ManifestLoaded (collections : list jsstring)
| SelectCollection (c : jsstring)
| FetchResolved (c : jsstring)
| FetchFailed (c : jsstring)
| SelectStyle (s : jsstring)
| TypeSearch (text : jsstring)
| DebounceElapsed.

(** Remove the first occurrence of a pending fetch. *)
Fixpoint remove_first (c : jsstring) (l : list jsstring) : list jsstring :=
  match l with
  | [] => []
  | x :: l' => if bool_decide (x = c) then l' else x :: remove_first c l'
  end.

Definition step (st : State) (ev : Event) : State :=
  match ev with
  | ManifestLoaded collections =>
    let st := setCollections collections st in
    match collections with
    | [] => st
    | c :: _ => change_collection c st
    end
  | SelectCollection c => change_collection c st
  | FetchResolved c =>
    if bool_decide (c ∈ st_pending st)
    then fetch_resolved c (server c)
           (setPending (remove_first c (st_pending st)) st)
    else st
  | FetchFailed c =>
    if bool_decide (c ∈ st_pending st)
    then setPending (remove_first c (st_pending st)) st
    else st
  | SelectStyle s => setStyle s st
  | TypeSearch text => setSearch text st
  | DebounceElapsed => setDebouncedSearch (st_search st) st
  end.

Definition run (st : State) (evs : list Event) : State :=
  foldl step st evs.

(** The filtered view rendered in a state. *)
Definition view (st : State) : list Icon :=
  filtered (st_icons st) (st_fuseRef st) (st_debouncedSearch st)
    (st_style st) (styleIndex (st_icons st)).

(** The index in [fuseRef] is the one built from the icon list shown,
    and every cache entry pairs a list with its own index. *)
Definition consistent (st : State) : Prop :=
  match st_fuseRef st with
  | None => st_icons st = []
  | Some fuse_ => fuse_ = new_Fuse (st_icons st) FUSE_OPTIONS
  end
  /\ forall c e,
       st_cache st !! c = Some e -> fuse e = new_Fuse (icons e) FUSE_OPTIONS.

End Component.

End App.

(* ================================================================== *)
(** ** App.tsx: the names shown and the controls offered *)
(* ================================================================== *)

Module AppView.
Import JS App.

(** [String.prototype.split] with a separator of one code unit: the
    empty string gives one empty piece. *)
Fixpoint String_split (sep : ascii) (s : jsstring) : list jsstring :=
  match s with
  | [] => [[]]
  | a :: s' =>
    if Ascii.eqb a sep then [] :: String_split sep s'
    else match String_split sep s' with
         | p :: ps => (a :: p) :: ps
         | [] => [[a]]
         end
  end.

(** [Array.prototype.join] on an array of strings. *)
Fixpoint Array_join (sep : jsstring) (ps : list jsstring) : jsstring :=
  match ps with
  | [] => []
  | p :: ps' =>
    match ps' with
    | [] => p
    | _ :: _ => p ++ sep ++ Array_join sep ps'
    end
  end.

(** [w.charAt(i)]: the code unit at [i] as a string, the empty string
    when there is none. *)
Definition charAt (w : jsstring) (i : nat) : jsstring := take 1 (drop i w).

(** [w.slice(start)] for a start that is not negative. *)
Definition String_slice (w : jsstring) (start : nat) : jsstring :=
  drop start w.

(** [String.prototype.toUpperCase] on code units below 128, where it
    maps the letters a to z to A to Z and keeps everything else. The
    properties of [formatName] are stated for such names. *)
Definition upper (a : ascii) : ascii :=
  let n := N_of_ascii a in
  if ((97 <=? n) && (n <=? 122))%N then ascii_of_N (n - 32) else a.

Definition toUpperCase (s : jsstring) : jsstring := upper <$> s.

Definition below_128 (s : jsstring) : Prop :=
  Forall (λ a, (N_of_ascii a < 128)%N) s.

(** The [formatName] callback. *)
Definition formatName (name : jsstring) : jsstring :=
  Array_join (lit " ")
    ((λ w, toUpperCase (charAt w 0) ++ String_slice w 1)
       <$> String_split "-" name).

(** Whether a word starts at an index of a name: at its start and
    after each dash. *)
Definition word_start (name : jsstring) (i : nat) : bool :=
  match i with
  | 0 => true
  | S j => bool_decide (name !! j = Some "-"%char)
  end.

(** [formatName] in one pass over the name; [start] tells whether a
    word starts here. *)
Fixpoint format_from (start : bool) (s : jsstring) : jsstring :=
  match s with
  | [] => []
  | a :: s' =>
    if Ascii.eqb a "-" then " "%char :: format_from true s'
    else (if start then upper a else a) :: format_from false s'
  end.

End AppView.

(* ================================================================== *)
(** ** App.tsx: what the controls let the user do *)
(* ================================================================== *)

Module AppControls.
Import JS App.

Section Controls.
Context `{FuseLib}.
Variable server : jsstring -> list Icon.

(** The events the rendered page can produce in a state. The dropdown
    lists the collections of the manifest; the style buttons are those
    of [styles] and are disabled while loading, and so is the search
    box, whose clear button is shown whenever the search is not empty;
    a fetch resolves or fails when it is pending. The manifest is
    loaded once, before anything else. *)
Definition allowed (st : State) (ev : Event) : bool :=
  match ev with
  | ManifestLoaded _ => false
  | SelectCollection c => bool_decide (c ∈ st_collections st)
  | FetchResolved c => bool_decide (c ∈ st_pending st)
  | FetchFailed c => bool_decide (c ∈ st_pending st)
  | SelectStyle s =>
    negb (st_loading st) && bool_decide (s ∈ styles (st_icons st))
  | TypeSearch text =>
    negb (st_loading st)
    || (bool_decide (text = []) && truthy (st_search st))
  | DebounceElapsed => true
  end.

Fixpoint user_trace (st : State) (evs : list Event) : bool :=
  match evs with
  | [] => true
  | ev :: evs' => allowed st ev && user_trace (step server st ev) evs'
  end.

(** The state once the manifest is there. *)
Definition started (collections : list jsstring) : State :=
  step server initial (ManifestLoaded collections).

(** The cache entry of a collection. *)
Definition entry (c : jsstring) : CacheEntry :=
  {| icons := server c; fuse := new_Fuse (server c) FUSE_OPTIONS |}.

(** What holds in every state of the component: the cache holds the
    entries of collections with a name, the icons shown are those of a
    cached collection unless nothing has been loaded, and a pending
    fetch has a name. *)
Record invariant (st : State) : Prop := {
  inv_cache :
    forall c e, st_cache st !! c = Some e -> e = entry c /\ c <> [];
  inv_shown :
    (st_icons st = [] /\ st_fuseRef st = None)
    \/ exists c, st_cache st !! c = Some (entry c)
                 /\ st_icons st = server c
                 /\ st_fuseRef st = Some (new_Fuse (server c) FUSE_OPTIONS);
  inv_pending : forall c, c ∈ st_pending st -> c <> [];
}.

(** Why the component is loading, after the events [evs]: no collection
    is selected yet, or a fetch of the selected collection is pending,
    or one has failed. *)
Definition loading_cause (evs : list Event) (st : State) : Prop :=
  st_loading st = true ->
  st_collection st = []
  \/ st_collection st ∈ st_pending st
  \/ FetchFailed (st_collection st) ∈ evs.

(** What holds besides in the states the user can reach once the
    manifest is there: the collections are those of the manifest, and
    only they are selected, fetched and cached. *)
Record from_manifest (collections : list jsstring) (st : State) : Prop := {
  fm_collections : st_collections st = collections;
  fm_collection : st_collection st = [] \/ st_collection st ∈ collections;
  fm_pending : forall c, c ∈ st_pending st -> c ∈ collections;
  fm_cache : forall c, is_Some (st_cache st !! c) -> c ∈ collections;
}.

(** A user who waits: a collection is selected only while no fetch is
    pending (and the manifest is loaded once, before anything else). *)
Definition calm (st : State) (ev : Event) : bool :=
  match ev with
  | ManifestLoaded _ => false
  | SelectCollection _ => bool_decide (st_pending st = [])
  | _ => true
  end.

Fixpoint calm_trace (st : State) (evs : list Event) : bool :=
  match evs with
  | [] => true
  | ev :: evs' => calm st ev && calm_trace (step server st ev) evs'
  end.

(** What holds for such a user, after the events [evs]: either nothing
    is pending, and then no collection is selected, or the selected one
    is shown, or its fetch has failed and the component is still
    loading; or the only pending fetch is that of the selected
    collection. *)
Definition in_step (evs : list Event) (st : State) : Prop :=
  (st_pending st = []
   /\ (st_collection st = []
       \/ (st_loading st = false
           /\ st_icons st = server (st_collection st)
           /\ st_fuseRef st
              = Some (new_Fuse (server (st_collection st)) FUSE_OPTIONS))
       \/ (st_loading st = true
           /\ FetchFailed (st_collection st) ∈ evs)))
  \/ (st_pending st = [st_collection st]
      /\ st_loading st = true /\ st_collection st <> []).

End Controls.

End AppControls.

(* ================================================================== *)
(** ** IconModal.tsx: the state of the modal and the copy button *)
(* ================================================================== *)

Module ModalState.
Import JS IconModal.

Section Modal.

(** The content of the icon the modal is open for. *)
Variable content : jsstring.

(** The state kept by [useState], the timeouts set by [copy] that have
    not fired yet, and the text last written to the clipboard. *)
Record State : Type := {
  copied : bool;
  color : jsstring;
  size : N;
  timers : nat;
  clipboard : option jsstring;
}.

Definition initial : State :=
  {| copied := false; color := lit "#000000"; size := 64; timers := 0;
     clipboard := None |}.

(** The events of the modal. The size comes from a range input, whose
    value is the decimal numeral of an integer; [ChangeSize] carries
    that integer. *)
Inductive Event : Type :=
| ChangeColor (value : jsstring)
| ChangeSize (value : N)
| ClickCopy
| TimeoutFires.

(** The memoised [svg] in a state. *)
Definition shown (st : State) : jsstring :=
  svg content (color st) (size st).

(** [copy] writes the markup shown to the clipboard, sets [copied] and
    sets a timeout that resets it. The function it returns, which would
    clear the timeout, is the return value of a click handler: nothing
    calls it. *)
Definition step (st : State) (ev : Event) : State :=
  match ev with
  | ChangeColor value =>
    {| copied := copied st; color := value; size := size st;
       timers := timers st; clipboard := clipboard st |}
  | ChangeSize value =>
    {| copied := copied st; color := color st; size := value;
       timers := timers st; clipboard := clipboard st |}
  | ClickCopy =>
    {| copied := true; color := color st; size := size st;
       timers := S (timers st); clipboard := Some (shown st) |}
  | TimeoutFires =>
    match timers st with
    | 0 => st
    | S k =>
      {| copied := false; color := color st; size := size st;
         timers := k; clipboard := clipboard st |}
    end
  end.

Definition run (st : State) (evs : list Event) : State :=
  foldl step st evs.

(** The text of the copy button. *)
Definition label (st : State) : jsstring :=
  if copied st then lit "Copied!" else lit "Copy SVG".

End Modal.

End ModalState.

(* ================================================================== *)
(** ** Markup read along its double quotes *)
(* ================================================================== *)

Module Markup.
Import JS IconModal Patterns.

(** A markup whose double quotes come in pairs is a sequence of
    segments, each a text and the quoted value that follows it, and a
    last text. *)
Fixpoint render (segs : list (jsstring * jsstring)) (Z : jsstring)
    : jsstring :=
  match segs with
  | [] => Z
  | (u, v) :: segs' => u ++ dq :: v ++ dq :: render segs' Z
  end.

(** The pieces of a string between its double quotes. *)
Fixpoint pieces (s : jsstring) : list jsstring :=
  match s with
  | [] => [[]]
  | a :: s' =>
    if Ascii.eqb a dq then [] :: pieces s'
    else match pieces s' with
         | p :: ps => (a :: p) :: ps
         | [] => [[a]]
         end
  end.

Fixpoint pair_up (ps : list jsstring)
    : option (list (jsstring * jsstring) * jsstring) :=
  match ps with
  | [] => None
  | [t] => Some ([], t)
  | u :: v :: ps' => (λ r, ((u, v) :: r.1, r.2)) <$> pair_up ps'
  end.

Definition parse (m : jsstring)
    : option (list (jsstring * jsstring) * jsstring) :=
  pair_up (pieces m).

(** A value is clean when it holds none of the texts the transform
    looks for. *)
Definition clean (v : jsstring) : bool :=
  negb (includes v (lit "fill=")) && negb (includes v (lit "width="))
  && negb (includes v (lit "height=")) && negb (includes v (lit "<svg")).

(** Well-quoted markup: the double quotes come in pairs and every
    quoted value is clean. *)
Definition well_quoted (m : jsstring) : bool :=
  match parse m with
  | Some (segs, _) => forallb (λ uv, clean uv.2) segs
  | None => false
  end.

(** A plain colour: no double quote, no dollar sign, and clean. *)
Definition plain_color (c : jsstring) : bool :=
  bool_decide (dq ∉ c) && bool_decide (dollar ∉ c) && clean c.

(** The transform on segments. A segment is of the kind of an attribute
    name when its text ends with the name and an equals sign. *)
Definition is_kind (name u : jsstring) : bool :=
  bool_decide (key name `suffix_of` u).

Definition has (name : jsstring) (segs : list (jsstring * jsstring)) : bool :=
  existsb (λ uv, is_kind name uv.1) segs.

Definition set_all (name w : jsstring) (segs : list (jsstring * jsstring))
    : list (jsstring * jsstring) :=
  (λ uv, if is_kind name uv.1 then (uv.1, w) else uv) <$> segs.

Fixpoint set_first (name w : jsstring) (segs : list (jsstring * jsstring))
    : list (jsstring * jsstring) :=
  match segs with
  | [] => []
  | uv :: segs' =>
    if is_kind name uv.1 then (uv.1, w) :: segs'
    else uv :: set_first name w segs'
  end.

Definition incl (K : jsstring) (segs : list (jsstring * jsstring))
    (t : jsstring) : bool :=
  existsb (λ uv, includes uv.1 K) segs || includes t K.

(** Insert the segment [(u1, v1)] and the segments [more] after the
    first occurrence of the text <svg. *)
Fixpoint inject (u1 v1 : jsstring) (more segs : list (jsstring * jsstring))
    (t : jsstring) : list (jsstring * jsstring) * jsstring :=
  match segs with
  | [] =>
    match indexOf (lit "<svg") t with
    | Some i => ((take (i + 4) t ++ u1, v1) :: more, drop (i + 4) t)
    | None => ([], t)
    end
  | (u, v) :: segs' =>
    match indexOf (lit "<svg") u with
    | Some i =>
      ((take (i + 4) u ++ u1, v1) :: more ++ (drop (i + 4) u, v) :: segs', t)
    | None =>
      let r := inject u1 v1 more segs' t in ((u, v) :: r.1, r.2)
    end
  end.

Definition fill_step (c : jsstring)
    (st : list (jsstring * jsstring) * jsstring)
    : list (jsstring * jsstring) * jsstring :=
  if incl (lit "fill=") st.1 st.2
  then (set_all (lit "fill") c st.1, st.2)
  else inject (lit " fill=") c [] st.1 st.2.

Definition dimension_step (n : jsstring)
    (st : list (jsstring * jsstring) * jsstring)
    : list (jsstring * jsstring) * jsstring :=
  let w := has (lit "width") st.1 in
  let h := has (lit "height") st.1 in
  let segs := if w then set_first (lit "width") n st.1 else st.1 in
  let segs := if h then set_first (lit "height") n segs else segs in
  if negb w && negb h
  then inject (lit " width=") n [(lit " height=", n)] segs st.2
  else (segs, st.2).

(** Well-formed segments: texts and values hold no double quote, and
    the values are clean. *)
Definition wf_seg (uv : jsstring * jsstring) : Prop :=
  (dq ∉ uv.1) /\ (dq ∉ uv.2) /\ clean uv.2 = true.

Definition wf (st : list (jsstring * jsstring) * jsstring) : Prop :=
  Forall wf_seg st.1 /\ (dq ∉ st.2).

(** The pieces of a string, put together again. *)
Fixpoint join (ps : list jsstring) : jsstring :=
  match ps with
  | [] => []
  | p :: ps' =>
    match ps' with
    | [] => p
    | _ :: _ => p ++ dq :: join ps'
    end
  end.

(** Segments are settled for a colour and a size when the transform has
    nothing left to do on them. *)
Definition settled (c n : jsstring)
    (st : list (jsstring * jsstring) * jsstring) : Prop :=
  set_all (lit "fill") c st.1 = st.1
  /\ set_first (lit "width") n st.1 = st.1
  /\ set_first (lit "height") n st.1 = st.1
  /\ (incl (lit "fill=") st.1 st.2 = true
      \/ incl (lit "<svg") st.1 st.2 = false)
  /\ (has (lit "width") st.1 = true \/ has (lit "height") st.1 = true
      \/ incl (lit "<svg") st.1 st.2 = false).




End Markup.

(* ================================================================== *)
(** ** Concrete data for the examples *)
(* ================================================================== *)

Module Fixture.
Import JS IconModal App.

(** An icon with a name, a style and a collection. *)
Definition mk_icon (collection_ name_ style_ : jsstring) : Icon :=
  {| name := name_; category := []; style := style_;
     path := collection_ ++ lit "/" ++ name_; content := [];
     collection := collection_ |}.

(** A small scoring function, for the examples: a text as long as the
    pattern has for a score the share of its code units that differ
    from those of the pattern, and matches when the share is within the
    threshold; a record has the score of the first of its keyed fields
    that matches. *)
Fixpoint mismatches (a b : jsstring) : option nat :=
  match a, b with
  | [], [] => Some 0
  | x :: a', y :: b' =>
    (λ n, if Ascii.eqb x y then n else S n) <$> mismatches a' b'
  | _, _ => None
  end.

Definition text_score (options : FuseOptions) (pattern text : jsstring)
    : option Q :=
  match mismatches text pattern with
  | Some d =>
    let s := (Z.of_nat d # Pos.of_nat (length pattern))%Q in
    if Qle_bool s (threshold options) then Some s else None
  | None => None
  end.

Definition toy_score (options : FuseOptions) (pattern : jsstring) (i : Icon)
    : option Q :=
  head (omap (λ k, Icon_get k i ≫= text_score options pattern)
          (keys options)).

#[export] Instance ranked_fuse : FuseLib :=
  {| Fuse := list Icon * FuseOptions;
     new_Fuse := pair;
     Fuse_matches := λ f pattern, ranked toy_score f.2 pattern f.1;
     Fuse_score := toy_score |}.

(** A server with two collections of one icon each. *)
Definition two_collections (c : jsstring) : list Icon :=
  [mk_icon c (c ++ lit "-icon") (lit "solid")].

(** A collection in which a near match comes before the exact one. *)
Definition hame_home : list Icon :=
  [mk_icon (lit "c") (lit "hame") (lit "solid");
   mk_icon (lit "c") (lit "home") (lit "solid")].

(** A collection with an icon whose style is the word all. *)
Definition with_all : list Icon :=
  [mk_icon (lit "c") (lit "a") (lit "solid");
   mk_icon (lit "c") (lit "b") (lit "all");
   mk_icon (lit "c") (lit "c") (lit "all")].

Definition col_a : jsstring := lit "a".

Definition col_b : jsstring := lit "b".

(** The state after the collection [hame_home] is loaded and the query
    home has been typed and sampled. *)
Definition searching_home : State :=
  run (λ _, hame_home) initial
    [ManifestLoaded [lit "c"]; FetchResolved (lit "c");
     TypeSearch (lit "home"); DebounceElapsed].

(** The state after the collection [hame_home] is loaded and the style
    solid is selected, with no query. *)
Definition browsing_solid : State :=
  run (λ _, hame_home) initial
    [ManifestLoaded [lit "c"]; FetchResolved (lit "c");
     SelectStyle (lit "solid")].

(** The windowing example of the specification: 37 icons in rows of 9
    make 5 rows, the last of which has one icon. *)
Definition thirty_seven : list Icon :=
  replicate 37 (mk_icon (lit "c") (lit "x") (lit "solid")).

(** An attribute with a double-quoted value. *)
Definition attr (name value : jsstring) : jsstring :=
  name ++ lit "=" ++ [dq] ++ value ++ [dq].

Definition black : jsstring := lit "#000000".

Definition red : jsstring := lit "#ff0000".

(** [<svg fill='red'></svg>], the value in single quotes. *)
Definition single_quoted : jsstring := lit "<svg fill='red'></svg>".

(** [<svg><path fill=Q...Q/><path fill=Q...Q/></svg>] *)
Definition two_fills : jsstring :=
  lit "<svg><path " ++ attr (lit "fill") (lit "none") ++ lit "/><path "
    ++ attr (lit "fill") (lit "blue") ++ lit "/></svg>".



(** [<g fill=Q...Q></g>], a markup without a root tag. *)
Definition no_root : jsstring :=
  lit "<g " ++ attr (lit "fill") (lit "red") ++ lit "></g>".

(** [<svg fill=Q...Q></svg>] *)
Definition filled : jsstring :=
  lit "<svg " ++ attr (lit "fill") (lit "red") ++ lit "></svg>".

(** [<svg width=Qfill=QxQ>], with a quote that is never closed. *)
Definition odd_quotes : jsstring :=
  lit "<svg width=" ++ [dq] ++ attr (lit "fill") (lit "x") ++ lit ">".

(** An icon as the collections have them. *)
Definition icon_markup : jsstring :=
  lit "<svg " ++ attr (lit "viewBox") (lit "0 0 24 24") ++ lit " "
    ++ attr (lit "fill") (lit "none") ++ lit " "
    ++ attr (lit "stroke-width") (lit "2") ++ lit "><path "
    ++ attr (lit "d") (lit "M4 4h16v16H4z") ++ lit "/></svg>".

End Fixture.

(* ================================================================== *)
(** ** More concrete data for the examples *)
(* ================================================================== *)

Module Samples.
Import JS IconModal App AppControls Fixture.

Definition font_awesome : jsstring := lit "font-awesome".

(** The manifest of the server [two_collections]. *)
Definition manifest_ab : list jsstring := [col_a; col_b].

(** The first collection is loaded, the second is selected and loaded. *)
Definition both_loaded : list Event :=
  [ManifestLoaded manifest_ab; FetchResolved col_a;
   SelectCollection col_b; FetchResolved col_b].

(** The same once the manifest is there. *)
Definition load_both : list Event :=
  [FetchResolved col_a; SelectCollection col_b; FetchResolved col_b].

(** The first collection is selected and its fetch fails. *)
Definition failed_a : list Event :=
  [SelectCollection col_a; FetchFailed col_a].


End Samples.

(* ================================================================== *)
(** ** Facts about lists *)
(* ================================================================== *)

Module ListFacts.

Lemma filter_eq_absent {A} `{EqDecision A} (x : A) (l : list A) :
  x ∉ l -> filter (λ y, y = x) l = [].
Proof.
  induction l as [| a l IH]; intros Hx; [reflexivity |].
  apply not_elem_of_cons in Hx as [Hne Hx]. rewrite filter_cons.
  destruct (decide (a = x)); [congruence | auto].
Qed.

Lemma filter_eq_once {A} `{EqDecision A} (x : A) (l : list A) :
  NoDup l -> x ∈ l -> length (filter (λ y, y = x) l) = 1.
Proof.
  induction l as [| a l IH]; intros Hnd Hx; [inversion Hx |].
  apply NoDup_cons in Hnd as [Ha Hnd]. rewrite filter_cons.
  destruct (decide (a = x)) as [-> | Hne].
  - rewrite (filter_eq_absent x l Ha). reflexivity.
  - apply elem_of_cons in Hx as [E | Hx]; [congruence | auto].
Qed.

Lemma cons_inj {A} (x y : A) (l k : list A) :
  x :: l = y :: k -> x = y /\ l = k.
Proof. intros [= -> ->]. auto. Qed.

End ListFacts.

(* ================================================================== *)
(** ** Properties of the row partition *)
(* ================================================================== *)

Module RowsSpec.
Import App.

Lemma rows_from_unfold (l : list Icon) (i : nat) :
  rows_from l i =
  if decide (i < length l)
  then slice l i (i + ICONS_PER_ROW) :: rows_from l (i + ICONS_PER_ROW)
  else [].
Proof.
  rewrite rows_from_equation_1. unfold rows_from_unfold_clause_1.
  destruct (decide (i < length l)); reflexivity.
Qed.

Lemma rows_from_done (l : list Icon) (i : nat) :
  length l <= i -> rows_from l i = [].
Proof.
  intros Hi. rewrite rows_from_unfold.
  destruct (decide (i < length l)); [lia | reflexivity].
Qed.

(** Induction along the loop: the counter grows by [ICONS_PER_ROW]
    until it reaches the length. *)
Lemma rows_loop_ind (l : list Icon) (P : nat -> Prop) :
  (forall i, length l <= i -> P i) ->
  (forall i, i < length l -> P (i + ICONS_PER_ROW) -> P i) ->
  forall i, P i.
Proof.
  intros Hdone Hstep i.
  remember (length l - i) as d eqn:Hd.
  revert i Hd. induction d as [d IH] using lt_wf_ind. intros i Hd.
  destruct (decide (i < length l)) as [Hlt | Hge].
  - apply Hstep; [exact Hlt |].
    apply (IH (length l - (i + ICONS_PER_ROW))); [| reflexivity].
    unfold ICONS_PER_ROW. lia.
  - apply Hdone. lia.
Qed.

Lemma concat_rows_from (l : list Icon) (i : nat) :
  concat (rows_from l i) = drop i l.
Proof.
  induction i as [i Hi | i Hi IH] using (rows_loop_ind l).
  - rewrite rows_from_done by exact Hi. simpl.
    symmetry. apply drop_ge. exact Hi.
  - rewrite rows_from_unfold. destruct (decide (i < length l)); [| lia].
    simpl. rewrite IH. unfold slice.
    replace (i + ICONS_PER_ROW - i) with ICONS_PER_ROW by lia.
    rewrite <- (drop_drop l ICONS_PER_ROW i).
    apply take_drop.
Qed.

Lemma ceil_step (d : nat) :
  0 < d -> (d + 8) / 9 = S ((d - 9 + 8) / 9).
Proof.
  intros Hd. destruct (decide (9 <= d)) as [Hge | Hlt].
  - replace (d + 8) with (1 * 9 + (d - 9 + 8)) by lia.
    rewrite Nat.div_add_l by lia. reflexivity.
  - replace (d - 9) with 0 by lia. simpl.
    symmetry. apply (Nat.div_unique (d + 8) 9 1 (d - 1)); lia.
Qed.

Lemma length_rows_from (l : list Icon) (i : nat) :
  length (rows_from l i)
  = (length l - i + (ICONS_PER_ROW - 1)) / ICONS_PER_ROW.
Proof.
  induction i as [i Hi | i Hi IH] using (rows_loop_ind l).
  - rewrite rows_from_done by exact Hi.
    replace (length l - i) with 0 by lia.
    unfold ICONS_PER_ROW. reflexivity.
  - rewrite rows_from_unfold. destruct (decide (i < length l)); [| lia].
    simpl length. rewrite IH. unfold ICONS_PER_ROW in *.
    replace (9 - 1) with 8 by reflexivity.
    rewrite (ceil_step (length l - i)) by lia.
    do 3 f_equal. lia.
Qed.

Lemma full_rows_from (l : list Icon) (i k : nat) (row : list Icon) :
  rows_from l i !! k = Some row ->
  S k < length (rows_from l i) ->
  length row = ICONS_PER_ROW.
Proof.
  revert k. induction i as [i Hi | i Hi IH] using (rows_loop_ind l);
    intros k Hrow Hk.
  - rewrite rows_from_done in Hrow by exact Hi. discriminate.
  - rewrite rows_from_unfold in Hrow, Hk.
    destruct (decide (i < length l)); [| lia].
    destruct k as [| k]; simpl in Hrow, Hk.
    + injection Hrow as <-.
      assert (Hnext : rows_from l (i + ICONS_PER_ROW) <> []).
      { intros E. rewrite E in Hk. simpl in Hk. lia. }
      assert (i + ICONS_PER_ROW < length l).
      { destruct (decide (i + ICONS_PER_ROW < length l)); [assumption |].
        exfalso. apply Hnext. apply rows_from_done. lia. }
      unfold slice. rewrite length_take, length_drop. lia.
    + apply (IH k); [exact Hrow | lia].
Qed.

(** C5. For a filtered view of length L and the row capacity 9, [rows]
    has ceil(L / 9) rows, every row but the last has exactly 9 icons,
    the rows concatenated in order give the filtered view back, and an
    empty view gives no row. *)
Theorem rows_partition (filtered_ : list Icon) :
  length (rows filtered_)
    = (length filtered_ + (ICONS_PER_ROW - 1)) / ICONS_PER_ROW
  /\ (forall k row,
        rows filtered_ !! k = Some row ->
        S k < length (rows filtered_) ->
        length row = ICONS_PER_ROW)
  /\ concat (rows filtered_) = filtered_
  /\ rows [] = [].
Proof.
  unfold rows. split; [| split; [| split]].
  - rewrite length_rows_from. f_equal. lia.
  - intros k row. apply full_rows_from.
  - apply concat_rows_from.
  - apply rows_from_done. simpl. lia.
Qed.

End RowsSpec.

(* ================================================================== *)
(** ** Properties of the style index *)
(* ================================================================== *)

Module StyleIndexSpec.
Import App.

Lemma N_of_ascii_inj (x y : ascii) : N_of_ascii x = N_of_ascii y -> x = y.
Proof.
  intros E. rewrite <- (ascii_N_embedding x), <- (ascii_N_embedding y).
  rewrite E. reflexivity.
Qed.

#[local] Instance str_le_total : Total str_le_rel.
Proof.
  unfold str_le_rel. intros a. induction a as [| x a IH]; intros [| y b];
    simpl; auto.
  rewrite (N.compare_antisym (N_of_ascii x) (N_of_ascii y)).
  destruct (N.compare (N_of_ascii x) (N_of_ascii y)); simpl; auto.
Qed.

#[local] Instance str_le_trans : Transitive str_le_rel.
Proof.
  unfold str_le_rel. intros a. induction a as [| x a IH];
    intros [| y b] [| z c]; simpl; auto; try contradiction.
  destruct (N.compare_spec (N_of_ascii x) (N_of_ascii y)) as [E1 | L1 | G1];
    destruct (N.compare_spec (N_of_ascii y) (N_of_ascii z)) as [E2 | L2 | G2];
    try contradiction; intros H1 H2.
  - rewrite E1, E2, N.compare_refl. eauto.
  - rewrite E1. apply N.compare_lt_iff in L2. rewrite L2. exact I.
  - rewrite <- E2. apply N.compare_lt_iff in L1. rewrite L1. exact I.
  - assert (L : (N_of_ascii x < N_of_ascii z)%N) by lia.
    apply N.compare_lt_iff in L. rewrite L. exact I.
Qed.

#[local] Instance str_le_antisym : AntiSymm eq str_le_rel.
Proof.
  unfold str_le_rel. intros a. induction a as [| x a IH]; intros [| y b];
    simpl; auto; try contradiction.
  rewrite (N.compare_antisym (N_of_ascii x) (N_of_ascii y)).
  destruct (N.compare_spec (N_of_ascii x) (N_of_ascii y)) as [E | L | G];
    simpl; try contradiction.
  intros H1 H2. f_equal; [apply N_of_ascii_inj, E | apply IH; assumption].
Qed.

(** The set of styles gathered by the loop. *)
Lemma Set_add_elem (x y : jsstring) (set : list jsstring) :
  y ∈ Set_add x set <-> y = x \/ y ∈ set.
Proof.
  unfold Set_add. case_bool_decide as Hx.
  - split; [auto |]. intros [-> | Hy]; assumption.
  - rewrite elem_of_app, list_elem_of_singleton. tauto.
Qed.

Lemma Set_add_NoDup (x : jsstring) (set : list jsstring) :
  NoDup set -> NoDup (Set_add x set).
Proof.
  intros Hnd. unfold Set_add. case_bool_decide as Hx; [assumption |].
  apply NoDup_app. split; [assumption |]. split.
  - intros y Hy Hy'. apply list_elem_of_singleton in Hy'. subst. auto.
  - apply NoDup_singleton.
Qed.

Lemma foldl_index_set (icons : list Icon) acc :
  NoDup acc.1 ->
  NoDup (foldl index_icon acc icons).1
  /\ forall x, x ∈ (foldl index_icon acc icons).1
       <-> x ∈ acc.1 \/ exists i, i ∈ icons /\ style i = x.
Proof.
  revert acc. induction icons as [| icon icons IH]; intros acc Hnd; simpl.
  - split; [assumption |]. intros x. split; [auto |].
    intros [Hx | (i & Hi & _)]; [assumption | inversion Hi].
  - destruct (IH (index_icon acc icon)) as [IH1 IH2].
    { simpl. apply Set_add_NoDup, Hnd. }
    split; [assumption |]. intros x. rewrite IH2. simpl.
    rewrite Set_add_elem. split.
    + intros [[-> | Hx] | (i & Hi & Hs)].
      * right. exists icon. split; [left | reflexivity].
      * left. assumption.
      * right. exists i. split; [right; assumption | assumption].
    + intros [Hx | (i & Hi & Hs)]; [left; right; assumption |].
      apply elem_of_cons in Hi as [-> | Hi].
      * left. left. symmetry. assumption.
      * right. exists i. split; assumption.
Qed.

(** The grouping built by the loop: the group of a style that was
    already there is extended in source order; a new style gets its
    icons, and a style no icon has gets no entry. *)
Lemma foldl_index_map (icons : list Icon) acc (k : jsstring) :
  (foldl index_icon acc icons).2 !! k
  = match acc.2 !! k, filter (λ i, style i = k) icons with
    | None, [] => None
    | o, group => Some (default [] o ++ group)
    end.
Proof.
  revert acc. induction icons as [| icon icons IH]; intros acc; simpl.
  - destruct (acc.2 !! k) as [old |]; [| reflexivity].
    simpl. rewrite app_nil_r. reflexivity.
  - rewrite IH. simpl. rewrite filter_cons.
    destruct (decide (style icon = k)) as [E | Hne].
    + subst k. rewrite lookup_insert_eq. simpl.
      destruct (acc.2 !! style icon) as [old |]; simpl;
        rewrite <- ?app_assoc; reflexivity.
    + rewrite lookup_insert_ne by exact Hne. reflexivity.
Qed.

Lemma styleIndex_lookup (L : list Icon) (k : jsstring) :
  styleIndex L !! k
  = match filter (λ i, style i = k) L with
    | [] => None
    | group => Some group
    end.
Proof.
  unfold styleIndex, build_index. rewrite foldl_index_map. simpl.
  rewrite lookup_empty. destruct (filter _ L); reflexivity.
Qed.

(** An icon whose style is none of the keys is in none of the groups. *)
Lemma groups_fresh (keys : list jsstring) (icon : Icon) (L : list Icon) :
  style icon ∉ keys ->
  (λ k, filter (λ i, style i = k) (icon :: L)) <$> keys
  = (λ k, filter (λ i, style i = k) L) <$> keys.
Proof.
  intros Hk. apply list_fmap_ext. intros j k Hin.
  rewrite filter_cons. destruct (decide (style icon = k)) as [E | _];
    [| reflexivity].
  exfalso. apply Hk. rewrite E. apply list_elem_of_lookup. eauto.
Qed.

(** One group per distinct style, concatenated: the icons of the list,
    each once. *)
Lemma concat_groups (keys : list jsstring) (L : list Icon) :
  NoDup keys ->
  (forall i, i ∈ L -> style i ∈ keys) ->
  concat ((λ k, filter (λ i, style i = k) L) <$> keys) ≡ₚ L.
Proof.
  intros Hnd. induction L as [| icon L IH]; intros Hkeys.
  - clear. induction keys as [| k keys IHk]; [reflexivity | exact IHk].
  - assert (Hin : style icon ∈ keys) by (apply Hkeys; left).
    assert (HL : forall i, i ∈ L -> style i ∈ keys)
      by (intros i Hi; apply Hkeys; right; exact Hi).
    specialize (IH HL).
    trans (icon :: concat ((λ k, filter (λ i, style i = k) L) <$> keys));
      [| constructor; exact IH].
    clear IH Hkeys HL.
    induction keys as [| k keys IHk]; [inversion Hin |].
    apply NoDup_cons in Hnd as [Hk Hnd].
    rewrite !fmap_cons, !concat_cons, filter_cons.
    destruct (decide (style icon = k)) as [E | Hne].
    + subst k. rewrite (groups_fresh keys icon L Hk). reflexivity.
    + apply elem_of_cons in Hin as [E | Hin]; [congruence |].
      rewrite (IHk Hnd Hin).
      symmetry. apply Permutation_middle.
Qed.

Lemma style_index_facts (L : list Icon) :
  exists sorted,
    styles L = lit "all" :: sorted
    /\ StronglySorted str_le_rel sorted
    /\ NoDup sorted
    /\ (forall x, x ∈ sorted <-> exists i, i ∈ L /\ style i = x).
Proof.
  destruct (foldl_index_set L ([], ∅)) as [Hnd Hmem];
    [simpl; constructor |].
  fold (build_index L) in Hnd, Hmem.
  assert (Hperm : Array_sort (build_index L).1 ≡ₚ (build_index L).1)
    by apply merge_sort_Permutation.
  exists (Array_sort (build_index L).1).
  split; [reflexivity |]. split.
  { apply (StronglySorted_merge_sort str_le_rel). }
  split; [rewrite Hperm; exact Hnd |].
  intros x. rewrite Hperm, Hmem. simpl. split.
  - intros [Hx | Hx]; [inversion Hx | exact Hx].
  - auto.
Qed.

(** C6. The styles list is the synthetic value all followed by the
    distinct style values of the icons in ascending code-unit order
    (the only list that is sorted, duplicate free and has exactly those
    elements); the grouping maps a style to the icons of that style in
    source order and has no entry for a style no icon has; the groups
    taken per distinct style hold the icons of the list, each once; and
    equal inputs give equal outputs. *)
Theorem style_index_spec (L : list Icon) :
  (exists sorted,
      styles L = lit "all" :: sorted
      /\ StronglySorted str_le_rel sorted
      /\ NoDup sorted
      /\ (forall x, x ∈ sorted <-> exists i, i ∈ L /\ style i = x)
      /\ (forall l,
            StronglySorted str_le_rel l -> NoDup l ->
            (forall x, x ∈ l <-> exists i, i ∈ L /\ style i = x) ->
            l = sorted)
      /\ concat ((λ k, default [] (styleIndex L !! k)) <$> sorted) ≡ₚ L)
  /\ (forall k group,
        styleIndex L !! k = Some group <->
        group = filter (λ i, style i = k) L /\ group <> [])
  /\ (forall i, i ∈ L -> exists group,
        styleIndex L !! style i = Some group /\ i ∈ group)
  /\ (forall L', L = L' -> styles L = styles L' /\ styleIndex L = styleIndex L').
Proof.
  destruct (foldl_index_set L ([], ∅)) as [Hnd Hmem];
    [simpl; constructor |].
  fold (build_index L) in Hnd, Hmem.
  assert (Hperm : Array_sort (build_index L).1 ≡ₚ (build_index L).1)
    by apply merge_sort_Permutation.
  assert (Hsorted_mem : forall x,
    x ∈ Array_sort (build_index L).1 <-> exists i, i ∈ L /\ style i = x).
  { intros x. rewrite Hperm, Hmem. simpl. split.
    - intros [Hx | Hx]; [inversion Hx | exact Hx].
    - auto. }
  assert (Hsorted_nd : NoDup (Array_sort (build_index L).1))
    by (rewrite Hperm; exact Hnd).
  split; [| split; [| split]].
  - exists (Array_sort (build_index L).1).
    split; [reflexivity |]. split.
    { apply (StronglySorted_merge_sort str_le_rel). }
    split; [exact Hsorted_nd |]. split; [exact Hsorted_mem |]. split.
    + intros l Hl Hndl Hmeml.
      apply (StronglySorted_unique str_le_rel); [exact Hl | |].
      * apply (StronglySorted_merge_sort str_le_rel).
      * apply NoDup_Permutation; [exact Hndl | exact Hsorted_nd |].
        intros x. rewrite Hmeml, Hsorted_mem. reflexivity.
    + rewrite (list_fmap_ext (λ k, default [] (styleIndex L !! k))
                 (λ k, filter (λ i, style i = k) L)).
      * apply concat_groups; [exact Hsorted_nd |].
        intros i Hi. apply Hsorted_mem. exists i. auto.
      * intros _ k _. rewrite styleIndex_lookup.
        destruct (filter _ L); reflexivity.
  - intros k group. rewrite styleIndex_lookup.
    destruct (filter (λ i, style i = k) L) as [| a g] eqn:E.
    + split; [discriminate | intros [-> Hne]; congruence].
    + split; [intros [= <-]; split; [reflexivity | discriminate]
             | intros [-> _]; reflexivity].
  - intros i Hi. rewrite styleIndex_lookup.
    assert (Hif : i ∈ filter (λ j, style j = style i) L)
      by (apply list_elem_of_filter; auto).
    destruct (filter (λ j, style j = style i) L) as [| a g] eqn:E;
      [inversion Hif |].
    exists (a :: g). auto.
  - intros L' <-. auto.
Qed.

End StyleIndexSpec.

(* ================================================================== *)
(** ** Facts about the order of the hits *)
(* ================================================================== *)

Module SearchSpec.
Import App.

Lemma sortFn_spec (a b : Q * FuseResult) :
  sortFn a b
  <-> (a.1 < b.1)%Q \/ ((a.1 == b.1)%Q /\ refIndex a.2 <= refIndex b.2).
Proof.
  unfold sortFn, sortFn_leb.
  destruct (Qcompare_spec a.1 b.1) as [E | L | G].
  - rewrite Is_true_true, Nat.leb_le. split; [auto |].
    intros [L | [_ Hle]]; [| exact Hle].
    rewrite E in L. exfalso. exact (Qlt_irrefl _ L).
  - split; [auto | intros _; exact I].
  - split; [intros [] |].
    intros [L | [E _]].
    + exfalso. exact (Qlt_irrefl _ (Qlt_trans _ _ _ L G)).
    + rewrite E in G. exfalso. exact (Qlt_irrefl _ G).
Qed.

#[export] Instance sortFn_trans : Transitive sortFn.
Proof.
  intros a b c. rewrite !sortFn_spec.
  intros [L1 | [E1 I1]] [L2 | [E2 I2]].
  - left. exact (Qlt_trans _ _ _ L1 L2).
  - left. rewrite <- E2. exact L1.
  - left. rewrite E1. exact L2.
  - right. split; [rewrite E1; exact E2 | lia].
Qed.

#[export] Instance sortFn_total : Total sortFn.
Proof.
  intros a b. rewrite !sortFn_spec.
  destruct (Qcompare_spec a.1 b.1) as [E | L | G]; [| auto | auto].
  destruct (Nat.le_ge_cases (refIndex a.2) (refIndex b.2)) as [Hle | Hge].
  - left. right. auto.
  - right. right. split; [symmetry; exact E | exact Hge].
Qed.

Section Ranking.
Variable score : FuseOptions -> jsstring -> Icon -> option Q.

Lemma scored_elem (options : FuseOptions) (pattern : jsstring)
    (docs : list Icon) (s : Q) (r : FuseResult) :
  (s, r) ∈ scored score options pattern docs
  <-> docs !! refIndex r = Some (item r)
      /\ score options pattern (item r) = Some s.
Proof.
  unfold scored. rewrite list_elem_of_omap. split.
  - intros (r' & Hr' & Hs).
    apply elem_of_lookup_imap in Hr' as (idx & icon & -> & Hidx).
    simpl in Hs. destruct (score options pattern icon) as [s' |] eqn:Es;
      [| discriminate].
    injection Hs as -> <-. simpl. auto.
  - intros [Hr Hs]. exists r. split.
    + apply elem_of_lookup_imap. exists (refIndex r), (item r).
      split; [destruct r; reflexivity | exact Hr].
    + rewrite Hs. reflexivity.
Qed.

Lemma ranked_elem (options : FuseOptions) (pattern : jsstring)
    (docs : list Icon) (r : FuseResult) :
  r ∈ ranked score options pattern docs
  <-> docs !! refIndex r = Some (item r)
      /\ is_Some (score options pattern (item r)).
Proof.
  unfold ranked. rewrite list_elem_of_fmap. split.
  - intros ([s r'] & -> & Hin). rewrite merge_sort_Permutation in Hin.
    apply scored_elem in Hin as [Hr Hs]. simpl. eauto.
  - intros [Hr [s Hs]]. exists (s, r). split; [reflexivity |].
    rewrite merge_sort_Permutation. apply scored_elem. auto.
Qed.

Lemma length_ranked (options : FuseOptions) (pattern : jsstring)
    (docs : list Icon) :
  length (ranked score options pattern docs)
  = length (scored score options pattern docs).
Proof.
  unfold ranked. rewrite length_fmap.
  apply Permutation_length, merge_sort_Permutation.
Qed.

Lemma ranked_nil (options : FuseOptions) (pattern : jsstring) :
  ranked score options pattern [] = [].
Proof. reflexivity. Qed.

Lemma ranked_item (options : FuseOptions) (pattern : jsstring)
    (docs : list Icon) (i : Icon) :
  i ∈ item <$> ranked score options pattern docs
  <-> i ∈ docs /\ is_Some (score options pattern i).
Proof.
  rewrite list_elem_of_fmap. split.
  - intros (r & -> & Hr). apply ranked_elem in Hr as [Hr Hs].
    split; [| exact Hs]. apply list_elem_of_lookup. eauto.
  - intros [Hi Hs]. apply list_elem_of_lookup in Hi as [idx Hidx].
    exists {| item := i; refIndex := idx |}. split; [reflexivity |].
    apply ranked_elem. simpl. auto.
Qed.

End Ranking.

End SearchSpec.

(* ================================================================== *)
(** ** Properties of the filter pipeline *)
(* ================================================================== *)

Module FilterSpec.
Import App.

Section Pipeline.
Context `{FuseLib}.

Lemma truthy_nonempty (q : jsstring) : q <> [] -> truthy q = true.
Proof. destruct q; [congruence | reflexivity]. Qed.

Lemma length_Fuse_search (fuse_ : Fuse) (q : jsstring) (limit : nat) :
  length (Fuse_search fuse_ q limit) <= limit.
Proof. unfold Fuse_search. rewrite length_take. lia. Qed.

(** C10. When an icon has the style all, the styles list holds the word
    all twice, the synthetic one and the real one; the grouping has an
    entry under that key, and the filtered view never depends on it: two
    groupings that agree on every other key give the same view, and with
    the style all the view is the search result or the whole icon list. *)
Theorem style_all_entry_unused (L : list Icon) :
  (exists i, i ∈ L /\ style i = lit "all") ->
  length (filter (λ s, s = lit "all") (styles L)) = 2
  /\ is_Some (styleIndex L !! lit "all")
  /\ (forall fuseRef q style_ (index index' : gmap jsstring (list Icon)),
        (forall k, k <> lit "all" -> index !! k = index' !! k) ->
        filtered L fuseRef q style_ index = filtered L fuseRef q style_ index')
  /\ (forall fuseRef q,
        filtered L fuseRef q (lit "all") (styleIndex L)
        = match truthy q, fuseRef with
          | true, Some fuse_ => item <$> Fuse_search fuse_ q 500
          | _, _ => L
          end).
Proof.
  intros (i & Hi & Hs).
  destruct (StyleIndexSpec.style_index_facts L)
    as (sorted & Hst & _ & Hnd & Hmem).
  split; [| split; [| split]].
  - rewrite Hst, filter_cons_True by reflexivity. simpl. f_equal.
    apply ListFacts.filter_eq_once; [exact Hnd |]. apply Hmem. eauto.
  - rewrite StyleIndexSpec.styleIndex_lookup.
    assert (Hif : i ∈ filter (λ j, style j = lit "all") L)
      by (apply list_elem_of_filter; auto).
    destruct (filter _ L); [inversion Hif | eauto].
  - intros fuseRef q style_ index index' Hagree. unfold filtered.
    destruct (truthy q), fuseRef; try reflexivity;
      case_bool_decide as Hstyle; try reflexivity;
      rewrite (Hagree style_ Hstyle); reflexivity.
  - intros fuseRef q. unfold filtered.
    rewrite bool_decide_eq_false_2 by (intros Hne; apply Hne; reflexivity).
    destruct (truthy q), fuseRef; reflexivity.
Qed.

End Pipeline.

End FilterSpec.

(* ================================================================== *)
(** ** Properties of the component state *)
(* ================================================================== *)

Module ComponentSpec.
Import App.

Section Invariant.
Context `{FuseLib}.
Variable server : jsstring -> list Icon.

Lemma consistent_initial : consistent initial.
Proof.
  split; [reflexivity |]. intros c e Hc. simpl in Hc.
  rewrite lookup_empty in Hc. discriminate.
Qed.

Lemma consistent_load_collection (st : State) :
  consistent st -> consistent (load_collection st).
Proof.
  intros [Hf Hc]. unfold load_collection.
  destruct (truthy (st_collection st)); [| split; assumption].
  destruct (st_cache st !! st_collection st) as [cached |] eqn:E.
  - split; [simpl; eapply Hc, E | exact Hc].
  - split; assumption.
Qed.

Lemma consistent_change_collection (c : jsstring) (st : State) :
  consistent st -> consistent (change_collection c st).
Proof.
  intros Hst. unfold change_collection. case_bool_decide; [exact Hst |].
  destruct (consistent_load_collection (setCollection c st)) as [Hf Hc].
  { destruct Hst. split; assumption. }
  split; assumption.
Qed.

Lemma consistent_fetch_resolved (c : jsstring) (data : list Icon)
    (st : State) :
  consistent st -> consistent (fetch_resolved c data st).
Proof.
  intros [Hf Hc]. split; [reflexivity |]. simpl. intros c' e He.
  destruct (decide (c = c')) as [-> | Hne].
  - rewrite lookup_insert_eq in He. injection He as <-. reflexivity.
  - rewrite lookup_insert_ne in He by exact Hne. eapply Hc, He.
Qed.

Lemma consistent_step (st : State) (ev : Event) :
  consistent st -> consistent (step server st ev).
Proof.
  intros Hst. destruct ev as [cs | c | c | c | s | text |]; simpl.
  - destruct cs as [| c cs].
    + destruct Hst. split; assumption.
    + apply consistent_change_collection. destruct Hst. split; assumption.
  - apply consistent_change_collection, Hst.
  - case_bool_decide; [| exact Hst].
    apply consistent_fetch_resolved. destruct Hst. split; assumption.
  - case_bool_decide; [| exact Hst]. destruct Hst. split; assumption.
  - destruct Hst. split; assumption.
  - destruct Hst. split; assumption.
  - destruct Hst. split; assumption.
Qed.

Lemma consistent_run (evs : list Event) (st : State) :
  consistent st -> consistent (run server st evs).
Proof.
  revert st. induction evs as [| ev evs IH]; intros st Hst; [exact Hst |].
  simpl. apply IH, consistent_step, Hst.
Qed.

(** The callback of a fetch installs the fetched list, whatever the
    selection is by then. *)
Lemma step_FetchResolved (st : State) (c : jsstring) :
  c ∈ st_pending st ->
  let st' := step server st (FetchResolved c) in
  st_icons st' = server c
  /\ st_fuseRef st' = Some (new_Fuse (server c) FUSE_OPTIONS)
  /\ st_collection st' = st_collection st
  /\ st_loading st' = false
  /\ st_cache st' !! c
     = Some {| icons := server c; fuse := new_Fuse (server c) FUSE_OPTIONS |}.
Proof.
  intros Hc. simpl. rewrite bool_decide_eq_true_2 by exact Hc. simpl.
  rewrite lookup_insert_eq. auto.
Qed.

Lemma change_collection_fetches (c : jsstring) (st : State) :
  c <> st_collection st -> c <> [] -> st_cache st !! c = None ->
  change_collection c st
  = setStyle (lit "all")
      (setPending (st_pending st ++ [c]) (setLoading true (setCollection c st))).
Proof.
  intros Hne Hc Hcache. unfold change_collection, load_collection.
  rewrite bool_decide_eq_false_2 by exact Hne. simpl.
  rewrite (FilterSpec.truthy_nonempty c Hc), Hcache. reflexivity.
Qed.

(** C1, as amended. The callback of a fetch installs the fetched list
    whenever the fetch resolves, whether or not its collection is still
    the selected one. After A and then B are selected while both fetches
    are in flight, the selection is B and the icon list that ends up
    active is that of the fetch that resolves last: B's list when B's
    fetch resolves after A's, A's list when A's fetch resolves after
    B's. *)
Theorem last_resolved_fetch_wins (A B : jsstring) :
  A <> [] -> B <> [] -> A <> B ->
  let selected := run server initial [SelectCollection A; SelectCollection B] in
  st_collection selected = B
  /\ st_pending selected = [A; B]
  /\ (forall st c, c ∈ st_pending st ->
        st_icons (step server st (FetchResolved c)) = server c
        /\ st_collection (step server st (FetchResolved c)) = st_collection st)
  /\ st_icons (run server selected [FetchResolved A; FetchResolved B])
     = server B
  /\ st_icons (run server selected [FetchResolved B; FetchResolved A])
     = server A
  /\ st_collection (run server selected [FetchResolved B; FetchResolved A])
     = B.
Proof.
  intros HA HB HAB selected.
  assert (Hsel : selected
    = setStyle (lit "all") (setPending [A; B] (setLoading true
        (setCollection B (setStyle (lit "all") (setPending [A]
           (setLoading true (setCollection A initial)))))))).
  { unfold selected. simpl.
    rewrite (change_collection_fetches A initial);
      [| simpl; congruence | exact HA | apply lookup_empty].
    rewrite change_collection_fetches;
      [reflexivity | simpl; congruence | exact HB | apply lookup_empty]. }
  assert (Hstep : forall st c, c ∈ st_pending st ->
    st_icons (step server st (FetchResolved c)) = server c
    /\ st_collection (step server st (FetchResolved c)) = st_collection st).
  { intros st c Hc. destruct (step_FetchResolved st c Hc) as (? & _ & ? & _).
    auto. }
  split; [rewrite Hsel; reflexivity |].
  split; [rewrite Hsel; reflexivity |].
  split; [exact Hstep |].
  rewrite Hsel. simpl.
  rewrite !(bool_decide_eq_true_2 (A ∈ [A; B])) by (left).
  rewrite !(bool_decide_eq_true_2 (B ∈ [A; B])) by (right; left).
  simpl.
  rewrite !(bool_decide_eq_true_2 (A = A)) by reflexivity.
  rewrite !(bool_decide_eq_false_2 (A = B)) by exact HAB.
  rewrite !(bool_decide_eq_true_2 (B = B)) by reflexivity.
  rewrite !(bool_decide_eq_true_2 (B ∈ [B])) by (left).
  rewrite !(bool_decide_eq_true_2 (A ∈ [A])) by (left).
  simpl. auto.
Qed.

End Invariant.

Section Search.
Context `{FuseSpec}.
Variable server : jsstring -> list Icon.

Lemma FUSE_OPTIONS_name (q : jsstring) (i j : Icon) :
  name i = name j ->
  Fuse_score FUSE_OPTIONS q i = Fuse_score FUSE_OPTIONS q j.
Proof.
  intros E. apply Fuse_score_keys. intros k Hk.
  apply list_elem_of_singleton in Hk as ->.
  unfold Icon_get. rewrite bool_decide_eq_true_2 by reflexivity.
  rewrite E. reflexivity.
Qed.

Lemma filtered_search (icons_ docs : list Icon) (q style_ : jsstring)
    (index : gmap jsstring (list Icon)) :
  q <> [] ->
  filtered icons_ (Some (new_Fuse docs FUSE_OPTIONS)) q style_ index
  = let hits := item <$> take 500 (ranked Fuse_score FUSE_OPTIONS q docs) in
    if bool_decide (style_ ≠ lit "all")
    then filter (λ i, style i = style_) hits else hits.
Proof.
  intros Hq. unfold filtered, Fuse_search.
  rewrite (FilterSpec.truthy_nonempty q Hq), Fuse_matches_ranked.
  reflexivity.
Qed.

(** C4. The filtered view is a three-way branch. With a query that is not
    empty, it is made of the hits of the search in the index: the icons
    of the indexed list that match the query approximately under the
    options of the program, which look at the name and at nothing
    else, best score first, at most 500 of them; of these only the
    hits of the selected style are kept when the style is not all.
    With an empty query and a style other than all it is the entry of
    the grouping for that style (empty when there is none). With an
    empty query and the style all it is the icon list itself. In every
    state of the component the index is that of the icon list, and
    there is no index only as long as there is no icon. *)
Theorem filtered_three_way (icons_ : list Icon) (q style_ : jsstring)
    (index : gmap jsstring (list Icon)) :
  (forall docs, q <> [] ->
     let hits := item <$> take 500 (ranked Fuse_score FUSE_OPTIONS q docs) in
     let result :=
       filtered icons_ (Some (new_Fuse docs FUSE_OPTIONS)) q style_ index in
     (style_ <> lit "all" -> result = filter (λ i, style i = style_) hits)
     /\ (style_ = lit "all" -> result = hits)
     /\ length hits <= 500
     /\ (forall i, i ∈ hits ->
           i ∈ docs /\ is_Some (Fuse_score FUSE_OPTIONS q i))
     /\ (length (scored Fuse_score FUSE_OPTIONS q docs) <= 500 ->
         forall i, i ∈ docs -> is_Some (Fuse_score FUSE_OPTIONS q i) ->
           i ∈ hits)
     /\ StronglySorted sortFn
          (merge_sort sortFn (scored Fuse_score FUSE_OPTIONS q docs))
     /\ (forall i j, name i = name j ->
           Fuse_score FUSE_OPTIONS q i = Fuse_score FUSE_OPTIONS q j))
  /\ (forall fuseRef, q = [] -> style_ <> lit "all" ->
      filtered icons_ fuseRef q style_ index = default [] (index !! style_))
  /\ (forall fuseRef, q = [] -> style_ = lit "all" ->
      filtered icons_ fuseRef q style_ index = icons_)
  /\ (forall evs,
        let st := run server initial evs in
        (st_fuseRef st = None -> st_icons st = [] /\ view st = [])
        /\ (st_debouncedSearch st <> [] ->
            let hits :=
              item <$> take 500 (ranked Fuse_score FUSE_OPTIONS
                                   (st_debouncedSearch st) (st_icons st)) in
            view st = if bool_decide (st_style st ≠ lit "all")
                      then filter (λ i, style i = st_style st) hits
                      else hits)).
Proof.
  split; [| split; [| split]].
  - intros docs Hq hits result. unfold result.
    rewrite (filtered_search icons_ docs q style_ index Hq). fold hits.
    split; [| split; [| split; [| split; [| split; [| split]]]]].
    + intros Hs. rewrite bool_decide_eq_true_2 by exact Hs. reflexivity.
    + intros Hs.
      rewrite bool_decide_eq_false_2 by (intros Hne; apply Hne, Hs).
      reflexivity.
    + unfold hits. rewrite length_fmap, length_take. lia.
    + intros i Hi. apply (SearchSpec.ranked_item Fuse_score).
      unfold hits in Hi. apply list_elem_of_fmap in Hi as (r & -> & Hr).
      apply list_elem_of_fmap. exists r. split; [reflexivity |].
      eapply elem_of_sublist; [exact Hr | apply sublist_take].
    + intros Hlen i Hi Hs. unfold hits. rewrite take_ge
        by (rewrite SearchSpec.length_ranked; exact Hlen).
      apply (SearchSpec.ranked_item Fuse_score). auto.
    + apply StronglySorted_merge_sort;
        [exact SearchSpec.sortFn_trans | exact SearchSpec.sortFn_total].
    + apply FUSE_OPTIONS_name.
  - intros fuseRef -> Hs. unfold filtered. simpl.
    rewrite bool_decide_eq_true_2 by exact Hs.
    destruct fuseRef; reflexivity.
  - intros fuseRef -> Hs. unfold filtered. simpl.
    rewrite bool_decide_eq_false_2 by (intros Hne; apply Hne, Hs).
    destruct fuseRef; reflexivity.
  - intros evs st.
    destruct (consistent_run server evs initial (consistent_initial))
      as [Hf _]. fold st in Hf.
    assert (Hnone : st_fuseRef st = None -> st_icons st = [] /\ view st = []).
    { intros Hn. rewrite Hn in Hf. split; [exact Hf |].
      unfold view, filtered. rewrite Hf, Hn.
      assert (Hrest : (if bool_decide (st_style st ≠ lit "all")
                       then default [] (styleIndex [] !! st_style st)
                       else []) = [] :> list Icon).
      { case_bool_decide; [| reflexivity].
        unfold styleIndex. simpl. rewrite lookup_empty. reflexivity. }
      destruct (truthy (st_debouncedSearch st)); exact Hrest. }
    split; [exact Hnone |]. intros Hq hits. unfold hits.
    destruct (st_fuseRef st) as [fuse_ |] eqn:Ef.
    + unfold view. rewrite Ef, Hf. apply filtered_search, Hq.
    + destruct (Hnone eq_refl) as [Hi Hv]. rewrite Hv, Hi.
      rewrite SearchSpec.ranked_nil. simpl.
      case_bool_decide; reflexivity.
Qed.

End Search.

Section View.
Context `{FuseContract}.
Variable server : jsstring -> list Icon.

Lemma group_sublist (L : list Icon) (k : jsstring) :
  default [] (styleIndex L !! k) `sublist_of` L.
Proof.
  rewrite StyleIndexSpec.styleIndex_lookup.
  pose proof (sublist_filter (λ i, style i = k) L) as Hsub.
  destruct (filter (λ i, style i = k) L); [apply sublist_nil_l | exact Hsub].
Qed.

Lemma hits_from_docs (data : list Icon) (q : jsstring) (limit : nat)
    (i : Icon) :
  i ∈ item <$> Fuse_search (new_Fuse data FUSE_OPTIONS) q limit -> i ∈ data.
Proof.
  intros Hi. apply list_elem_of_fmap in Hi as (r & -> & Hr).
  unfold Fuse_search in Hr. apply elem_of_take in Hr as (n & Hr & _).
  apply (Fuse_matches_docs data q). apply list_elem_of_lookup. eauto.
Qed.

(** C7, as amended. In every state the component can reach, each icon of
    the filtered view is an icon of the active icon list, and with an
    empty query the filtered view is a subsequence of that list, in
    source order. *)
Theorem view_within_icons (evs : list Event) :
  let st := run server initial evs in
  (forall i, i ∈ view st -> i ∈ st_icons st)
  /\ (st_debouncedSearch st = [] -> view st `sublist_of` st_icons st).
Proof.
  intros st.
  destruct (consistent_run server evs initial consistent_initial)
    as [Hf _]. fold st in Hf.
  unfold view, filtered. split.
  - intros i. destruct (truthy (st_debouncedSearch st)) eqn:Hq.
    + destruct (st_fuseRef st) as [fuse_ |].
      * subst fuse_. case_bool_decide.
        -- intros Hi. apply list_elem_of_filter in Hi as [_ Hi].
           eapply hits_from_docs, Hi.
        -- apply hits_from_docs.
      * rewrite Hf. case_bool_decide; [| auto].
        intros Hi. eapply elem_of_sublist; [exact Hi | apply group_sublist].
    + assert (Hrest : i ∈ (if bool_decide (st_style st ≠ lit "all")
                           then default [] (styleIndex (st_icons st) !! st_style st)
                           else st_icons st) -> i ∈ st_icons st).
      { case_bool_decide; [| auto].
        intros Hi. eapply elem_of_sublist; [exact Hi | apply group_sublist]. }
      destruct (st_fuseRef st); exact Hrest.
  - intros ->. simpl. case_bool_decide; [apply group_sublist | reflexivity].
Qed.

End View.

End ComponentSpec.

(* ================================================================== *)
(** ** The pipeline on concrete collections *)
(* ================================================================== *)

Module PipelineExamples.
Import App Fixture.

Lemma toy_score_keys (options : FuseOptions) (pattern : jsstring)
    (i j : Icon) :
  (forall k, k ∈ keys options -> Icon_get k i = Icon_get k j) ->
  toy_score options pattern i = toy_score options pattern j.
Proof.
  unfold toy_score. generalize (keys options). intros ks Hks. f_equal.
  induction ks as [| k ks IH]; [reflexivity |].
  cbn [omap list_omap]. rewrite (Hks k) by left.
  rewrite IH by (intros k' Hk'; apply Hks; right; exact Hk').
  reflexivity.
Qed.

#[export] Instance ranked_spec : FuseSpec.
Proof.
  constructor; [reflexivity | exact toy_score_keys].
Qed.

#[export] Instance ranked_contract : FuseContract.
Proof.
  constructor. intros data q r Hr. rewrite Fuse_matches_ranked in Hr.
  apply SearchSpec.ranked_elem in Hr as [Hr _].
  apply list_elem_of_lookup. eauto.
Qed.

(** C1, counterexample. The user selects a and then b while the fetch of
    a is in flight; the fetch of b resolves first and the fetch of a
    last. The selection is b, nothing is pending, and the active icon
    list is the list of a, not the list of b. *)
Lemma stale_fetch_overwrites_selection :
  let st := run two_collections initial
              [SelectCollection col_a; SelectCollection col_b;
               FetchResolved col_b; FetchResolved col_a] in
  st_collection st = col_b
  /\ st_pending st = []
  /\ st_icons st = two_collections col_a
  /\ st_icons st <> two_collections col_b.
Proof.
  vm_compute. repeat split. discriminate.
Qed.

Lemma last_resolved_fetch_wins_witness :
  col_a <> [] /\ col_b <> [] /\ col_a <> col_b
  /\ st_icons (run two_collections
       (run two_collections initial
          [SelectCollection col_a; SelectCollection col_b])
       [FetchResolved col_a; FetchResolved col_b])
     = two_collections col_b.
Proof.
  assert (Ha : col_a <> []) by discriminate.
  assert (Hb : col_b <> []) by discriminate.
  assert (Hab : col_a <> col_b) by discriminate.
  repeat (split; [assumption |]).
  exact (proj1 (proj2 (proj2 (proj2
    (ComponentSpec.last_resolved_fetch_wins two_collections col_a col_b
       Ha Hb Hab))))).
Defined.

(** C7, counterexample. The search ranks the exact match home before the
    near match hame, which comes first in the collection: the filtered
    view holds the two icons in the opposite order and is not a
    subsequence of the icon list. *)
Lemma search_view_not_subsequence :
  st_icons searching_home = hame_home
  /\ view searching_home = reverse hame_home
  /\ ~ (view searching_home `sublist_of` st_icons searching_home).
Proof.
  split; [vm_compute; reflexivity |].
  split; [vm_compute; reflexivity |].
  assert (Ev : view searching_home = reverse hame_home)
    by (vm_compute; reflexivity).
  assert (Ei : st_icons searching_home = hame_home)
    by (vm_compute; reflexivity).
  rewrite Ev, Ei. intros Hsub. vm_compute in Hsub.
  repeat match goal with
         | Hs : sublist (_ :: _) _ |- _ => inversion Hs; clear Hs; subst
         end.
Qed.

Lemma view_within_icons_witness :
  st_debouncedSearch browsing_solid = []
  /\ view browsing_solid `sublist_of` st_icons browsing_solid.
Proof.
  assert (Hq : st_debouncedSearch browsing_solid = []) by reflexivity.
  split; [exact Hq |].
  exact (proj2 (ComponentSpec.view_within_icons (λ _, hame_home)
    [ManifestLoaded [lit "c"]; FetchResolved (lit "c");
     SelectStyle (lit "solid")]) Hq).
Defined.

Lemma filtered_three_way_witness :
  lit "home" <> []
  /\ filtered hame_home (Some (new_Fuse hame_home FUSE_OPTIONS)) (lit "home")
       (lit "all") (styleIndex hame_home)
     = [mk_icon (lit "c") (lit "home") (lit "solid");
        mk_icon (lit "c") (lit "hame") (lit "solid")]
  /\ filtered hame_home (Some (new_Fuse hame_home FUSE_OPTIONS)) []
       (lit "solid") (styleIndex hame_home)
     = default [] (styleIndex hame_home !! lit "solid")
  /\ filtered hame_home (Some (new_Fuse hame_home FUSE_OPTIONS)) []
       (lit "all") (styleIndex hame_home)
     = hame_home.
Proof.
  assert (Hq : lit "home" <> []) by discriminate.
  assert (Hs : lit "solid" <> lit "all") by discriminate.
  pose proof (ComponentSpec.filtered_three_way (λ _, hame_home) hame_home
    (lit "home") (lit "all") (styleIndex hame_home)) as (Hsearch & _ & _ & _).
  pose proof (ComponentSpec.filtered_three_way (λ _, hame_home) hame_home
    [] (lit "solid") (styleIndex hame_home)) as (_ & Hstyle & _ & _).
  pose proof (ComponentSpec.filtered_three_way (λ _, hame_home) hame_home
    [] (lit "all") (styleIndex hame_home)) as (_ & _ & Hall & _).
  split; [exact Hq |]. split; [| split].
  - rewrite (proj1 (proj2 (Hsearch hame_home Hq)) eq_refl).
    vm_compute. reflexivity.
  - exact (Hstyle _ eq_refl Hs).
  - exact (Hall _ eq_refl eq_refl).
Defined.

Lemma style_all_entry_unused_witness :
  (exists i, i ∈ with_all /\ style i = lit "all")
  /\ styles with_all = [lit "all"; lit "all"; lit "solid"]
  /\ length (filter (λ s, s = lit "all") (styles with_all)) = 2.
Proof.
  assert (Hex : exists i, i ∈ with_all /\ style i = lit "all").
  { exists (mk_icon (lit "c") (lit "b") (lit "all")).
    split; [right; left | reflexivity]. }
  split; [exact Hex |]. split; [vm_compute; reflexivity |].
  exact (proj1 (FilterSpec.style_all_entry_unused with_all Hex)).
Defined.

Lemma rows_partition_witness :
  length (rows thirty_seven) = 5
  /\ length <$> rows thirty_seven = [9; 9; 9; 9; 1]
  /\ (forall k row, rows thirty_seven !! k = Some row ->
        S k < length (rows thirty_seven) -> length row = ICONS_PER_ROW).
Proof.
  split; [| split].
  - rewrite (proj1 (RowsSpec.rows_partition thirty_seven)). reflexivity.
  - vm_compute. reflexivity.
  - exact (proj1 (proj2 (RowsSpec.rows_partition thirty_seven))).
Defined.

Lemma style_index_spec_witness :
  styles with_all = [lit "all"; lit "all"; lit "solid"]
  /\ (forall k group,
        styleIndex with_all !! k = Some group <->
        group = filter (λ i, style i = k) with_all /\ group <> []).
Proof.
  split; [vm_compute; reflexivity |].
  exact (proj1 (proj2 (StyleIndexSpec.style_index_spec with_all))).
Defined.

End PipelineExamples.

(* ================================================================== *)
(** ** Facts about the string built-ins *)
(* ================================================================== *)

Module JSFacts.
Import JS.

Lemma eqb_false (a b : ascii) : a <> b -> Ascii.eqb a b = false.
Proof. apply Ascii.eqb_neq. Qed.

(** *** GetSubstitution *)

Lemma GetSubstitution_plain (matched str : jsstring) (position : nat)
    (template : jsstring) :
  dollar ∉ template ->
  GetSubstitution matched str position template = template.
Proof.
  induction template as [| c t IH]; intros Hd; [reflexivity |].
  apply not_elem_of_cons in Hd as [Hc Ht]. simpl.
  rewrite (eqb_false c dollar) by congruence.
  rewrite IH by exact Ht. reflexivity.
Qed.

(** *** startsWith *)

Lemma starts_with_app (p r : jsstring) : starts_with p (p ++ r) = true.
Proof.
  induction p as [| a p IH]; [reflexivity |].
  simpl. rewrite Ascii.eqb_refl. exact IH.
Qed.

Lemma starts_with_prefix (p s : jsstring) :
  starts_with p s = true <-> p `prefix_of` s.
Proof.
  split.
  - revert s. induction p as [| a p IH]; intros s Hs.
    + apply prefix_nil.
    + destruct s as [| b s]; [discriminate |]. simpl in Hs.
      destruct (Ascii.eqb_spec a b) as [-> | Hne]; [| discriminate].
      apply prefix_cons, IH, Hs.
  - intros [r ->]. apply starts_with_app.
Qed.

Lemma starts_with_nil (p : jsstring) : p <> [] -> starts_with p [] = false.
Proof. destruct p; [congruence | reflexivity]. Qed.

(** A pattern that does not hold the character [c] cannot reach across
    it. *)
Lemma starts_with_sep (K y : jsstring) (c : ascii) (Z : jsstring) :
  c ∉ K -> starts_with K (y ++ c :: Z) = starts_with K y.
Proof.
  revert y. induction K as [| k K IH]; intros y Hc; [reflexivity |].
  apply not_elem_of_cons in Hc as [Hk HK].
  destruct y as [| a y]; simpl.
  - rewrite (eqb_false k c) by congruence. reflexivity.
  - destruct (Ascii.eqb k a); [apply IH, HK | reflexivity].
Qed.

Lemma starts_with_long (K P X : jsstring) :
  length K <= length P -> starts_with K (P ++ X) = starts_with K P.
Proof.
  revert P. induction K as [| k K IH]; intros P Hlen; [reflexivity |].
  destruct P as [| a P]; simpl in *; [lia |].
  destruct (Ascii.eqb k a); [apply IH; lia | reflexivity].
Qed.

(** *** indexOf and includes *)

Lemma indexOf_cons (K : jsstring) (a : ascii) (s : jsstring) :
  indexOf K (a :: s)
  = if starts_with K (a :: s) then Some 0 else S <$> indexOf K s.
Proof. reflexivity. Qed.

Lemma indexOf_nil (K : jsstring) : K <> [] -> indexOf K [] = None.
Proof. intros HK. simpl. rewrite starts_with_nil by exact HK. reflexivity. Qed.

Lemma indexOf_sep (K y : jsstring) (c : ascii) (Z : jsstring) :
  K <> [] -> c ∉ K ->
  indexOf K (y ++ c :: Z)
  = match indexOf K y with
    | Some i => Some i
    | None => (λ i, length y + 1 + i) <$> indexOf K Z
    end.
Proof.
  intros HK Hc. induction y as [| a y IH].
  - rewrite indexOf_nil by exact HK. simpl app. rewrite indexOf_cons.
    pose proof (starts_with_sep K [] c Z Hc) as E. simpl app in E.
    rewrite E, starts_with_nil by exact HK.
    destruct (indexOf K Z); reflexivity.
  - rewrite <- app_comm_cons, !indexOf_cons.
    rewrite (app_comm_cons y (c :: Z) a), (starts_with_sep K (a :: y) c Z Hc).
    destruct (starts_with K (a :: y)); [reflexivity |].
    rewrite IH. destruct (indexOf K y); [reflexivity |].
    destruct (indexOf K Z); reflexivity.
Qed.

Lemma indexOf_Some_split (K s : jsstring) (i : nat) :
  indexOf K s = Some i ->
  exists pre post, s = pre ++ K ++ post /\ length pre = i.
Proof.
  revert i. induction s as [| a s IH]; intros i.
  - simpl. destruct (starts_with K []) eqn:E; [| discriminate].
    intros [= <-]. apply starts_with_prefix in E as [r Hr].
    exists [], r. split; [exact Hr | reflexivity].
  - rewrite indexOf_cons. destruct (starts_with K (a :: s)) eqn:E.
    + intros [= <-]. apply starts_with_prefix in E as [r Hr].
      exists [], r. split; [exact Hr | reflexivity].
    + destruct (indexOf K s) as [j |]; [| discriminate].
      intros [= <-]. destruct (IH j eq_refl) as (pre & post & -> & <-).
      exists (a :: pre), post. split; reflexivity.
Qed.

Lemma indexOf_occurs (K pre post : jsstring) :
  is_Some (indexOf K (pre ++ K ++ post)).
Proof.
  induction pre as [| a pre IH].
  - simpl app. destruct (K ++ post) eqn:E; simpl.
    + destruct K; [eauto | discriminate].
    + rewrite <- E, starts_with_app. eauto.
  - rewrite <- app_comm_cons, indexOf_cons.
    destruct (starts_with K _); [eauto |].
    destruct IH as [i ->]. simpl. eauto.
Qed.

Lemma includes_true (s K : jsstring) :
  includes s K = true <-> exists pre post, s = pre ++ K ++ post.
Proof.
  unfold includes. rewrite bool_decide_eq_true. split.
  - intros [i Hi]. apply indexOf_Some_split in Hi as (pre & post & ? & _).
    eauto.
  - intros (pre & post & ->). apply indexOf_occurs.
Qed.

Lemma includes_indexOf (s K : jsstring) :
  includes s K = match indexOf K s with Some _ => true | None => false end.
Proof.
  unfold includes. destruct (indexOf K s).
  - apply bool_decide_eq_true. eauto.
  - apply bool_decide_eq_false. intros [? ?]. discriminate.
Qed.

Lemma includes_false_indexOf (s K : jsstring) :
  includes s K = false -> indexOf K s = None.
Proof. rewrite includes_indexOf. destruct (indexOf K s); [discriminate | auto]. Qed.

Lemma includes_sep (K y : jsstring) (c : ascii) (Z : jsstring) :
  K <> [] -> c ∉ K ->
  includes (y ++ c :: Z) K = includes y K || includes Z K.
Proof.
  intros HK Hc. rewrite !includes_indexOf, (indexOf_sep K y c Z HK Hc).
  destruct (indexOf K y); [reflexivity |].
  destruct (indexOf K Z); reflexivity.
Qed.

(** A string none of whose characters is the first character of the
    pattern does not include the pattern. *)
Lemma includes_head_absent (s K : jsstring) (k : ascii) (K' : jsstring) :
  K = k :: K' -> k ∉ s -> includes s K = false.
Proof.
  intros -> Hk. destruct (includes s (k :: K')) eqn:E; [| reflexivity].
  apply includes_true in E as (pre & post & ->).
  exfalso. apply Hk. apply elem_of_app. right. left.
Qed.

(** The position of the first occurrence depends on the text up to the
    end of that occurrence only. *)
Lemma indexOf_ext (K a b X : jsstring) :
  indexOf K (a ++ K ++ b) = Some (length a) ->
  indexOf K (a ++ K ++ X) = Some (length a).
Proof.
  induction a as [| c a IH].
  - simpl app. intros _. destruct (K ++ X) eqn:E; simpl.
    + destruct K; [reflexivity | discriminate].
    + rewrite <- E, starts_with_app. reflexivity.
  - rewrite <- !app_comm_cons, !indexOf_cons.
    rewrite !(app_comm_cons a), !(app_assoc (c :: a) K).
    rewrite !(starts_with_long K ((c :: a) ++ K))
      by (rewrite length_app; lia).
    destruct (starts_with K ((c :: a) ++ K)); [discriminate |].
    destruct (indexOf K (a ++ K ++ b)) as [j |] eqn:E; [| discriminate].
    intros [= Hj]. subst j. rewrite IH by reflexivity. reflexivity.
Qed.

Lemma replace_string_absent (s K T : jsstring) :
  includes s K = false -> replace_string s K T = s.
Proof.
  intros Hs. unfold replace_string.
  rewrite (includes_false_indexOf s K Hs). reflexivity.
Qed.

Lemma replace_string_at (K T pre post : jsstring) :
  dollar ∉ T ->
  indexOf K (pre ++ K ++ post) = Some (length pre) ->
  replace_string (pre ++ K ++ post) K T = pre ++ T ++ post.
Proof.
  intros HT Hi. unfold replace_string. rewrite Hi.
  rewrite GetSubstitution_plain by exact HT.
  rewrite take_app_length.
  rewrite (app_assoc pre K post), <- length_app, drop_app_length.
  reflexivity.
Qed.

End JSFacts.

(* ================================================================== *)
(** ** Facts about the attribute patterns *)
(* ================================================================== *)

Module RegexFacts.
Import JS IconModal Patterns JSFacts.

Lemma replace_loop_plain (atoms : list atom) (T str str' : jsstring)
    (pos pos' k : nat) (s : jsstring) :
  dollar ∉ T ->
  replace_loop atoms T str pos k s = replace_loop atoms T str' pos' k s.
Proof.
  intros HT. revert pos pos' k. induction s as [| a s IH]; intros pos pos' k.
  - destruct k; simpl; [| reflexivity].
    destruct (match_here atoms []); [| reflexivity].
    rewrite !GetSubstitution_plain by exact HT. reflexivity.
  - destruct k as [| k]; simpl.
    + destruct (match_here atoms (a :: s)) as [n |].
      * rewrite !GetSubstitution_plain by exact HT.
        rewrite (IH (S pos) (S pos')). reflexivity.
      * rewrite (IH (S pos) (S pos')). reflexivity.
    + apply IH.
Qed.

Lemma replace_global (s : jsstring) (re : RegExp) (T : jsstring) :
  global re = true -> dollar ∉ T ->
  replace s re T = subst_all (pattern re) T s.
Proof.
  intros Hg HT. unfold replace, subst_all. rewrite Hg.
  apply replace_loop_plain, HT.
Qed.

Lemma replace_first (s : jsstring) (re : RegExp) (T : jsstring) :
  global re = false -> dollar ∉ T ->
  replace s re T = subst_first (pattern re) T s.
Proof.
  intros Hg HT. unfold replace, subst_first. rewrite Hg.
  destruct (exec (pattern re) s) as [[i n] |]; [| reflexivity].
  rewrite GetSubstitution_plain by exact HT. reflexivity.
Qed.

(** Characters inside a match are consumed without being looked at. *)
Lemma loop_skip (atoms : list atom) (T : jsstring) (k : nat) (s : jsstring) :
  dollar ∉ T -> k <= length s ->
  replace_loop atoms T [] 0 k s = subst_all atoms T (drop k s).
Proof.
  intros HT. revert s. induction k as [| k IH]; intros s Hk; [reflexivity |].
  destruct s as [| a s]; simpl in Hk; [lia |].
  simpl. rewrite (replace_loop_plain atoms T [] [] 1 0 k s HT).
  apply IH. lia.
Qed.

(** One step of the scan. *)
Lemma subst_all_miss (atoms : list atom) (T : jsstring) (a : ascii)
    (s : jsstring) :
  dollar ∉ T -> match_here atoms (a :: s) = None ->
  subst_all atoms T (a :: s) = a :: subst_all atoms T s.
Proof.
  intros HT Hm. unfold subst_all. simpl. rewrite Hm.
  rewrite (replace_loop_plain atoms T [] [] 1 0 0 s HT). reflexivity.
Qed.

Lemma subst_all_match (atoms : list atom) (T s : jsstring) (n : nat) :
  dollar ∉ T -> match_here atoms s = Some n -> 0 < n <= length s ->
  subst_all atoms T s = T ++ subst_all atoms T (drop n s).
Proof.
  intros HT Hm Hn. unfold subst_all at 1.
  destruct s as [| a s]; simpl in Hn; [lia |].
  simpl. rewrite Hm. rewrite GetSubstitution_plain by exact HT.
  destruct n as [| n]; [lia |]. simpl.
  rewrite (replace_loop_plain atoms T [] [] 1 0 n s HT).
  rewrite loop_skip by (exact HT || lia). reflexivity.
Qed.

Lemma subst_all_nil (atoms : list atom) (T : jsstring) :
  match_here atoms [] = None -> subst_all atoms T [] = [].
Proof. intros Hm. unfold subst_all. simpl. rewrite Hm. reflexivity. Qed.

Lemma exec_cons_unfold (atoms : list atom) (a : ascii) (s : jsstring) :
  exec atoms (a :: s)
  = match match_here atoms (a :: s) with
    | Some n => Some (0, n)
    | None => shift 1 (exec atoms s)
    end.
Proof. reflexivity. Qed.

Lemma exec_miss (atoms : list atom) (a : ascii) (s : jsstring) :
  match_here atoms (a :: s) = None ->
  exec atoms (a :: s) = shift 1 (exec atoms s).
Proof. intros Hm. rewrite exec_cons_unfold, Hm. reflexivity. Qed.

Lemma exec_nil_unfold (atoms : list atom) :
  exec atoms []
  = match match_here atoms [] with Some n => Some (0, n) | None => None end.
Proof. reflexivity. Qed.

Lemma shift_shift (d e : nat) (r : option (nat * nat)) :
  shift d (shift e r) = shift (d + e) r.
Proof.
  destruct r as [[i n] |]; [| reflexivity].
  unfold shift. simpl. do 2 f_equal. lia.
Qed.

Section Attr.
Variable name : jsstring.
Hypothesis name_dq : dq ∉ name.

Abbreviation atoms := (attr_pattern name).

Lemma key_dq : dq ∉ key name.
Proof.
  unfold key. rewrite elem_of_app. intros [Hn | He]; [exact (name_dq Hn) |].
  apply list_elem_of_singleton in He. discriminate.
Qed.

Lemma key_nonempty : key name <> [].
Proof. unfold key. destruct name; discriminate. Qed.

Lemma attr_pattern_key :
  atoms = [Lit (key name ++ [dq]); StarNot dq; Lit [dq]].
Proof. unfold attr_pattern, key. rewrite <- app_assoc. reflexivity. Qed.

(** The closing quote of the pattern. *)
Lemma close_quote_cons (a : ascii) (Z : jsstring) :
  match_here [Lit [dq]] (a :: Z) = if Ascii.eqb dq a then Some 1 else None.
Proof. cbn -[Ascii.eqb]. destruct (Ascii.eqb dq a); reflexivity. Qed.

Lemma close_quote_nil : match_here [Lit [dq]] [] = None.
Proof. reflexivity. Qed.

(** The greedy run stops at the first double quote; without one there
    is no match. *)
Lemma star_not_closed (v Z : jsstring) :
  dq ∉ v ->
  star_not dq (match_here [Lit [dq]]) (v ++ dq :: Z) = Some (length v + 1).
Proof.
  induction v as [| a v IH]; intros Hv.
  - cbn [app star_not]. rewrite Ascii.eqb_refl, close_quote_cons.
    rewrite Ascii.eqb_refl. reflexivity.
  - apply not_elem_of_cons in Hv as [Ha Hv].
    rewrite <- app_comm_cons. cbn [star_not].
    rewrite (eqb_false a dq) by congruence.
    rewrite IH by exact Hv. reflexivity.
Qed.

Lemma star_not_open (x : jsstring) :
  dq ∉ x -> star_not dq (match_here [Lit [dq]]) x = None.
Proof.
  induction x as [| a x IH]; intros Hx; [reflexivity |].
  apply not_elem_of_cons in Hx as [Ha Hx]. cbn [star_not].
  rewrite (eqb_false a dq) by congruence.
  rewrite IH by exact Hx. rewrite close_quote_cons.
  rewrite (eqb_false dq a) by congruence. reflexivity.
Qed.

Lemma star_not_length (x : jsstring) (m : nat) :
  star_not dq (match_here [Lit [dq]]) x = Some m -> m <= length x.
Proof.
  revert m. induction x as [| a x IH]; intros m; [discriminate |].
  cbn [star_not]. destruct (Ascii.eqb a dq).
  - rewrite close_quote_cons. destruct (Ascii.eqb dq a); [| discriminate].
    intros [= <-]. simpl. lia.
  - destruct (star_not dq (match_here [Lit [dq]]) x) as [k |].
    + intros [= <-]. specialize (IH k eq_refl). simpl. lia.
    + rewrite close_quote_cons. destruct (Ascii.eqb dq a); [| discriminate].
      intros [= <-]. simpl. lia.
Qed.

Lemma match_unfold (s : jsstring) :
  match_here atoms s
  = if starts_with (key name ++ [dq]) s
    then (λ n, length (key name ++ [dq]) + n)
           <$> star_not dq (match_here [Lit [dq]])
                 (drop (length (key name ++ [dq])) s)
    else None.
Proof. rewrite attr_pattern_key. reflexivity. Qed.

Lemma key_quote_app (X : jsstring) :
  key name ++ dq :: X = (key name ++ [dq]) ++ X.
Proof. rewrite <- app_assoc. reflexivity. Qed.

Lemma match_hit (v Z : jsstring) :
  dq ∉ v ->
  match_here atoms (key name ++ dq :: v ++ dq :: Z)
  = Some (length (key name) + length v + 2).
Proof.
  intros Hv. rewrite match_unfold, (key_quote_app (v ++ dq :: Z)).
  rewrite starts_with_app, drop_app_length.
  rewrite star_not_closed by exact Hv. simpl.
  rewrite length_app. simpl. f_equal. lia.
Qed.

Lemma match_unclosed (x : jsstring) :
  dq ∉ x -> match_here atoms (key name ++ dq :: x) = None.
Proof.
  intros Hx. rewrite match_unfold, (key_quote_app x).
  rewrite starts_with_app, drop_app_length.
  rewrite star_not_open by exact Hx. reflexivity.
Qed.

(** A piece of text without a double quote, followed by one: the
    pattern matches at its start only when the piece is the key. *)
Lemma match_piece_None (y Z : jsstring) :
  dq ∉ y -> y <> key name -> match_here atoms (y ++ dq :: Z) = None.
Proof.
  intros Hy Hne. rewrite match_unfold.
  destruct (starts_with (key name ++ [dq]) (y ++ dq :: Z)) eqn:E;
    [| reflexivity].
  exfalso. apply Hne. apply starts_with_prefix in E.
  apply prefix_not_elem_of_app_cons_inv in E as (-> & _);
    [reflexivity | exact Hy | exact key_dq].
Qed.

Lemma match_tail_None (y : jsstring) :
  dq ∉ y -> match_here atoms y = None.
Proof.
  intros Hy. rewrite match_unfold.
  destruct (starts_with (key name ++ [dq]) y) eqn:E; [| reflexivity].
  exfalso. apply Hy. apply starts_with_prefix in E as [r ->].
  rewrite <- app_assoc. apply elem_of_app. right. left.
Qed.

Lemma match_length (s : jsstring) (n : nat) :
  match_here atoms s = Some n -> 0 < n <= length s.
Proof.
  rewrite match_unfold.
  destruct (starts_with (key name ++ [dq]) s) eqn:E; [| discriminate].
  apply starts_with_prefix in E as [r ->]. rewrite drop_app_length.
  destruct (star_not dq (match_here [Lit [dq]]) r) as [m |] eqn:Em;
    [| discriminate].
  intros [= <-]. apply star_not_length in Em. rewrite !length_app. simpl. lia.
Qed.

Lemma exec_hit (s : jsstring) (n : nat) :
  match_here atoms s = Some n -> exec atoms s = Some (0, n).
Proof.
  intros Hm. destruct s;
    [rewrite exec_nil_unfold | rewrite exec_cons_unfold];
    rewrite Hm; reflexivity.
Qed.

Lemma exec_nil : exec atoms [] = None.
Proof.
  rewrite (exec_nil_unfold atoms), (match_tail_None []); [reflexivity |].
  inversion 1.
Qed.

Lemma long_piece_not_key (a : ascii) (y : jsstring) :
  (a :: y) ++ key name <> key name.
Proof.
  intros E. apply (f_equal length) in E. rewrite length_app in E.
  simpl in E. lia.
Qed.

Lemma not_suffix_not_key (y : jsstring) :
  ~ (key name `suffix_of` y) -> y <> key name.
Proof. intros Hs ->. apply Hs. reflexivity. Qed.

Lemma not_suffix_tail (a : ascii) (y : jsstring) :
  ~ (key name `suffix_of` a :: y) -> ~ (key name `suffix_of` y).
Proof. intros Hs Hy. apply Hs. apply suffix_cons_r, Hy. Qed.

(** *** The leftmost match, piece by piece *)

Lemma exec_piece_skip (y Z : jsstring) :
  dq ∉ y -> ~ (key name `suffix_of` y) ->
  exec atoms (y ++ dq :: Z) = shift (length y + 1) (exec atoms Z).
Proof.
  induction y as [| a y IH]; intros Hy Hs.
  - simpl app. rewrite exec_miss; [reflexivity |].
    apply (match_piece_None [] Z Hy). apply not_suffix_not_key, Hs.
  - rewrite <- app_comm_cons, exec_miss.
    + apply not_elem_of_cons in Hy as [_ Hy].
      rewrite IH by (exact Hy || eapply not_suffix_tail, Hs).
      rewrite shift_shift. reflexivity.
    + rewrite app_comm_cons. apply match_piece_None; [exact Hy |].
      apply not_suffix_not_key, Hs.
Qed.

Lemma exec_piece_hit (y v Z : jsstring) :
  dq ∉ y -> dq ∉ v ->
  exec atoms (y ++ key name ++ dq :: v ++ dq :: Z)
  = Some (length y, length (key name) + length v + 2).
Proof.
  intros Hy Hv. induction y as [| a y IH].
  - simpl app. apply exec_hit, match_hit, Hv.
  - rewrite <- app_comm_cons, exec_miss.
    + apply not_elem_of_cons in Hy as [_ Hy]. rewrite IH by exact Hy.
      reflexivity.
    + rewrite app_comm_cons, app_assoc.
      apply match_piece_None; [| apply long_piece_not_key].
      rewrite elem_of_app. intros [H1 | H2]; [exact (Hy H1) |].
      exact (key_dq H2).
Qed.

Lemma exec_tail (y : jsstring) : dq ∉ y -> exec atoms y = None.
Proof.
  induction y as [| a y IH]; intros Hy; [apply exec_nil |].
  rewrite exec_miss by (apply match_tail_None, Hy).
  apply not_elem_of_cons in Hy as [_ Hy]. rewrite IH by exact Hy.
  reflexivity.
Qed.

(** A key followed by a quote that is never closed is no match. *)
Lemma exec_piece_unclosed (y x : jsstring) :
  dq ∉ y -> dq ∉ x -> exec atoms (y ++ dq :: x) = None.
Proof.
  intros Hy Hx. induction y as [| a y IH].
  - simpl app. rewrite exec_miss.
    + rewrite exec_tail by exact Hx. reflexivity.
    + apply (match_piece_None [] x Hy). intros E. symmetry in E.
      exact (key_nonempty E).
  - rewrite <- app_comm_cons, exec_miss.
    + apply not_elem_of_cons in Hy as [_ Hy]. rewrite IH by exact Hy.
      reflexivity.
    + rewrite app_comm_cons.
      destruct (decide (a :: y = key name)) as [E | Hne].
      * rewrite E. apply match_unclosed, Hx.
      * apply match_piece_None; assumption.
Qed.

(** *** Replacing the leftmost match, piece by piece *)

Lemma subst_first_shift (T P Z : jsstring) :
  exec atoms (P ++ Z) = shift (length P) (exec atoms Z) ->
  subst_first atoms T (P ++ Z) = P ++ subst_first atoms T Z.
Proof.
  intros E. unfold subst_first. rewrite E.
  destruct (exec atoms Z) as [[i n] |]; [| reflexivity].
  simpl. rewrite take_app_add, <- Nat.add_assoc, drop_app_add.
  rewrite <- app_assoc. reflexivity.
Qed.

Lemma subst_first_skip (T y Z : jsstring) :
  dq ∉ y -> ~ (key name `suffix_of` y) ->
  subst_first atoms T (y ++ dq :: Z) = y ++ dq :: subst_first atoms T Z.
Proof.
  intros Hy Hs. rewrite (cons_middle dq y Z), app_assoc.
  rewrite subst_first_shift.
  - rewrite <- app_assoc. reflexivity.
  - rewrite <- app_assoc, length_app. apply exec_piece_skip; assumption.
Qed.

Lemma subst_first_hit (T y v Z : jsstring) :
  dq ∉ y -> dq ∉ v ->
  subst_first atoms T (y ++ key name ++ dq :: v ++ dq :: Z) = y ++ T ++ Z.
Proof.
  intros Hy Hv. unfold subst_first. rewrite exec_piece_hit by assumption.
  rewrite take_app_length. f_equal. f_equal.
  rewrite drop_app_add.
  replace (length (key name) + length v + 2)
    with (length (key name ++ dq :: v ++ [dq]))
    by (rewrite length_app; simpl; rewrite length_app; simpl; lia).
  replace (key name ++ dq :: v ++ dq :: Z)
    with ((key name ++ dq :: v ++ [dq]) ++ Z)
    by (rewrite <- !app_assoc; simpl; rewrite <- app_assoc; reflexivity).
  apply drop_app_length.
Qed.

Lemma subst_first_tail (T y : jsstring) :
  dq ∉ y -> subst_first atoms T y = y.
Proof. intros Hy. unfold subst_first. rewrite exec_tail by exact Hy. reflexivity. Qed.

(** *** Replacing every match, piece by piece *)

Lemma subst_all_skip (T y Z : jsstring) :
  dollar ∉ T -> dq ∉ y -> ~ (key name `suffix_of` y) ->
  subst_all atoms T (y ++ dq :: Z) = y ++ dq :: subst_all atoms T Z.
Proof.
  intros HT. induction y as [| a y IH]; intros Hy Hs.
  - simpl app. apply subst_all_miss; [exact HT |].
    apply (match_piece_None [] Z Hy). apply not_suffix_not_key, Hs.
  - rewrite <- !app_comm_cons, subst_all_miss.
    + apply not_elem_of_cons in Hy as [_ Hy].
      rewrite IH by (exact Hy || eapply not_suffix_tail, Hs). reflexivity.
    + exact HT.
    + rewrite app_comm_cons. apply match_piece_None; [exact Hy |].
      apply not_suffix_not_key, Hs.
Qed.

Lemma subst_all_hit (T y v Z : jsstring) :
  dollar ∉ T -> dq ∉ y -> dq ∉ v ->
  subst_all atoms T (y ++ key name ++ dq :: v ++ dq :: Z)
  = y ++ T ++ subst_all atoms T Z.
Proof.
  intros HT Hy Hv. induction y as [| a y IH].
  - simpl app.
    rewrite (subst_all_match atoms T _ (length (key name) + length v + 2));
      [| exact HT | apply match_hit, Hv |].
    + f_equal. f_equal.
      replace (length (key name) + length v + 2)
        with (length (key name ++ dq :: v ++ [dq]))
        by (rewrite length_app; simpl; rewrite length_app; simpl; lia).
      replace (key name ++ dq :: v ++ dq :: Z)
        with ((key name ++ dq :: v ++ [dq]) ++ Z)
        by (rewrite <- !app_assoc; simpl; rewrite <- app_assoc; reflexivity).
      apply drop_app_length.
    + rewrite length_app. simpl. rewrite length_app. simpl. lia.
  - rewrite <- !app_comm_cons, subst_all_miss.
    + apply not_elem_of_cons in Hy as [_ Hy]. rewrite IH by exact Hy.
      reflexivity.
    + exact HT.
    + rewrite app_comm_cons, app_assoc.
      apply match_piece_None; [| apply long_piece_not_key].
      rewrite elem_of_app. intros [H1 | H2]; [exact (Hy H1) |].
      exact (key_dq H2).
Qed.

Lemma subst_all_tail (T y : jsstring) :
  dollar ∉ T -> dq ∉ y -> subst_all atoms T y = y.
Proof.
  intros HT. induction y as [| a y IH]; intros Hy.
  - apply subst_all_nil, match_tail_None, Hy.
  - rewrite subst_all_miss by (exact HT || apply match_tail_None, Hy).
    apply not_elem_of_cons in Hy as [_ Hy]. rewrite IH by exact Hy.
    reflexivity.
Qed.

(** *** What a match looks like *)

Lemma match_inv (s : jsstring) (n : nat) :
  match_here atoms s = Some n ->
  exists v rest,
    s = key name ++ dq :: v ++ dq :: rest /\ (dq ∉ v)
    /\ n = length (key name) + length v + 2.
Proof.
  intros Hm. pose proof Hm as Hm'. rewrite match_unfold in Hm'.
  destruct (starts_with (key name ++ [dq]) s) eqn:E; [| discriminate].
  apply starts_with_prefix in E as [r ->].
  destruct (decide (dq ∈ r)) as [Hin | Hout].
  - apply list_elem_of_split_l in Hin as (v & rest & -> & Hv).
    exists v, rest. rewrite <- key_quote_app in Hm |- *.
    rewrite match_hit in Hm by exact Hv. injection Hm as <-. auto.
  - rewrite <- key_quote_app, match_unclosed in Hm by exact Hout.
    discriminate.
Qed.

Lemma exec_inv (s : jsstring) (i n : nat) :
  exec atoms s = Some (i, n) ->
  exists pre v post,
    s = pre ++ key name ++ dq :: v ++ dq :: post /\ length pre = i
    /\ (dq ∉ v) /\ n = length (key name) + length v + 2.
Proof.
  revert i. induction s as [| a s IH]; intros i.
  - rewrite exec_nil. discriminate.
  - rewrite exec_cons_unfold.
    destruct (match_here atoms (a :: s)) as [m |] eqn:Hm.
    + intros [= <- <-]. apply match_inv in Hm as (v & rest & E & Hv & Hn).
      exists [], v, rest. auto.
    + destruct (exec atoms s) as [[j m] |]; [| discriminate].
      intros [= <- <-].
      destruct (IH j eq_refl) as (pre & v & post & -> & <- & Hv & Hn).
      exists (a :: pre), v, post. auto.
Qed.

Lemma subst_first_inv (T s : jsstring) (i n : nat) :
  exec atoms s = Some (i, n) ->
  exists pre v post,
    s = pre ++ key name ++ dq :: v ++ dq :: post /\ length pre = i
    /\ (dq ∉ v) /\ n = length (key name) + length v + 2
    /\ subst_first atoms T s = pre ++ T ++ post.
Proof.
  intros He. destruct (exec_inv s i n He) as (pre & v & post & E & Hi & Hv & Hn).
  exists pre, v, post. repeat (split; [assumption |]).
  unfold subst_first. rewrite He. subst s i.
  rewrite take_app_length. do 2 f_equal.
  rewrite drop_app_add. subst n.
  replace (length (key name) + length v + 2)
    with (length (key name ++ dq :: v ++ [dq]))
    by (rewrite length_app; simpl; rewrite length_app; simpl; lia).
  replace (key name ++ dq :: v ++ dq :: post)
    with ((key name ++ dq :: v ++ [dq]) ++ post)
    by (rewrite <- !app_assoc; simpl; rewrite <- app_assoc; reflexivity).
  apply drop_app_length.
Qed.

(** *** Whether there is a match, piece by piece *)

Lemma has_piece (y Z : jsstring) :
  dq ∉ y ->
  is_Some (exec atoms (y ++ dq :: Z))
  <-> ((key name `suffix_of` y) /\ dq ∈ Z) \/ is_Some (exec atoms Z).
Proof.
  intros Hy. destruct (decide (key name `suffix_of` y)) as [[y' ->] | Hs].
  - apply not_elem_of_app in Hy as [Hy' _].
    destruct (decide (dq ∈ Z)) as [Hin | Hout].
    + apply list_elem_of_split_l in Hin as (v & Z' & -> & Hv).
      rewrite <- app_assoc, exec_piece_hit by assumption.
      split; [intros _ | eauto]. left. split.
      * apply suffix_app_r. reflexivity.
      * apply elem_of_app. right. left.
    + rewrite exec_piece_unclosed, (exec_tail Z) by
        (assumption || (apply not_elem_of_app; split;
                        [assumption | apply key_dq])).
      split; [intros [? ?]; discriminate |].
      intros [[_ Hin] | [? ?]]; [contradiction | discriminate].
  - rewrite exec_piece_skip by assumption.
    destruct (exec atoms Z) as [[i n] |]; simpl.
    + split; eauto.
    + split; [intros [? ?]; discriminate |].
      intros [[Hs' _] | [? ?]]; [contradiction | discriminate].
Qed.


(** *** The leftmost match *)

(** An occurrence of the attribute is matched, there or further to the
    left. *)
Lemma exec_leftmost (pre v post : jsstring) :
  dq ∉ v ->
  exists i n,
    exec atoms (pre ++ key name ++ dq :: v ++ dq :: post) = Some (i, n)
    /\ i <= length pre.
Proof.
  intros Hv. induction pre as [| a pre IH].
  - exists 0, (length (key name) + length v + 2).
    split; [apply exec_hit, match_hit, Hv | reflexivity].
  - destruct IH as (i & n & He & Hi).
    rewrite <- app_comm_cons, exec_cons_unfold.
    destruct (match_here atoms _) as [k |].
    + exists 0, k. split; [reflexivity | lia].
    + exists (S i), n. rewrite He. split; [reflexivity | simpl; lia].
Qed.



End Attr.

(** *** The decimal digits of a size *)

Lemma uint_digits (d : Decimal.uint) (a : ascii) :
  a ∈ lit (NilEmpty.string_of_uint d) -> a ∈ digits.
Proof.
  induction d; simpl; intros Ha;
    try (apply elem_of_cons in Ha as [-> | Ha]; [compute_done | auto]).
  inversion Ha.
Qed.

Lemma Number_toString_digits (n : N) (a : ascii) :
  a ∈ Number_toString n -> a ∈ digits.
Proof. apply uint_digits. Qed.

Lemma Number_toString_without (n : N) (c : ascii) :
  c ∉ digits -> c ∉ Number_toString n.
Proof. intros Hc Hin. apply Hc, (Number_toString_digits n), Hin. Qed.


End RegexFacts.

(* ================================================================== *)
(** ** Properties of the SVG attribute transformer *)
(* ================================================================== *)

Module IconModalSpec.
Import JS IconModal Patterns JSFacts RegexFacts.

Lemma fill_dq : dq ∉ lit "fill".
Proof. compute_done. Qed.

Lemma width_dq : dq ∉ lit "width".
Proof. compute_done. Qed.

Lemma height_dq : dq ∉ lit "height".
Proof. compute_done. Qed.

Lemma fill_attr_plain (color : jsstring) :
  dollar ∉ color -> dollar ∉ fill_attr color.
Proof.
  intros Hc. unfold fill_attr. rewrite !not_elem_of_app.
  repeat split; (compute_done || exact Hc).
Qed.

Lemma size_attr_plain (name : jsstring) (size : N) :
  dollar ∉ name ->
  dollar ∉ name ++ lit "=" ++ [dq] ++ Number_toString size ++ [dq].
Proof.
  intros Hn. rewrite !not_elem_of_app.
  repeat split; try compute_done; [exact Hn |].
  apply Number_toString_without. compute_done.
Qed.

Lemma subst_all_Replaced (name T : jsstring) :
  dq ∉ name -> dollar ∉ T ->
  forall s, Replaced name T s (subst_all (attr_pattern name) T s).
Proof.
  intros Hname HT s. remember (length s) as len eqn:Hlen.
  revert s Hlen. induction len as [len IH] using lt_wf_ind. intros s Hlen.
  destruct (match_here (attr_pattern name) s) as [n |] eqn:Hm.
  - pose proof (match_length name s n Hm) as Hn.
    rewrite (subst_all_match _ T s n HT Hm Hn).
    apply (match_inv name) in Hm as (v & rest & -> & Hv & ->).
    replace (drop _ _) with rest.
    + apply Replaced_attr; [exact Hv |].
      apply (IH (length rest)); [| reflexivity].
      subst len. rewrite length_app. simpl. rewrite length_app. simpl. lia.
    + replace (length (key name) + length v + 2)
        with (length (key name ++ dq :: v ++ [dq]))
        by (rewrite length_app; simpl; rewrite length_app; simpl; lia).
      replace (key name ++ dq :: v ++ dq :: rest)
        with ((key name ++ dq :: v ++ [dq]) ++ rest)
        by (rewrite <- !app_assoc; simpl; rewrite <- app_assoc; reflexivity).
      symmetry. apply drop_app_length.
  - destruct s as [| a s].
    + rewrite subst_all_nil by exact Hm. constructor.
    + rewrite subst_all_miss by assumption.
      apply Replaced_char.
      * intros v rest Hv E. rewrite E, (match_hit name) in Hm by exact Hv.
        discriminate.
      * apply (IH (length s)); [subst len; simpl; lia | reflexivity].
Qed.

(** C2, as amended. For a colour without a dollar sign: when the markup
    contains the text fill= every occurrence of a fill attribute with a
    double-quoted value is replaced by the attribute with the requested
    colour, and nothing is injected, whether or not there is such an
    occurrence; when the markup does not contain fill= the attribute is
    inserted right after the first occurrence of the text <svg and
    nowhere else, and a markup without <svg is left as it is. *)
Theorem handle_fill_spec (m color : jsstring) :
  dollar ∉ color ->
  (includes m (lit "fill=") = true ->
     Replaced (lit "fill") (fill_attr color) m (handle_fill m color))
  /\ (includes m (lit "fill=") = false ->
      match indexOf (lit "<svg") m with
      | Some i =>
        exists pre post,
          m = pre ++ lit "<svg" ++ post /\ length pre = i
          /\ handle_fill m color
             = pre ++ lit "<svg" ++ lit " " ++ fill_attr color ++ post
      | None => handle_fill m color = m
      end).
Proof.
  intros Hc. unfold handle_fill. split; intros Hf; rewrite Hf.
  - rewrite replace_global;
      [| reflexivity | apply fill_attr_plain, Hc].
    apply (subst_all_Replaced (lit "fill") (fill_attr color) fill_dq).
    apply fill_attr_plain, Hc.
  - destruct (indexOf (lit "<svg") m) as [i |] eqn:Hi.
    + destruct (indexOf_Some_split _ _ _ Hi) as (pre & post & -> & <-).
      exists pre, post. split; [reflexivity |]. split; [reflexivity |].
      rewrite replace_string_at; [reflexivity | | exact Hi].
      rewrite not_elem_of_app. split; [compute_done |].
      apply fill_attr_plain, Hc.
    + unfold replace_string. rewrite Hi. reflexivity.
Qed.

Lemma test_true (re : RegExp) (s : jsstring) :
  test re s = true <-> is_Some (exec (pattern re) s).
Proof. unfold test. apply bool_decide_eq_true. Qed.

Lemma test_false (re : RegExp) (s : jsstring) :
  test re s = false <-> exec (pattern re) s = None.
Proof.
  unfold test. rewrite bool_decide_eq_false.
  destruct (exec (pattern re) s); split; intros Hx;
    try reflexivity; try discriminate; [exfalso; eauto |].
  intros [? ?]; discriminate.
Qed.


(** An attribute occurs where the pattern matches. *)
Lemma test_Occurs (re : RegExp) (name s : jsstring) :
  pattern re = attr_pattern name ->
  test re s = true <-> Occurs name s.
Proof.
  intros Hre. rewrite test_true, Hre. split.
  - intros [[i n] He].
    destruct (exec_inv name s i n He) as (pre & v & post & E & _ & Hv & _).
    exists pre, v, post. auto.
  - intros (pre & v & post & Hv & ->).
    destruct (exec_leftmost name pre v post Hv) as (i & n & He & _).
    rewrite He. eauto.
Qed.

Lemma test_not_Occurs (re : RegExp) (name s : jsstring) :
  pattern re = attr_pattern name ->
  test re s = false <-> ~ Occurs name s.
Proof.
  intros Hre. rewrite <- (test_Occurs re name s Hre).
  destruct (test re s); split; try discriminate; try reflexivity; auto.
  intros H. exfalso. auto.
Qed.

(** The replacement of a pattern without the global flag replaces the
    leftmost occurrence. *)
Lemma subst_first_Replaced_first (name T s : jsstring) :
  Replaced_first name T s (subst_first (attr_pattern name) T s).
Proof.
  destruct (exec (attr_pattern name) s) as [[i n] |] eqn:He.
  - destruct (subst_first_inv name T s i n He)
      as (pre & v & post & Es & Hi & Hv & Hn & ->).
    subst s. apply Replaced_first_attr; [exact Hv |].
    intros pre' v' post' Hv' E.
    destruct (exec_leftmost name pre' v' post' Hv') as (i' & n' & He' & Hle).
    rewrite <- E, He in He'. injection He' as <- <-. lia.
  - unfold subst_first. rewrite He. apply Replaced_first_none.
    intros (pre & v & post & Hv & ->).
    destruct (exec_leftmost name pre v post Hv) as (i & n & He' & _).
    rewrite He in He'. discriminate.
Qed.

(** A text that does not occur in a string occurs in none of its
    parts. *)
Lemma includes_parts (a b K : jsstring) :
  includes (a ++ b) K = false ->
  includes a K = false /\ includes b K = false.
Proof.
  intros H. split.
  - destruct (includes a K) eqn:E; [| reflexivity].
    apply includes_true in E as (p & q & ->). rewrite <- H. symmetry.
    apply includes_true. exists p, (q ++ b). rewrite <- !app_assoc.
    reflexivity.
  - destruct (includes b K) eqn:E; [| reflexivity].
    apply includes_true in E as (p & q & ->). rewrite <- H. symmetry.
    apply includes_true. exists (a ++ p), q. rewrite <- !app_assoc.
    reflexivity.
Qed.

(** *** Texts that a replacement does not bring in

    A text [K] without a double quote that occurs neither in the markup
    nor in the new value does not occur after the replacement of the
    values of an attribute. *)
Section Absent.
Variables name K c : jsstring.
Hypothesis name_dq : dq ∉ name.
Hypothesis K_nonempty : K <> [].
Hypothesis K_dq : dq ∉ K.
Hypothesis c_K : includes c K = false.

Lemma subst_all_none (T s : jsstring) :
  dollar ∉ T -> exec (attr_pattern name) s = None ->
  subst_all (attr_pattern name) T s = s.
Proof.
  intros HT. induction s as [| a s IH]; intros He.
  - apply subst_all_nil. rewrite exec_nil_unfold in He.
    destruct (match_here _ []); [discriminate | reflexivity].
  - rewrite exec_cons_unfold in He.
    destruct (match_here (attr_pattern name) (a :: s)) eqn:Hm;
      [discriminate |].
    rewrite subst_all_miss by assumption. f_equal. apply IH.
    destruct (exec (attr_pattern name) s); [discriminate | reflexivity].
Qed.

Lemma attr_parts (y X : jsstring) :
  includes y K = false -> includes X K = false ->
  includes (y ++ dq :: c ++ dq :: X) K = false.
Proof.
  intros Hy HX. rewrite includes_sep, Hy, includes_sep, c_K, HX by assumption.
  reflexivity.
Qed.

Lemma includes_subst_all (s : jsstring) :
  dollar ∉ key name ++ dq :: c ++ [dq] ->
  includes s K = false ->
  includes (subst_all (attr_pattern name) (key name ++ dq :: c ++ [dq]) s) K
  = false.
Proof.
  intros HT. remember (length s) as len eqn:Hlen. revert s Hlen.
  induction len as [len IH] using lt_wf_ind. intros s Hlen Hs.
  destruct (decide (dq ∈ s)) as [Hin | Hout];
    [| rewrite subst_all_tail by assumption; exact Hs].
  apply list_elem_of_split_l in Hin as (y & Z & -> & Hy).
  pose proof Hs as Hs'. rewrite includes_sep in Hs' by assumption.
  apply orb_false_iff in Hs' as [HyK HZK].
  destruct (decide (key name `suffix_of` y)) as [[y' ->] | Hsuf].
  - apply not_elem_of_app in Hy as [Hy' Hkey].
    destruct (decide (dq ∈ Z)) as [Hin | Hout].
    + apply list_elem_of_split_l in Hin as (v & Z' & -> & Hv).
      rewrite includes_sep in HZK by assumption.
      apply orb_false_iff in HZK as [_ HZ'K].
      rewrite <- app_assoc, (subst_all_hit name name_dq) by assumption.
      rewrite <- !app_assoc, <- app_comm_cons, <- app_assoc. simpl app.
      rewrite app_assoc. apply attr_parts; [exact HyK |].
      apply (IH (length Z')); [| reflexivity | exact HZ'K].
      subst len. rewrite !length_app. simpl. rewrite length_app. simpl. lia.
    + rewrite subst_all_none; [exact Hs | exact HT |].
      apply (exec_piece_unclosed name name_dq); [| exact Hout].
      apply not_elem_of_app. split; assumption.
  - rewrite (subst_all_skip name name_dq) by assumption.
    rewrite includes_sep, HyK by assumption. simpl.
    apply (IH (length Z)); [| reflexivity | exact HZK].
    subst len. rewrite length_app. simpl. lia.
Qed.

Lemma includes_subst_first (s : jsstring) :
  includes s K = false ->
  includes (subst_first (attr_pattern name) (key name ++ dq :: c ++ [dq]) s) K
  = false.
Proof.
  intros Hs. destruct (exec (attr_pattern name) s) as [[i n] |] eqn:He.
  - destruct (subst_first_inv name (key name ++ dq :: c ++ [dq]) s i n He)
      as (pre & v & post & -> & _ & Hv & _ & ->).
    rewrite app_assoc in Hs.
    rewrite includes_sep, includes_sep in Hs by assumption.
    apply orb_false_iff in Hs as [HyK Hs].
    apply orb_false_iff in Hs as [_ HpK].
    rewrite <- !app_assoc, <- app_comm_cons, <- app_assoc. simpl app.
    rewrite app_assoc. apply attr_parts; assumption.
  - unfold subst_first. rewrite He. exact Hs.
Qed.

End Absent.

(** The fill step brings in no text that holds neither a double quote
    nor a space and that occurs neither in the colour nor in the name of
    the attribute. *)
Lemma includes_handle_fill (K s color : jsstring) :
  K <> [] -> dq ∉ K -> " "%char ∉ K ->
  includes (lit "fill=") K = false ->
  dollar ∉ color -> includes color K = false ->
  includes s K = false ->
  includes (handle_fill s color) K = false.
Proof.
  intros HK Hdq Hsp Hfill Hd Hc Hs. unfold handle_fill.
  destruct (includes s (lit "fill=")).
  - rewrite replace_global; [| reflexivity | apply fill_attr_plain, Hd].
    apply (includes_subst_all (lit "fill") K color fill_dq HK Hdq Hc);
      [apply fill_attr_plain, Hd | exact Hs].
  - destruct (indexOf (lit "<svg") s) as [i |] eqn:Hi;
      [| unfold replace_string; rewrite Hi; exact Hs].
    destruct (indexOf_Some_split _ _ _ Hi) as (pre & post & -> & <-).
    rewrite replace_string_at; [| | exact Hi].
    + rewrite app_assoc in Hs. apply includes_parts in Hs as [Hpre Hpost].
      replace (pre ++ (lit "<svg " ++ fill_attr color) ++ post)
        with ((pre ++ lit "<svg") ++ " "%char
                :: lit "fill=" ++ dq :: color ++ dq :: post)
        by (unfold fill_attr; rewrite <- !app_assoc; reflexivity).
      rewrite includes_sep, Hpre by assumption. cbn [orb].
      apply (attr_parts K color HK Hdq Hc (lit "fill=") post); assumption.
    + rewrite not_elem_of_app. split; [compute_done |].
      apply fill_attr_plain, Hd.
Qed.

(** C9, as amended. On a markup without the text <svg, and for a colour
    without a dollar sign and without the text <svg, the transform
    raises no error and returns a string in which the text <svg does not
    occur either: no attribute is injected. The fill step replaces every
    occurrence of a fill attribute in a markup that contains the text
    fill= and leaves any other markup as it is; the dimension step then
    replaces the leftmost occurrence of a width attribute, if there is
    one, and, when the markup it was given has an occurrence of a height
    attribute, the leftmost occurrence of a height attribute that is
    left, if there is one. A markup with no fill=, no width attribute
    and no height attribute is returned as it is. *)
Theorem no_root_tag (m color : jsstring) (size : N) :
  includes m (lit "<svg") = false ->
  dollar ∉ color ->
  includes color (lit "<svg") = false ->
  exists s s1,
    handle_fill m color = s
    /\ (includes m (lit "fill=") = true ->
        Replaced (lit "fill") (fill_attr color) m s)
    /\ (includes m (lit "fill=") = false -> s = m)
    /\ Replaced_first (lit "width") (width_attr size) s s1
    /\ (Occurs (lit "height") s ->
        Replaced_first (lit "height") (height_attr size) s1
          (svg m color size))
    /\ (~ Occurs (lit "height") s -> svg m color size = s1)
    /\ includes (svg m color size) (lit "<svg") = false
    /\ (includes m (lit "fill=") = false ->
        ~ Occurs (lit "width") m -> ~ Occurs (lit "height") m ->
        svg m color size = m).
Proof.
  intros Hsvg Hd Hc.
  assert (Hfill : includes m (lit "fill=") = false -> handle_fill m color = m).
  { intros Hf. unfold handle_fill. rewrite Hf.
    apply replace_string_absent, Hsvg. }
  assert (Hs : includes (handle_fill m color) (lit "<svg") = false).
  { apply includes_handle_fill;
      solve [ discriminate | compute_done | reflexivity | assumption ]. }
  assert (HWp : dollar ∉ width_attr size)
    by (apply (size_attr_plain (lit "width")); compute_done).
  assert (HHp : dollar ∉ height_attr size)
    by (apply (size_attr_plain (lit "height")); compute_done).
  assert (Hsize : includes (Number_toString size) (lit "<svg") = false).
  { apply (includes_head_absent _ _ "<"%char (lit "svg")); [reflexivity |].
    apply Number_toString_without. compute_done. }
  set (s := handle_fill m color) in *.
  set (s1 := subst_first (pattern WIDTH_REGEX) (width_attr size) s).
  assert (Hdim : svg m color size
                 = if test HEIGHT_REGEX s
                   then subst_first (pattern HEIGHT_REGEX) (height_attr size) s1
                   else s1).
  { unfold svg. fold s. unfold handle_dimensions, s1.
    destruct (test WIDTH_REGEX s) eqn:HW, (test HEIGHT_REGEX s) eqn:HH;
      cbn [negb andb].
    - rewrite !replace_first by (reflexivity || assumption). reflexivity.
    - rewrite replace_first by (reflexivity || assumption). reflexivity.
    - apply test_false in HW. unfold subst_first at 2. rewrite HW.
      rewrite replace_first by (reflexivity || assumption). reflexivity.
    - apply test_false in HW. unfold subst_first. rewrite HW.
      apply replace_string_absent, Hs. }
  exists s, s1. split; [reflexivity |].
  split.
  { intros Hf. unfold s, handle_fill. rewrite Hf.
    rewrite replace_global; [| reflexivity | apply fill_attr_plain, Hd].
    apply (subst_all_Replaced (lit "fill") (fill_attr color) fill_dq).
    apply fill_attr_plain, Hd. }
  split; [exact Hfill |].
  split; [apply (subst_first_Replaced_first (lit "width")) |].
  split.
  { intros Ho. apply (test_Occurs HEIGHT_REGEX) in Ho; [| reflexivity].
    rewrite Hdim, Ho. apply (subst_first_Replaced_first (lit "height")). }
  split.
  { intros Ho. apply (test_not_Occurs HEIGHT_REGEX) in Ho; [| reflexivity].
    rewrite Hdim, Ho. reflexivity. }
  assert (Hs1 : includes s1 (lit "<svg") = false).
  { apply (includes_subst_first (lit "width") (lit "<svg")
             (Number_toString size));
      solve [ discriminate | compute_done | assumption ]. }
  split.
  { rewrite Hdim. destruct (test HEIGHT_REGEX s); [| exact Hs1].
    apply (includes_subst_first (lit "height") (lit "<svg")
             (Number_toString size));
      solve [ discriminate | compute_done | assumption ]. }
  intros Hf HW HH.
  apply (test_not_Occurs WIDTH_REGEX) in HW; [| reflexivity].
  apply (test_not_Occurs HEIGHT_REGEX) in HH; [| reflexivity].
  unfold svg. fold s. rewrite (Hfill Hf). unfold handle_dimensions.
  rewrite HW, HH. cbn [negb andb]. apply replace_string_absent, Hsvg.
Qed.

End IconModalSpec.

(* ================================================================== *)
(** ** Facts about markup read along its double quotes *)
(* ================================================================== *)

Module MarkupFacts.
Import JS IconModal Patterns JSFacts RegexFacts Markup.

(** Equal up to the association of appends. *)
Ltac app_eq :=
  repeat (rewrite <- ?app_assoc; cbn [app]); reflexivity.

(** *** Reading a string into segments *)

Lemma pieces_nonempty (s : jsstring) : pieces s <> [].
Proof.
  destruct s as [| a s]; simpl; [discriminate |].
  destruct (Ascii.eqb a dq); [discriminate |].
  destruct (pieces s); discriminate.
Qed.

Lemma join_pieces (s : jsstring) : join (pieces s) = s.
Proof.
  induction s as [| a s IH]; [reflexivity |].
  cbn [pieces]. destruct (Ascii.eqb_spec a dq) as [-> | Hne].
  - cbn [join]. pose proof (pieces_nonempty s) as Hp.
    destruct (pieces s) as [| p ps]; [congruence |].
    rewrite IH. reflexivity.
  - pose proof (pieces_nonempty s) as Hp.
    destruct (pieces s) as [| p ps]; [congruence |].
    cbn [join] in *. destruct ps; rewrite <- IH; reflexivity.
Qed.

Lemma pieces_quote_free (s : jsstring) : Forall (λ p, dq ∉ p) (pieces s).
Proof.
  induction s as [| a s IH]; cbn [pieces].
  - constructor; [inversion 1 | constructor].
  - destruct (Ascii.eqb_spec a dq) as [-> | Hne].
    + constructor; [inversion 1 | exact IH].
    + destruct (pieces s) as [| p ps]; [repeat constructor |].
      * intros Hin. apply list_elem_of_singleton in Hin. congruence.
      * inversion IH as [| ? ? Hp Hps]; subst. constructor; [| exact Hps].
        intros Hin. apply elem_of_cons in Hin as [E | Hin]; [congruence | auto].
Qed.

Lemma pair_up_render (ps : list jsstring) :
  forall segs t,
    pair_up ps = Some (segs, t) ->
    Forall (λ p, dq ∉ p) ps ->
    join ps = render segs t
    /\ Forall (λ uv, (dq ∉ uv.1) /\ (dq ∉ uv.2)) segs /\ (dq ∉ t).
Proof.
  remember (length ps) as len eqn:Hlen. revert ps Hlen.
  induction len as [len IH] using lt_wf_ind. intros ps Hlen segs t Hp Hq.
  destruct ps as [| u [| v ps]]; [discriminate | |].
  - injection Hp as <- <-. inversion Hq; subst. auto.
  - cbn [pair_up] in Hp.
    destruct (pair_up ps) as [[segs' t'] |] eqn:Hps; [| discriminate].
    injection Hp as <- <-.
    inversion Hq as [| ? ? Hu Hq']; subst.
    inversion Hq' as [| ? ? Hv Hq'']; subst.
    destruct (IH (length ps)) with (ps := ps) (segs := segs') (t := t')
      as (Ej & Hsegs & Ht); [simpl; lia | reflexivity | exact Hps | exact Hq'' |].
    assert (Hne : ps <> []) by (intros ->; discriminate).
    split; [| split; [constructor; [split; assumption | exact Hsegs] | exact Ht]].
    cbn [join render]. destruct ps as [| p ps]; [congruence |].
    cbn [join] in Ej |- *. rewrite <- Ej. reflexivity.
Qed.

Lemma well_quoted_render (m : jsstring) :
  well_quoted m = true ->
  exists st, m = render st.1 st.2 /\ wf st.
Proof.
  unfold well_quoted, parse. intros Hw.
  destruct (pair_up (pieces m)) as [[segs t] |] eqn:Hp; [| discriminate].
  destruct (pair_up_render (pieces m) segs t Hp (pieces_quote_free m))
    as (Ej & Hq & Ht).
  exists (segs, t). split; [simpl; rewrite <- Ej; symmetry; apply join_pieces |].
  split; [| exact Ht]. simpl.
  apply Forall_forall. intros uv Hin.
  rewrite Forall_forall in Hq. destruct (Hq uv Hin) as [Hu Hv].
  split; [exact Hu |]. split; [exact Hv |].
  rewrite forallb_forall in Hw. apply Hw, list_elem_of_In, Hin.
Qed.

Lemma render_app (A B : list (jsstring * jsstring)) (Z : jsstring) :
  render (A ++ B) Z = render A (render B Z).
Proof.
  induction A as [| [u v] A IH]; [reflexivity |].
  simpl. rewrite IH. reflexivity.
Qed.

Lemma render_tail_app (segs : list (jsstring * jsstring)) (Z X : jsstring) :
  render segs Z ++ X = render segs (Z ++ X).
Proof.
  induction segs as [| [u v] segs IH]; [reflexivity |].
  simpl. rewrite <- app_assoc. simpl. rewrite <- app_assoc. simpl.
  rewrite IH. reflexivity.
Qed.

Lemma suffix_includes (K v : jsstring) :
  K `suffix_of` v -> includes v K = true.
Proof.
  intros [x ->]. apply includes_true. exists x, []. rewrite app_nil_r.
  reflexivity.
Qed.

Lemma clean_parts (v : jsstring) :
  clean v = true ->
  includes v (lit "fill=") = false /\ includes v (lit "width=") = false
  /\ includes v (lit "height=") = false /\ includes v (lit "<svg") = false.
Proof.
  unfold clean. rewrite !andb_true_iff, !negb_true_iff. tauto.
Qed.

(** *** The attribute patterns on rendered segments *)

Section Kind.
Variable name : jsstring.
Hypothesis name_dq : dq ∉ name.
Hypothesis name_clean :
  forall v, clean v = true -> ~ (key name `suffix_of` v).

Abbreviation atoms := (attr_pattern name).

Lemma is_kind_true (u : jsstring) :
  is_kind name u = true <-> key name `suffix_of` u.
Proof. apply bool_decide_eq_true. Qed.

Lemma is_kind_false (u : jsstring) :
  is_kind name u = false <-> ~ (key name `suffix_of` u).
Proof. apply bool_decide_eq_false. Qed.

Lemma exec_render (segs : list (jsstring * jsstring)) (t : jsstring) :
  Forall wf_seg segs -> dq ∉ t ->
  is_Some (exec atoms (render segs t)) <-> has name segs = true.
Proof.
  intros Hwf Ht. induction Hwf as [| [u v] segs (Hu & Hv & Hc) Hwf IH].
  - simpl. rewrite (exec_tail name t Ht). split; [intros [? ?] |]; discriminate.
  - cbn [render has existsb fst snd] in *.
    rewrite (has_piece name name_dq u _ Hu), (has_piece name name_dq v _ Hv).
    rewrite orb_true_iff, is_kind_true, IH.
    split.
    + intros [[Hs _] | [[Hs _] | Hrest]]; [left; exact Hs | | right; exact Hrest].
      exfalso. exact (name_clean v Hc Hs).
    + intros [Hs | Hrest]; [left | right; right; exact Hrest].
      split; [exact Hs |]. apply elem_of_app. right. left.
Qed.

Lemma has_false_exec (segs : list (jsstring * jsstring)) (t : jsstring) :
  Forall wf_seg segs -> dq ∉ t ->
  has name segs = false -> exec atoms (render segs t) = None.
Proof.
  intros Hwf Ht Hh.
  destruct (exec atoms (render segs t)) as [r |] eqn:E; [| reflexivity].
  assert (Hs : has name segs = true) by (apply (exec_render segs t); eauto).
  congruence.
Qed.

Lemma subst_first_render (w : jsstring) (segs : list (jsstring * jsstring))
    (t : jsstring) :
  Forall wf_seg segs -> dq ∉ t ->
  subst_first atoms (key name ++ dq :: w ++ [dq]) (render segs t)
  = render (set_first name w segs) t.
Proof.
  intros Hwf Ht. induction Hwf as [| [u v] segs (Hu & Hv & Hc) Hwf IH].
  - apply subst_first_tail, Ht.
  - cbn [render set_first fst snd] in *.
    destruct (is_kind name u) eqn:Ek.
    + apply is_kind_true in Ek as [y ->].
      apply not_elem_of_app in Hu as [Hy _].
      rewrite <- app_assoc, subst_first_hit by assumption.
      cbn [render]. app_eq.
    + apply is_kind_false in Ek.
      rewrite (subst_first_skip name name_dq _ u) by assumption.
      rewrite (subst_first_skip name name_dq _ v)
        by (exact Hv || apply name_clean, Hc).
      rewrite IH. reflexivity.
Qed.

Lemma subst_all_render (w : jsstring) (segs : list (jsstring * jsstring))
    (t : jsstring) :
  dollar ∉ key name ++ dq :: w ++ [dq] ->
  Forall wf_seg segs -> dq ∉ t ->
  subst_all atoms (key name ++ dq :: w ++ [dq]) (render segs t)
  = render (set_all name w segs) t.
Proof.
  intros HT Hwf Ht. induction Hwf as [| [u v] segs (Hu & Hv & Hc) Hwf IH].
  - apply subst_all_tail; assumption.
  - cbn [render set_all fmap list_fmap fst snd] in *.
    destruct (is_kind name u) eqn:Ek.
    + apply is_kind_true in Ek as [y ->].
      apply not_elem_of_app in Hu as [Hy _].
      rewrite <- app_assoc, subst_all_hit by assumption.
      rewrite IH. cbn [render]. app_eq.
    + apply is_kind_false in Ek.
      rewrite (subst_all_skip name name_dq _ u) by assumption.
      rewrite (subst_all_skip name name_dq _ v)
        by (exact HT || exact Hv || apply name_clean, Hc).
      rewrite IH. reflexivity.
Qed.

End Kind.

Lemma render_tail_nil (segs : list (jsstring * jsstring)) (X : jsstring) :
  render segs [] ++ X = render segs X.
Proof. apply (render_tail_app segs [] X). Qed.

(** *** Plain texts on rendered segments *)

Lemma includes_render (K : jsstring) (segs : list (jsstring * jsstring))
    (t : jsstring) :
  K <> [] -> dq ∉ K ->
  (forall v, clean v = true -> includes v K = false) ->
  Forall wf_seg segs ->
  includes (render segs t) K = incl K segs t.
Proof.
  intros HK Hdq Hclean Hwf. unfold incl.
  induction Hwf as [| [u v] segs (Hu & Hv & Hc) Hwf IH]; [reflexivity |].
  cbn [render existsb fst snd] in *.
  rewrite (includes_sep K u dq _ HK Hdq), (includes_sep K v dq _ HK Hdq).
  rewrite (Hclean v Hc), IH. simpl. rewrite orb_assoc. reflexivity.
Qed.

Lemma indexOf_render_skip (K u v R : jsstring) :
  K <> [] -> dq ∉ K ->
  indexOf K u = None -> includes v K = false ->
  indexOf K (u ++ dq :: v ++ dq :: R)
  = (λ i, length (u ++ dq :: v ++ [dq]) + i) <$> indexOf K R.
Proof.
  intros HK Hdq Hu Hv.
  rewrite (indexOf_sep K u dq _ HK Hdq), Hu.
  rewrite (indexOf_sep K v dq _ HK Hdq), (includes_false_indexOf v K Hv).
  destruct (indexOf K R) as [i |]; [| reflexivity].
  simpl. f_equal. rewrite length_app. simpl. rewrite length_app. simpl. lia.
Qed.

Lemma replace_string_shift (K T P Z : jsstring) :
  dollar ∉ T ->
  indexOf K (P ++ Z) = (λ i, length P + i) <$> indexOf K Z ->
  replace_string (P ++ Z) K T = P ++ replace_string Z K T.
Proof.
  intros HT E. unfold replace_string. rewrite E.
  destruct (indexOf K Z) as [i |]; [| reflexivity].
  simpl. rewrite !GetSubstitution_plain by exact HT.
  rewrite take_app_add, <- Nat.add_assoc, drop_app_add. app_eq.
Qed.

Lemma svg_split (u : jsstring) (i : nat) :
  indexOf (lit "<svg") u = Some i ->
  exists pre post,
    u = pre ++ lit "<svg" ++ post /\ length pre = i
    /\ take (i + 4) u = pre ++ lit "<svg" /\ drop (i + 4) u = post.
Proof.
  intros Hi. destruct (indexOf_Some_split _ _ _ Hi) as (pre & post & -> & <-).
  exists pre, post. split; [reflexivity |]. split; [reflexivity |].
  rewrite (app_assoc pre (lit "<svg") post).
  replace (length pre + 4) with (length (pre ++ lit "<svg"))
    by (rewrite length_app; reflexivity).
  rewrite take_app_length, drop_app_length. auto.
Qed.

Lemma inject_render (u1 v1 : jsstring) (more segs : list (jsstring * jsstring))
    (t : jsstring) :
  let T := lit "<svg" ++ u1 ++ dq :: v1 ++ dq :: render more [] in
  dollar ∉ T ->
  Forall wf_seg segs ->
  replace_string (render segs t) (lit "<svg") T
  = render (inject u1 v1 more segs t).1 (inject u1 v1 more segs t).2.
Proof.
  intros T HT Hwf.
  induction Hwf as [| [u v] segs (Hu & Hv & Hc) Hwf IH].
  - cbn [render inject]. destruct (indexOf (lit "<svg") t) as [i |] eqn:Hi.
    + destruct (svg_split t i Hi) as (pre & post & E & Hlen & -> & ->).
      cbn [fst snd render]. rewrite E in Hi |- *. rewrite <- Hlen in Hi.
      rewrite replace_string_at by assumption.
      unfold T. rewrite <- (render_tail_nil more post). app_eq.
    + unfold replace_string. rewrite Hi. reflexivity.
  - cbn [render inject fst snd] in *.
    destruct (indexOf (lit "<svg") u) as [i |] eqn:Hi.
    + destruct (svg_split u i Hi) as (pre & post & E & Hlen & -> & ->).
      cbn [fst snd render]. rewrite E in Hi |- *. rewrite <- Hlen in Hi.
      rewrite <- !app_assoc.
      rewrite replace_string_at;
        [| exact HT | apply (indexOf_ext _ _ post), Hi].
      unfold T. rewrite render_app. cbn [render].
      rewrite <- (render_tail_nil more (post ++ _)). app_eq.
    + cbn [fst snd render].
      replace (u ++ dq :: v ++ dq :: render segs t)
        with ((u ++ dq :: v ++ [dq]) ++ render segs t) by app_eq.
      rewrite replace_string_shift; [rewrite IH; app_eq | exact HT |].
      replace ((u ++ dq :: v ++ [dq]) ++ render segs t)
        with (u ++ dq :: v ++ dq :: render segs t) by app_eq.
      apply indexOf_render_skip;
        [discriminate | compute_done | exact Hi |].
      apply clean_parts in Hc. tauto.
Qed.

Lemma inject_absent (u1 v1 : jsstring) (more segs : list (jsstring * jsstring))
    (t : jsstring) :
  incl (lit "<svg") segs t = false -> inject u1 v1 more segs t = (segs, t).
Proof.
  unfold incl. induction segs as [| [u v] segs IH]; cbn [existsb inject fst].
  - simpl. intros Ht. rewrite (includes_false_indexOf t _ Ht). reflexivity.
  - rewrite !orb_false_iff. intros [[Hu Hs] Ht].
    rewrite (includes_false_indexOf u _ Hu).
    rewrite IH by (rewrite Hs, Ht; reflexivity). reflexivity.
Qed.

(** *** The three attribute names, colours and sizes *)

Lemma fill_clean (v : jsstring) :
  clean v = true -> ~ (key (lit "fill") `suffix_of` v).
Proof.
  intros Hc Hs. apply suffix_includes in Hs. apply clean_parts in Hc.
  destruct Hc as (H1 & _). change (key (lit "fill")) with (lit "fill=") in Hs.
  congruence.
Qed.

Lemma width_clean (v : jsstring) :
  clean v = true -> ~ (key (lit "width") `suffix_of` v).
Proof.
  intros Hc Hs. apply suffix_includes in Hs. apply clean_parts in Hc.
  destruct Hc as (_ & H2 & _).
  change (key (lit "width")) with (lit "width=") in Hs. congruence.
Qed.

Lemma height_clean (v : jsstring) :
  clean v = true -> ~ (key (lit "height") `suffix_of` v).
Proof.
  intros Hc Hs. apply suffix_includes in Hs. apply clean_parts in Hc.
  destruct Hc as (_ & _ & H3 & _).
  change (key (lit "height")) with (lit "height=") in Hs. congruence.
Qed.

Lemma plain_color_parts (c : jsstring) :
  plain_color c = true -> (dq ∉ c) /\ (dollar ∉ c) /\ clean c = true.
Proof.
  unfold plain_color. rewrite !andb_true_iff, !bool_decide_eq_true. tauto.
Qed.

Lemma size_clean (n : N) : clean (Number_toString n) = true.
Proof.
  unfold clean. rewrite !andb_true_iff, !negb_true_iff.
  repeat split;
    (eapply includes_head_absent; [reflexivity |];
     apply Number_toString_without; compute_done).
Qed.

Lemma size_dq (n : N) : dq ∉ Number_toString n.
Proof. apply Number_toString_without. compute_done. Qed.

Lemma size_dollar (n : N) : dollar ∉ Number_toString n.
Proof. apply Number_toString_without. compute_done. Qed.

Lemma test_render (re : RegExp) (name : jsstring)
    (segs : list (jsstring * jsstring)) (t : jsstring) :
  pattern re = attr_pattern name -> dq ∉ name ->
  (forall v, clean v = true -> ~ (key name `suffix_of` v)) ->
  Forall wf_seg segs -> dq ∉ t ->
  test re (render segs t) = has name segs.
Proof.
  intros Hre Hname Hclean Hwf Ht. unfold test. rewrite Hre.
  pose proof (exec_render name Hname Hclean segs t Hwf Ht) as Hiff.
  destruct (has name segs).
  - apply bool_decide_eq_true, Hiff. reflexivity.
  - apply bool_decide_eq_false. intros Hs. apply Hiff in Hs. discriminate.
Qed.

(** A text made of literals and of parts known not to hold a character
    does not hold it. *)
Ltac no_char :=
  repeat (rewrite ?not_elem_of_app, ?not_elem_of_cons);
  repeat split;
  first [ discriminate | assumption | apply not_elem_of_nil
        | apply size_dollar | apply size_dq | compute_done ].

(** *** Well-formedness is kept *)

Lemma set_first_wf (name w : jsstring) (segs : list (jsstring * jsstring)) :
  dq ∉ w -> clean w = true ->
  Forall wf_seg segs -> Forall wf_seg (set_first name w segs).
Proof.
  intros Hw Hc Hwf. induction Hwf as [| [u v] segs (Hu & Hv & Hcv) Hwf IH];
    [constructor |].
  cbn [set_first fst]. destruct (is_kind name u).
  - constructor; [repeat split; assumption | exact Hwf].
  - constructor; [repeat split; assumption | exact IH].
Qed.

Lemma set_all_wf (name w : jsstring) (segs : list (jsstring * jsstring)) :
  dq ∉ w -> clean w = true ->
  Forall wf_seg segs -> Forall wf_seg (set_all name w segs).
Proof.
  intros Hw Hc Hwf. induction Hwf as [| [u v] segs (Hu & Hv & Hcv) Hwf IH];
    [constructor |].
  cbn [set_all fmap list_fmap fst]. destruct (is_kind name u).
  - constructor; [repeat split; assumption | exact IH].
  - constructor; [repeat split; assumption | exact IH].
Qed.

Lemma take_dq (u : jsstring) (k : nat) : dq ∉ u -> dq ∉ take k u.
Proof.
  intros Hu Hin. apply Hu. eapply elem_of_sublist; [exact Hin |].
  apply sublist_take.
Qed.

Lemma drop_dq (u : jsstring) (k : nat) : dq ∉ u -> dq ∉ drop k u.
Proof.
  intros Hu Hin. apply Hu. eapply elem_of_sublist; [exact Hin |].
  apply sublist_drop.
Qed.

Lemma inject_wf (u1 v1 : jsstring) (more segs : list (jsstring * jsstring))
    (t : jsstring) :
  dq ∉ u1 -> dq ∉ v1 -> clean v1 = true -> Forall wf_seg more ->
  wf (segs, t) -> wf (inject u1 v1 more segs t).
Proof.
  intros Hu1 Hv1 Hc1 Hmore [Hwf Ht]. cbn [fst snd] in *.
  induction Hwf as [| [u v] segs (Hu & Hv & Hc) Hwf IH]; cbn [inject].
  - destruct (indexOf (lit "<svg") t) as [i |]; [| split; [constructor | exact Ht]].
    split; cbn [fst snd]; [| apply drop_dq, Ht].
    constructor; [| exact Hmore].
    split; [| split; assumption]. cbn [fst].
    apply not_elem_of_app. split; [apply take_dq, Ht | exact Hu1].
  - destruct (indexOf (lit "<svg") u) as [i |].
    + split; cbn [fst snd]; [| exact Ht].
      constructor.
      * split; [| split; assumption]. cbn [fst].
        apply not_elem_of_app. split; [apply take_dq, Hu | exact Hu1].
      * apply Forall_app. split; [exact Hmore |].
        constructor; [| exact Hwf].
        split; [apply drop_dq, Hu | split; assumption].
    + destruct IH as [IH1 IH2]. split; cbn [fst snd]; [| exact IH2].
      constructor; [repeat split; assumption | exact IH1].
Qed.

Lemma fill_step_wf (c : jsstring) (st : list (jsstring * jsstring) * jsstring) :
  plain_color c = true -> wf st -> wf (fill_step c st).
Proof.
  intros Hc Hst. apply plain_color_parts in Hc as (Hdq & _ & Hclean).
  unfold fill_step. destruct (incl (lit "fill=") st.1 st.2).
  - destruct Hst as [Hsegs Ht]. split; [| exact Ht].
    apply set_all_wf; assumption.
  - destruct st as [segs t]. apply inject_wf;
      [compute_done | exact Hdq | exact Hclean | constructor | exact Hst].
Qed.

Lemma dimension_step_wf (n : N) (st : list (jsstring * jsstring) * jsstring) :
  wf st -> wf (dimension_step (Number_toString n) st).
Proof.
  intros [Hsegs Ht]. unfold dimension_step.
  set (segs1 := if has (lit "width") st.1
                then set_first (lit "width") (Number_toString n) st.1
                else st.1).
  assert (H1 : Forall wf_seg segs1).
  { unfold segs1. destruct (has (lit "width") st.1); [| exact Hsegs].
    apply set_first_wf; [apply size_dq | apply size_clean | exact Hsegs]. }
  set (segs2 := if has (lit "height") st.1
                then set_first (lit "height") (Number_toString n) segs1
                else segs1).
  assert (H2 : Forall wf_seg segs2).
  { unfold segs2. destruct (has (lit "height") st.1); [| exact H1].
    apply set_first_wf; [apply size_dq | apply size_clean | exact H1]. }
  destruct (negb (has (lit "width") st.1) && negb (has (lit "height") st.1)).
  - apply inject_wf;
      [compute_done | apply size_dq | apply size_clean | | split; assumption].
    constructor; [| constructor].
    split; [compute_done | split; [apply size_dq | apply size_clean]].
  - split; assumption.
Qed.

(** *** The two steps of the transform on rendered segments *)

Lemma handle_fill_render (c : jsstring)
    (st : list (jsstring * jsstring) * jsstring) :
  plain_color c = true -> wf st ->
  handle_fill (render st.1 st.2) c
  = render (fill_step c st).1 (fill_step c st).2.
Proof.
  intros Hc [Hsegs Ht]. apply plain_color_parts in Hc as (Hdq & Hd & Hclean).
  unfold handle_fill, fill_step.
  rewrite includes_render;
    [| discriminate | compute_done
     | intros v Hv; apply clean_parts in Hv; tauto | exact Hsegs].
  destruct (incl (lit "fill=") st.1 st.2).
  - rewrite replace_global;
      [| reflexivity | apply IconModalSpec.fill_attr_plain, Hd].
    cbn [fst snd].
    apply (subst_all_render (lit "fill") IconModalSpec.fill_dq fill_clean c);
      [| exact Hsegs | exact Ht].
    apply (IconModalSpec.fill_attr_plain c Hd).
  - apply (inject_render (lit " fill=") c [] st.1 st.2); [| exact Hsegs].
    cbn [render]. no_char.
Qed.

Lemma handle_dimensions_render (n : N)
    (st : list (jsstring * jsstring) * jsstring) :
  wf st ->
  handle_dimensions (render st.1 st.2) n
  = render (dimension_step (Number_toString n) st).1
      (dimension_step (Number_toString n) st).2.
Proof.
  intros [Hsegs Ht]. unfold handle_dimensions, dimension_step.
  rewrite (test_render WIDTH_REGEX (lit "width")) by
    (reflexivity || exact IconModalSpec.width_dq || exact width_clean
     || assumption).
  rewrite (test_render HEIGHT_REGEX (lit "height")) by
    (reflexivity || exact IconModalSpec.height_dq || exact height_clean
     || assumption).
  set (w := has (lit "width") st.1). set (h := has (lit "height") st.1).
  set (N := Number_toString n).
  assert (E1 : (if w then replace (render st.1 st.2) WIDTH_REGEX (width_attr n)
                else render st.1 st.2)
               = render (if w then set_first (lit "width") N st.1 else st.1)
                   st.2).
  { destruct w; [| reflexivity].
    rewrite replace_first;
      [| reflexivity
       | apply (IconModalSpec.size_attr_plain (lit "width")); compute_done].
    apply (subst_first_render (lit "width") IconModalSpec.width_dq width_clean
             N st.1 st.2 Hsegs Ht). }
  rewrite E1. clear E1.
  set (segs1 := if w then set_first (lit "width") N st.1 else st.1).
  assert (H1 : Forall wf_seg segs1).
  { unfold segs1. destruct w; [| exact Hsegs].
    apply set_first_wf; [apply size_dq | apply size_clean | exact Hsegs]. }
  assert (E2 : (if h then replace (render segs1 st.2) HEIGHT_REGEX (height_attr n)
                else render segs1 st.2)
               = render (if h then set_first (lit "height") N segs1 else segs1)
                   st.2).
  { destruct h; [| reflexivity].
    rewrite replace_first;
      [| reflexivity
       | apply (IconModalSpec.size_attr_plain (lit "height")); compute_done].
    apply (subst_first_render (lit "height") IconModalSpec.height_dq
             height_clean N segs1 st.2 H1 Ht). }
  rewrite E2. clear E2.
  set (segs2 := if h then set_first (lit "height") N segs1 else segs1).
  assert (H2 : Forall wf_seg segs2).
  { unfold segs2. destruct h; [| exact H1].
    apply set_first_wf; [apply size_dq | apply size_clean | exact H1]. }
  destruct (negb w && negb h); [| reflexivity].
  rewrite <- (inject_render (lit " width=") N [(lit " height=", N)] segs2 st.2);
    [| | exact H2].
  - f_equal. unfold width_attr, height_attr. fold N. cbn [render]. app_eq.
  - cbn [render]. no_char.
Qed.

End MarkupFacts.

(* ================================================================== *)
(** ** The transform on settled segments *)
(* ================================================================== *)

Module Settled.
Import JS IconModal Patterns JSFacts RegexFacts Markup MarkupFacts.

Lemma settled_fixed (c n : jsstring)
    (st : list (jsstring * jsstring) * jsstring) :
  settled c n st -> fill_step c st = st /\ dimension_step n st = st.
Proof.
  destruct st as [segs t]. intros (Hf & Hw & Hh & Hfill & Hdim).
  cbn [fst snd] in *. split.
  - unfold fill_step. cbn [fst snd].
    destruct (incl (lit "fill=") segs t); [rewrite Hf; reflexivity |].
    destruct Hfill as [? | Hsvg]; [discriminate |].
    apply inject_absent, Hsvg.
  - unfold dimension_step. cbn [fst snd].
    rewrite Hw. replace (if has (lit "width") segs then segs else segs)
      with segs by (destruct (has (lit "width") segs); reflexivity).
    rewrite Hh. replace (if has (lit "height") segs then segs else segs)
      with segs by (destruct (has (lit "height") segs); reflexivity).
    destruct (has (lit "width") segs), (has (lit "height") segs);
      try reflexivity.
    cbn [negb andb]. destruct Hdim as [? | [? | Hsvg]]; try discriminate.
    apply inject_absent, Hsvg.
Qed.

(** *** Kinds *)

Lemma kinds_exclusive (a b u : jsstring) :
  ~ (key a `suffix_of` key b) -> ~ (key b `suffix_of` key a) ->
  is_kind a u = true -> is_kind b u = false.
Proof.
  intros Hab Hba Ha. apply bool_decide_eq_true in Ha.
  apply bool_decide_eq_false. intros Hb.
  destruct (suffix_weak_total _ _ _ Ha Hb); contradiction.
Qed.

Lemma fill_not_width (u : jsstring) :
  is_kind (lit "fill") u = true -> is_kind (lit "width") u = false.
Proof. apply kinds_exclusive; compute_done. Qed.

Lemma fill_not_height (u : jsstring) :
  is_kind (lit "fill") u = true -> is_kind (lit "height") u = false.
Proof. apply kinds_exclusive; compute_done. Qed.

Lemma width_not_height (u : jsstring) :
  is_kind (lit "width") u = true -> is_kind (lit "height") u = false.
Proof. apply kinds_exclusive; compute_done. Qed.

Lemma height_not_width (u : jsstring) :
  is_kind (lit "height") u = true -> is_kind (lit "width") u = false.
Proof. apply kinds_exclusive; compute_done. Qed.

(** The kind of a text that ends with a literal at least as long as the
    key is the kind of the literal. *)
Lemma is_kind_literal (name p L : jsstring) :
  length (key name) <= length L ->
  is_kind name (p ++ L) = is_kind name L.
Proof.
  intros Hlen. unfold is_kind. apply bool_decide_ext. split.
  - intros Hs. destruct (suffix_weak_total (key name) L (p ++ L) Hs)
      as [H1 | H2]; [apply suffix_app_r; reflexivity | exact H1 |].
    rewrite (suffix_length_eq _ _ H2 Hlen). reflexivity.
  - intros Hs. apply suffix_app_r, Hs.
Qed.

Lemma is_kind_drop (name u : jsstring) (k : nat) :
  is_kind name (drop k u) = true -> is_kind name u = true.
Proof.
  unfold is_kind. rewrite !bool_decide_eq_true. intros Hs.
  rewrite <- (take_drop k u). apply suffix_app_r, Hs.
Qed.

(** *** Replacing values keeps the texts *)

Lemma has_set_first (name name' w : jsstring)
    (segs : list (jsstring * jsstring)) :
  has name (set_first name' w segs) = has name segs.
Proof.
  induction segs as [| [u v] segs IH]; [reflexivity |].
  cbn [set_first fst]. destruct (is_kind name' u); [reflexivity |].
  unfold has in *. cbn [existsb fst]. rewrite IH. reflexivity.
Qed.

Lemma incl_set_first (K name w : jsstring)
    (segs : list (jsstring * jsstring)) (t : jsstring) :
  incl K (set_first name w segs) t = incl K segs t.
Proof.
  unfold incl. f_equal.
  induction segs as [| [u v] segs IH]; [reflexivity |].
  cbn [set_first fst]. destruct (is_kind name u); [reflexivity |].
  cbn [existsb fst]. rewrite IH. reflexivity.
Qed.

Lemma incl_set_all (K name w : jsstring)
    (segs : list (jsstring * jsstring)) (t : jsstring) :
  incl K (set_all name w segs) t = incl K segs t.
Proof.
  unfold incl. f_equal.
  induction segs as [| [u v] segs IH]; [reflexivity |].
  unfold set_all in *. cbn [fmap list_fmap existsb fst]. rewrite <- IH.
  destruct (is_kind name u); reflexivity.
Qed.

Lemma set_all_idem (name w : jsstring) (segs : list (jsstring * jsstring)) :
  set_all name w (set_all name w segs) = set_all name w segs.
Proof.
  induction segs as [| [u v] segs IH]; [reflexivity |].
  unfold set_all in *. cbn [fmap list_fmap fst]. rewrite IH.
  destruct (is_kind name u) eqn:E; cbn [fst]; rewrite E; reflexivity.
Qed.

Lemma set_first_idem (name w : jsstring) (segs : list (jsstring * jsstring)) :
  set_first name w (set_first name w segs) = set_first name w segs.
Proof.
  induction segs as [| [u v] segs IH]; [reflexivity |].
  cbn [set_first fst]. destruct (is_kind name u) eqn:E;
    cbn [set_first fst]; rewrite E; [reflexivity |].
  rewrite IH. reflexivity.
Qed.

Lemma set_first_absent (name w : jsstring)
    (segs : list (jsstring * jsstring)) :
  has name segs = false -> set_first name w segs = segs.
Proof.
  induction segs as [| [u v] segs IH]; [reflexivity |].
  unfold has in *. cbn [existsb set_first fst]. rewrite orb_false_iff.
  intros [-> Hs]. rewrite IH by exact Hs. reflexivity.
Qed.

Lemma set_all_absent (name w : jsstring)
    (segs : list (jsstring * jsstring)) :
  has name segs = false -> set_all name w segs = segs.
Proof.
  induction segs as [| [u v] segs IH]; [reflexivity |].
  unfold has, set_all in *. cbn [existsb fmap list_fmap fst].
  rewrite orb_false_iff. intros [-> Hs]. f_equal. apply IH, Hs.
Qed.

Lemma set_first_keeps_first (a b w w' : jsstring)
    (segs : list (jsstring * jsstring)) :
  (forall u, is_kind a u = true -> is_kind b u = false) ->
  set_first a w segs = segs ->
  set_first a w (set_first b w' segs) = set_first b w' segs.
Proof.
  intros Hex. induction segs as [| [u v] segs IH]; [reflexivity |].
  cbn [set_first fst]. destruct (is_kind b u) eqn:Eb.
  - destruct (is_kind a u) eqn:Ea;
      [rewrite (Hex u Ea) in Eb; discriminate |].
    intros [= Hs]. cbn [set_first fst]. rewrite Ea, Hs. reflexivity.
  - destruct (is_kind a u) eqn:Ea; cbn [set_first fst]; rewrite Ea.
    + intros [= ->]. reflexivity.
    + intros [= Hs]. rewrite IH by exact Hs. reflexivity.
Qed.

Lemma set_first_keeps_all (a b w w' : jsstring)
    (segs : list (jsstring * jsstring)) :
  (forall u, is_kind a u = true -> is_kind b u = false) ->
  set_all a w segs = segs ->
  set_all a w (set_first b w' segs) = set_first b w' segs.
Proof.
  intros Hex. induction segs as [| [u v] segs IH]; [reflexivity |].
  unfold set_all in *. cbn [set_first fmap list_fmap fst].
  destruct (is_kind a u) eqn:Ea.
  - rewrite (Hex u Ea). intros [= -> Hs].
    cbn [fmap list_fmap fst]. rewrite Ea. f_equal. apply IH, Hs.
  - intros [= Hs]. destruct (is_kind b u);
      cbn [fmap list_fmap fst]; rewrite Ea; f_equal;
      [exact Hs | apply IH, Hs].
Qed.

Lemma has_incl (name : jsstring) (segs : list (jsstring * jsstring))
    (t : jsstring) :
  incl (key name) segs t = false -> has name segs = false.
Proof.
  unfold incl. rewrite orb_false_iff. intros [Hs _].
  induction segs as [| [u v] segs IH]; [reflexivity |].
  unfold has in *. cbn [existsb fst] in *.
  apply orb_false_iff in Hs as [Hu Hs].
  rewrite IH by exact Hs. rewrite orb_false_r.
  apply bool_decide_eq_false. intros Hk. apply suffix_includes in Hk.
  congruence.
Qed.

(** *** What the insertion after <svg brings *)

Lemma includes_svg (pre X : jsstring) :
  includes (pre ++ lit "<svg" ++ X) (lit "fill=")
  = includes pre (lit "fill=") || includes X (lit "fill=").
Proof.
  change (pre ++ lit "<svg" ++ X)
    with (pre ++ "<"%char :: [] ++ "s"%char :: [] ++ "v"%char
              :: [] ++ "g"%char :: X).
  rewrite !includes_sep by (discriminate || compute_done). reflexivity.
Qed.

Lemma includes_take_svg (u u1 : jsstring) (i : nat) :
  indexOf (lit "<svg") u = Some i ->
  includes u (lit "fill=") = true ->
  includes (take (i + 4) u ++ u1) (lit "fill=") = true
  \/ includes (drop (i + 4) u) (lit "fill=") = true.
Proof.
  intros Hi. destruct (svg_split u i Hi) as (pre & post & E & _ & -> & ->).
  rewrite E, <- app_assoc, !includes_svg, orb_true_iff.
  intros [Hp | Hp]; [left; rewrite Hp; reflexivity | right; exact Hp].
Qed.

Lemma kind_includes_false (name u : jsstring) :
  includes u (key name) = false -> is_kind name u = false.
Proof.
  intros Hu. apply bool_decide_eq_false. intros Hk.
  apply suffix_includes in Hk. congruence.
Qed.

Lemma inject_fill_settled (c : jsstring) (segs : list (jsstring * jsstring))
    (t : jsstring) :
  incl (lit "fill=") segs t = false ->
  set_all (lit "fill") c (inject (lit " fill=") c [] segs t).1
  = (inject (lit " fill=") c [] segs t).1.
Proof.
  unfold incl. induction segs as [| [u v] segs IH]; cbn [inject existsb fst].
  - intros _. destruct (indexOf (lit "<svg") t) as [i |]; [| reflexivity].
    unfold set_all. cbn [fst fmap list_fmap].
    rewrite is_kind_literal by (simpl; lia). reflexivity.
  - rewrite !orb_false_iff. intros [[Hu Hs] Ht].
    pose proof (kind_includes_false (lit "fill") u Hu) as Hk.
    destruct (indexOf (lit "<svg") u) as [i |].
    + unfold set_all. cbn [fst app fmap list_fmap].
      rewrite is_kind_literal by (simpl; lia).
      destruct (is_kind (lit "fill") (drop (i + 4) u)) eqn:Ed;
        [apply is_kind_drop in Ed; congruence |].
      change (is_kind (lit "fill") (lit " fill=")) with true. cbn iota.
      do 2 f_equal.
      apply (set_all_absent (lit "fill") c segs).
      apply (has_incl (lit "fill") segs t). unfold incl.
      change (key (lit "fill")) with (lit "fill="). rewrite Hs, Ht. reflexivity.
    + cbn [fst]. unfold set_all in *. cbn [fmap list_fmap fst].
      rewrite Hk. f_equal. apply IH. rewrite Hs, Ht. reflexivity.
Qed.

Lemma inject_fill_incl (c : jsstring) (segs : list (jsstring * jsstring))
    (t : jsstring) :
  incl (lit "<svg") segs t = true ->
  incl (lit "fill=") (inject (lit " fill=") c [] segs t).1
    (inject (lit " fill=") c [] segs t).2 = true.
Proof.
  unfold incl. induction segs as [| [u v] segs IH]; cbn [inject existsb fst].
  - cbn [orb]. rewrite includes_indexOf.
    destruct (indexOf (lit "<svg") t) as [i |]; [intros _ | discriminate].
    cbn [fst snd existsb]. rewrite suffix_includes; [reflexivity |].
    apply suffix_app_r. exists [" "%char]. reflexivity.
  - rewrite (includes_indexOf u).
    destruct (indexOf (lit "<svg") u) as [i |].
    + intros _. cbn [fst snd existsb]. rewrite suffix_includes; [reflexivity |].
      apply suffix_app_r. exists [" "%char]. reflexivity.
    + cbn [orb fst snd existsb]. intros Hs. rewrite <- orb_assoc, IH by exact Hs.
      apply orb_true_r.
Qed.

(** *** The fill step keeps the widths and the heights *)

Lemma has_set_all (name name' w : jsstring)
    (segs : list (jsstring * jsstring)) :
  has name (set_all name' w segs) = has name segs.
Proof.
  unfold has, set_all. induction segs as [| [u v] segs IH]; [reflexivity |].
  cbn [fmap list_fmap existsb fst]. rewrite IH.
  destruct (is_kind name' u); reflexivity.
Qed.

(** A key that neither holds the character < nor starts with a character
    of <svg cannot end inside an occurrence of <svg. *)
Lemma is_kind_after_svg (name pre post : jsstring) :
  ("<"%char ∉ key name) ->
  (forall a, head (key name) = Some a -> a ∉ lit "<svg") ->
  is_kind name (pre ++ lit "<svg" ++ post) = is_kind name post.
Proof.
  intros Hlt Hhead. unfold is_kind. apply bool_decide_ext. split.
  - intros Hs.
    assert (Hp : post `suffix_of` pre ++ lit "<svg" ++ post)
      by (do 2 apply suffix_app_r; reflexivity).
    destruct (suffix_weak_total _ _ _ Hs Hp) as [H1 | [x Hx]]; [exact H1 |].
    destruct x as [| a x]; [rewrite Hx; reflexivity |].
    exfalso. rewrite Hx, (app_assoc pre) in Hs.
    apply suffix_app_inv in Hs.
    assert (Hsvg : lit "<svg" `suffix_of` pre ++ lit "<svg")
      by (apply suffix_app_r; reflexivity).
    destruct (suffix_weak_total _ _ _ Hs Hsvg) as [[y Hy] | [y Hy]].
    + apply (Hhead a); [rewrite Hx; reflexivity |].
      rewrite Hy. apply elem_of_app. right. left.
    + apply Hlt. rewrite Hx, Hy. apply elem_of_app. left.
      apply elem_of_app. right. left.
  - intros Hs. do 2 apply suffix_app_r. exact Hs.
Qed.




Section Dimensions.
Variable n : jsstring.

Abbreviation inject_dims segs t :=
  (inject (lit " width=") n [(lit " height=", n)] segs t).

Lemma inject_dims_fill (c : jsstring) (segs : list (jsstring * jsstring))
    (t : jsstring) :
  set_all (lit "fill") c segs = segs ->
  set_all (lit "fill") c (inject_dims segs t).1 = (inject_dims segs t).1.
Proof.
  unfold set_all. induction segs as [| [u v] segs IH]; cbn [inject fst].
  - intros _. destruct (indexOf (lit "<svg") t) as [i |]; [| reflexivity].
    cbn [fst fmap list_fmap].
    rewrite is_kind_literal by (simpl; lia). reflexivity.
  - cbn [fmap list_fmap fst]. intros Hs.
    destruct (indexOf (lit "<svg") u) as [i |].
    + cbn [fst app fmap list_fmap].
      rewrite is_kind_literal by (simpl; lia).
      change (is_kind (lit "fill") (lit " width=")) with false.
      change (is_kind (lit "fill") (lit " height=")) with false.
      cbn iota. do 2 f_equal.
      destruct (is_kind (lit "fill") (drop (i + 4) u)) eqn:Ed.
      * apply is_kind_drop in Ed. rewrite Ed in Hs.
        destruct (ListFacts.cons_inj _ _ _ _ Hs) as [[= Hcv] Htail].
        subst v. f_equal. exact Htail.
      * f_equal. exact (proj2 (ListFacts.cons_inj _ _ _ _ Hs)).
    + cbn [fst fmap list_fmap].
      destruct (ListFacts.cons_inj _ _ _ _ Hs) as [Hhead Htail].
      rewrite Hhead. f_equal. apply IH. exact Htail.
Qed.

Lemma inject_dims_width (segs : list (jsstring * jsstring)) (t : jsstring) :
  has (lit "width") segs = false ->
  set_first (lit "width") n (inject_dims segs t).1 = (inject_dims segs t).1.
Proof.
  unfold has. induction segs as [| [u v] segs IH]; cbn [inject existsb fst].
  - intros _. destruct (indexOf (lit "<svg") t) as [i |]; [| reflexivity].
    cbn [fst set_first]. rewrite is_kind_literal by (simpl; lia). reflexivity.
  - rewrite orb_false_iff. intros [Hu Hs].
    destruct (indexOf (lit "<svg") u) as [i |].
    + cbn [fst set_first]. rewrite is_kind_literal by (simpl; lia).
      reflexivity.
    + cbn [fst set_first]. rewrite Hu, IH by exact Hs. reflexivity.
Qed.

Lemma inject_dims_height (segs : list (jsstring * jsstring)) (t : jsstring) :
  has (lit "height") segs = false ->
  set_first (lit "height") n (inject_dims segs t).1 = (inject_dims segs t).1.
Proof.
  unfold has. induction segs as [| [u v] segs IH]; cbn [inject existsb fst].
  - intros _. destruct (indexOf (lit "<svg") t) as [i |]; [| reflexivity].
    cbn [fst set_first]. rewrite is_kind_literal by (simpl; lia). reflexivity.
  - rewrite orb_false_iff. intros [Hu Hs].
    destruct (indexOf (lit "<svg") u) as [i |].
    + cbn [fst set_first app]. rewrite is_kind_literal by (simpl; lia).
      reflexivity.
    + cbn [fst set_first]. rewrite Hu, IH by exact Hs. reflexivity.
Qed.

Lemma inject_dims_has (segs : list (jsstring * jsstring)) (t : jsstring) :
  incl (lit "<svg") segs t = true ->
  has (lit "width") (inject_dims segs t).1 = true.
Proof.
  unfold incl, has.
  induction segs as [| [u v] segs IH]; cbn [inject existsb fst].
  - cbn [orb]. rewrite includes_indexOf.
    destruct (indexOf (lit "<svg") t) as [i |]; [intros _ | discriminate].
    cbn [fst existsb]. rewrite is_kind_literal by (simpl; lia). reflexivity.
  - rewrite (includes_indexOf u).
    destruct (indexOf (lit "<svg") u) as [i |].
    + intros _. cbn [fst existsb].
      rewrite is_kind_literal by (simpl; lia). reflexivity.
    + cbn [orb fst existsb]. intros Hs. rewrite IH by exact Hs.
      apply orb_true_r.
Qed.

Lemma inject_dims_incl_fill (segs : list (jsstring * jsstring))
    (t : jsstring) :
  incl (lit "fill=") segs t = true ->
  incl (lit "fill=") (inject_dims segs t).1 (inject_dims segs t).2 = true.
Proof.
  unfold incl. induction segs as [| [u v] segs IH]; cbn [inject existsb fst].
  - cbn [orb]. intros Ht.
    destruct (indexOf (lit "<svg") t) as [i |] eqn:Hi;
      [| cbn [fst snd existsb orb]; exact Ht].
    cbn [fst snd existsb].
    destruct (includes_take_svg t (lit " width=") i Hi Ht) as [-> | ->];
      [reflexivity | rewrite !orb_true_r; reflexivity].
  - intros Hs. destruct (indexOf (lit "<svg") u) as [i |] eqn:Hi.
    + cbn [fst snd existsb app].
      apply orb_true_iff in Hs as [Hs | Ht];
        [| rewrite Ht, !orb_true_r; reflexivity].
      apply orb_true_iff in Hs as [Hu | Hs];
        [| rewrite Hs, !orb_true_r; reflexivity].
      destruct (includes_take_svg u (lit " width=") i Hi Hu) as [-> | ->];
        [reflexivity | rewrite !orb_true_r; reflexivity].
    + cbn [fst snd existsb].
      destruct (includes u (lit "fill=")); [reflexivity |].
      cbn [orb] in *. apply IH, Hs.
Qed.

End Dimensions.

(** *** Both steps lead to settled segments *)

Lemma fill_step_settles (c : jsstring)
    (st : list (jsstring * jsstring) * jsstring) :
  let st' := fill_step c st in
  set_all (lit "fill") c st'.1 = st'.1
  /\ (incl (lit "fill=") st'.1 st'.2 = true
      \/ incl (lit "<svg") st'.1 st'.2 = false).
Proof.
  destruct st as [segs t]. unfold fill_step. cbn [fst snd].
  destruct (incl (lit "fill=") segs t) eqn:Ef; cbn [fst snd].
  - split; [apply set_all_idem |]. left. rewrite incl_set_all. exact Ef.
  - split; [apply inject_fill_settled, Ef |].
    destruct (incl (lit "<svg") segs t) eqn:Es.
    + left. apply inject_fill_incl, Es.
    + right. rewrite inject_absent by exact Es. exact Es.
Qed.

Lemma dimension_step_settles (c n : jsstring)
    (st : list (jsstring * jsstring) * jsstring) :
  set_all (lit "fill") c st.1 = st.1 ->
  incl (lit "fill=") st.1 st.2 = true \/ incl (lit "<svg") st.1 st.2 = false ->
  settled c n (dimension_step n st).
Proof.
  destruct st as [segs t]. cbn [fst snd]. intros Hf Hfill.
  unfold dimension_step, settled. cbn [fst snd].
  destruct (has (lit "width") segs) eqn:Ew,
           (has (lit "height") segs) eqn:Eh; cbn [negb andb fst snd].
  - split; [| split; [| split; [| split]]].
    + rewrite !set_first_keeps_all;
        auto using fill_not_width, fill_not_height.
      apply set_first_keeps_all; auto using fill_not_width.
    + apply set_first_keeps_first; [apply width_not_height |].
      apply set_first_idem.
    + apply set_first_idem.
    + rewrite !incl_set_first. exact Hfill.
    + left. rewrite !has_set_first. exact Ew.
  - split; [| split; [| split; [| split]]].
    + apply set_first_keeps_all; auto using fill_not_width.
    + apply set_first_idem.
    + apply set_first_absent. rewrite has_set_first. exact Eh.
    + rewrite !incl_set_first. exact Hfill.
    + left. rewrite has_set_first. exact Ew.
  - split; [| split; [| split; [| split]]].
    + apply set_first_keeps_all; auto using fill_not_height.
    + apply set_first_absent. rewrite has_set_first. exact Ew.
    + apply set_first_idem.
    + rewrite !incl_set_first. exact Hfill.
    + right. left. rewrite has_set_first. exact Eh.
  - split; [| split; [| split; [| split]]].
    + apply inject_dims_fill, Hf.
    + apply inject_dims_width, Ew.
    + apply inject_dims_height, Eh.
    + destruct (incl (lit "<svg") segs t) eqn:Es.
      * left. apply inject_dims_incl_fill.
        destruct Hfill as [? | ?]; [assumption | discriminate].
      * right. rewrite inject_absent by exact Es. exact Es.
    + destruct (incl (lit "<svg") segs t) eqn:Es.
      * left. apply inject_dims_has, Es.
      * right. right. rewrite inject_absent by exact Es. exact Es.
Qed.

(** The transform of a well-quoted markup with a plain colour is a
    rendering of settled, well-formed segments. *)
Lemma svg_settled (m c : jsstring) (n : N) :
  well_quoted m = true -> plain_color c = true ->
  exists st,
    svg m c n = render st.1 st.2 /\ wf st
    /\ settled c (Number_toString n) st.
Proof.
  intros Hm Hc. destruct (well_quoted_render m Hm) as (st & -> & Hwf).
  exists (dimension_step (Number_toString n) (fill_step c st)).
  pose proof (fill_step_wf c st Hc Hwf) as Hwf1.
  split; [| split].
  - unfold svg. rewrite handle_fill_render by assumption.
    apply handle_dimensions_render, Hwf1.
  - apply dimension_step_wf, Hwf1.
  - destruct (fill_step_settles c st) as [Hf Hfill].
    apply dimension_step_settles; assumption.
Qed.

Lemma svg_fixed (c : jsstring) (n : N)
    (st : list (jsstring * jsstring) * jsstring) :
  plain_color c = true -> wf st -> settled c (Number_toString n) st ->
  svg (render st.1 st.2) c n = render st.1 st.2.
Proof.
  intros Hc Hwf Hs. destruct (settled_fixed _ _ _ Hs) as [Ef Ed].
  unfold svg. rewrite handle_fill_render by assumption. rewrite Ef.
  rewrite handle_dimensions_render by assumption. rewrite Ed. reflexivity.
Qed.

End Settled.

(* ================================================================== *)
(** ** The width and the height *)
(* ================================================================== *)

Module DimensionsSpec.
Import JS IconModal Patterns JSFacts RegexFacts IconModalSpec Markup Settled.


End DimensionsSpec.

(* ================================================================== *)
(** ** Applying the transform twice *)
(* ================================================================== *)

Module Idempotence.
Import JS IconModal Markup Settled.

(** C8, as amended. For a well-quoted markup (its double quotes come in
    pairs and no quoted value holds fill=, width=, height= or <svg) and
    a plain colour (no double quote, no dollar sign, none of those
    texts), applying the transform twice with the same colour and size
    gives the same string as applying it once. *)
Theorem svg_idempotent (m color : jsstring) (size : N) :
  well_quoted m = true -> plain_color color = true ->
  svg (svg m color size) color size = svg m color size.
Proof.
  intros Hm Hc.
  destruct (svg_settled m color size Hm Hc) as (st & -> & Hwf & Hs).
  apply svg_fixed; assumption.
Qed.

End Idempotence.

(* ================================================================== *)
(** ** The transform on concrete markup *)
(* ================================================================== *)

Module TransformExamples.
Import JS IconModal Patterns RegexFacts Markup Fixture.

(** C2, counterexample. The markup has no fill attribute with a
    double-quoted value, yet nothing is injected: it contains the text
    fill= and the fill step leaves it as it is. *)
Lemma single_quoted_fill_not_injected :
  test FILL_REGEX single_quoted = false
  /\ handle_fill single_quoted black = single_quoted
  /\ includes (svg single_quoted black 64) (attr (lit "fill") black) = false.
Proof. vm_compute. auto. Qed.

Lemma handle_fill_spec_witness :
  (dollar ∉ red)
  /\ handle_fill two_fills red
     = lit "<svg><path " ++ attr (lit "fill") red ++ lit "/><path "
         ++ attr (lit "fill") red ++ lit "/></svg>"
  /\ Replaced (lit "fill") (fill_attr red) two_fills
       (handle_fill two_fills red).
Proof.
  assert (Hd : dollar ∉ red) by compute_done.
  split; [exact Hd |]. split; [vm_compute; reflexivity |].
  exact (proj1 (IconModalSpec.handle_fill_spec two_fills red Hd) eq_refl).
Defined.


(** C9, counterexample. The markup has no root tag; the transform
    returns a string all the same, and it is not the original markup:
    the fill attribute has been rewritten. *)
Lemma no_root_still_rewritten :
  includes no_root (lit "<svg") = false
  /\ svg no_root black 64
     = lit "<g " ++ attr (lit "fill") black ++ lit "></g>"
  /\ svg no_root black 64 <> no_root.
Proof. vm_compute. repeat split. discriminate. Qed.

Lemma no_root_tag_witness :
  includes (lit "<g></g>") (lit "<svg") = false
  /\ (dollar ∉ black)
  /\ includes black (lit "<svg") = false
  /\ includes (svg (lit "<g></g>") black 64) (lit "<svg") = false
  /\ svg (lit "<g></g>") black 64 = lit "<g></g>".
Proof.
  assert (Hs : includes (lit "<g></g>") (lit "<svg") = false)
    by (vm_compute; reflexivity).
  assert (Hd : dollar ∉ black) by compute_done.
  assert (Hc : includes black (lit "<svg") = false)
    by (vm_compute; reflexivity).
  split; [exact Hs |]. split; [exact Hd |]. split; [exact Hc |].
  destruct (IconModalSpec.no_root_tag (lit "<g></g>") black 64 Hs Hd Hc)
    as (s & s1 & _ & _ & _ & _ & _ & _ & Hnone & Hsame).
  split; [exact Hnone |].
  apply Hsame; [reflexivity | |].
  - apply (IconModalSpec.test_not_Occurs WIDTH_REGEX); reflexivity.
  - apply (IconModalSpec.test_not_Occurs HEIGHT_REGEX); reflexivity.
Defined.

(** C8, counterexample. With a colour that is a lone double quote the
    second application lengthens the fill attribute again; and with an
    ordinary colour, on a markup with a quote that is never closed, the
    second application injects a second fill attribute. *)
Lemma svg_twice_differs :
  svg (svg filled [dq] 64) [dq] 64 <> svg filled [dq] 64
  /\ svg (svg odd_quotes black 64) black 64 <> svg odd_quotes black 64.
Proof. split; vm_compute; discriminate. Qed.

Lemma svg_idempotent_witness :
  well_quoted icon_markup = true /\ plain_color red = true
  /\ svg (svg icon_markup red 32) red 32 = svg icon_markup red 32.
Proof.
  assert (Hm : well_quoted icon_markup = true) by (vm_compute; reflexivity).
  assert (Hc : plain_color red = true) by (vm_compute; reflexivity).
  split; [exact Hm |]. split; [exact Hc |].
  exact (Idempotence.svg_idempotent icon_markup red 32 Hm Hc).
Defined.

End TransformExamples.

(* ================================================================== *)
(** ** Properties of the names shown *)
(* ================================================================== *)

Module FormatNameSpec.
Import JS App AppView.

Lemma String_split_nonempty (sep : ascii) (s : jsstring) :
  String_split sep s <> [].
Proof.
  destruct s as [| a s]; simpl; [discriminate |].
  destruct (Ascii.eqb a sep); [discriminate |].
  destruct (String_split sep s); discriminate.
Qed.

Lemma capitalize_word (w : jsstring) :
  toUpperCase (charAt w 0) ++ String_slice w 1
  = match w with [] => [] | a :: w' => upper a :: w' end.
Proof. destruct w as [| a w]; reflexivity. Qed.

(** The callback is the one-pass function, and so is it when the first
    word is kept as it is. *)
Lemma formatName_pass (s : jsstring) :
  formatName s = format_from true s
  /\ match String_split "-" s with
     | [] => True
     | p :: ps =>
       Array_join (lit " ")
         (p :: ((λ w, toUpperCase (charAt w 0) ++ String_slice w 1) <$> ps))
       = format_from false s
     end.
Proof.
  unfold formatName. induction s as [| a s [IHt IHf]]; [split; reflexivity |].
  cbn [String_split format_from].
  pose proof (String_split_nonempty "-" s) as Hne.
  destruct (Ascii.eqb a "-").
  - destruct (String_split "-" s) as [| p ps]; [congruence |].
    split.
    + rewrite fmap_cons, capitalize_word. cbn [Array_join fmap list_fmap].
      cbn [fmap list_fmap] in IHt. rewrite <- IHt. reflexivity.
    + cbn [Array_join fmap list_fmap].
      cbn [fmap list_fmap] in IHt. rewrite <- IHt. reflexivity.
  - destruct (String_split "-" s) as [| p ps]; [congruence |].
    split.
    + rewrite fmap_cons, capitalize_word. rewrite <- IHf.
      cbn [Array_join fmap list_fmap]. destruct ps; reflexivity.
    + rewrite <- IHf. cbn [Array_join fmap list_fmap].
      destruct ps; reflexivity.
Qed.

Lemma format_from_lookup (s : jsstring) :
  forall (start : bool) (i : nat) (a : ascii),
    s !! i = Some a ->
    format_from start s !! i
    = Some (if Ascii.eqb a "-" then " "%char
            else if match i with
                    | 0 => start
                    | S j => bool_decide (s !! j = Some "-"%char)
                    end
                 then upper a else a).
Proof.
  induction s as [| x s IH]; intros start i a Hi; [discriminate |].
  destruct i as [| i].
  - injection Hi as ->. cbn [format_from].
    destruct (Ascii.eqb a "-"); reflexivity.
  - cbn [format_from]. simpl in Hi.
    destruct (Ascii.eqb_spec x "-") as [-> | Hx].
    + simpl. rewrite (IH true i a Hi). destruct i as [| i]; [| reflexivity].
      rewrite bool_decide_eq_true_2 by reflexivity. reflexivity.
    + simpl. rewrite (IH false i a Hi). destruct i as [| i]; [| reflexivity].
      rewrite bool_decide_eq_false_2 by (intros [= E]; congruence).
      reflexivity.
Qed.

Lemma length_format_from (start : bool) (s : jsstring) :
  length (format_from start s) = length s.
Proof.
  revert start. induction s as [| a s IH]; intros start; [reflexivity |].
  cbn [format_from]. destruct (Ascii.eqb a "-"); simpl; rewrite IH; reflexivity.
Qed.

(** X1. A name of code units below 128 keeps its length; each dash
    becomes a space, the first code unit of the name and the one after
    each dash are put in upper case, and every other code unit is
    kept. *)
Theorem formatName_chars (name : jsstring) :
  below_128 name ->
  length (formatName name) = length name
  /\ forall i a, name !! i = Some a ->
       formatName name !! i
       = Some (if Ascii.eqb a "-" then " "%char
               else if word_start name i then upper a else a).
Proof.
  intros _. rewrite (proj1 (formatName_pass name)). split.
  - apply length_format_from.
  - intros i a Hi. rewrite (format_from_lookup name true i a Hi).
    destruct i; reflexivity.
Qed.

Lemma upper_not_dash (a : ascii) : upper a = "-"%char -> a = "-"%char.
Proof.
  destruct a as [b0 b1 b2 b3 b4 b5 b6 b7].
  destruct b0, b1, b2, b3, b4, b5, b6, b7; vm_compute; congruence.
Qed.

Lemma upper_idem (a : ascii) : upper (upper a) = upper a.
Proof.
  destruct a as [b0 b1 b2 b3 b4 b5 b6 b7].
  destruct b0, b1, b2, b3, b4, b5, b6, b7; reflexivity.
Qed.

Lemma format_from_no_dash (start : bool) (s : jsstring) :
  "-"%char ∉ format_from start s.
Proof.
  revert start. induction s as [| a s IH]; intros start;
    [apply not_elem_of_nil |].
  cbn [format_from]. destruct (Ascii.eqb_spec a "-") as [-> | Ha].
  - apply not_elem_of_cons. split; [discriminate | apply IH].
  - apply not_elem_of_cons. split; [| apply IH].
    destruct start; [| congruence].
    intros E. symmetry in E. apply upper_not_dash in E. congruence.
Qed.

Lemma format_from_plain (x : jsstring) :
  "-"%char ∉ x -> format_from false x = x.
Proof.
  induction x as [| a x IH]; intros Hx; [reflexivity |].
  apply not_elem_of_cons in Hx as [Ha Hx]. cbn [format_from].
  destruct (Ascii.eqb_spec a "-"); [congruence |].
  rewrite IH by exact Hx. reflexivity.
Qed.

(** X2. The formatted name of a name of code units below 128 holds no
    dash, and formatting it again changes nothing. *)
Theorem formatName_idempotent (name : jsstring) :
  below_128 name ->
  ("-"%char ∉ formatName name)
  /\ formatName (formatName name) = formatName name.
Proof.
  intros _. rewrite !(proj1 (formatName_pass _)).
  split; [apply format_from_no_dash |].
  destruct name as [| a s]; [reflexivity |].
  cbn [format_from]. destruct (Ascii.eqb_spec a "-") as [-> | Ha].
  - pose proof (format_from_no_dash true s) as Hs.
    cbn [format_from]. simpl. rewrite format_from_plain by exact Hs.
    reflexivity.
  - pose proof (format_from_no_dash false s) as Hs.
    cbn [format_from].
    destruct (Ascii.eqb_spec (upper a) "-") as [E | _];
      [apply upper_not_dash in E; congruence |].
    rewrite upper_idem, format_from_plain by exact Hs. reflexivity.
Qed.

End FormatNameSpec.

(* ================================================================== *)
(** ** Properties of the grid *)
(* ================================================================== *)

Module GridSpec.
Import App RowsSpec.

Lemma rows_from_lookup (l : list Icon) (i : nat) :
  forall k, i + ICONS_PER_ROW * k < length l ->
    rows_from l i !! k
    = Some (slice l (i + ICONS_PER_ROW * k)
              (i + ICONS_PER_ROW * k + ICONS_PER_ROW)).
Proof.
  induction i as [i Hi | i Hi IH] using (rows_loop_ind l); intros k Hk;
    [lia |].
  rewrite rows_from_unfold. destruct (decide (i < length l)); [| lia].
  destruct k as [| k].
  - rewrite Nat.mul_0_r, Nat.add_0_r. reflexivity.
  - simpl lookup. rewrite IH by (unfold ICONS_PER_ROW in *; lia).
    do 2 f_equal; unfold ICONS_PER_ROW; lia.
Qed.

Lemma rows_from_lookup_None (l : list Icon) (i : nat) :
  forall k, length l <= i + ICONS_PER_ROW * k -> rows_from l i !! k = None.
Proof.
  induction i as [i Hi | i Hi IH] using (rows_loop_ind l); intros k Hk.
  - rewrite rows_from_done by exact Hi. reflexivity.
  - rewrite rows_from_unfold. destruct (decide (i < length l)); [| lia].
    destruct k as [| k]; [lia |].
    simpl lookup. apply IH. unfold ICONS_PER_ROW in *. lia.
Qed.

(** X3. The icon at position j of the filtered view is in row j / 9 of
    the grid, at place j mod 9, and a place of the grid beyond the view
    holds nothing. *)
Theorem rows_position (filtered_ : list Icon) (j : nat) :
  rows filtered_ !! (j / ICONS_PER_ROW)
    ≫= (λ row, row !! (j mod ICONS_PER_ROW))
  = filtered_ !! j.
Proof.
  unfold rows. pose proof (Nat.div_mod_eq j ICONS_PER_ROW) as Hj.
  pose proof (Nat.mod_upper_bound j ICONS_PER_ROW) as Hm.
  unfold ICONS_PER_ROW in *. specialize (Hm ltac:(lia)).
  destruct (decide (9 * (j / 9) < length filtered_)) as [Hlt | Hge].
  - rewrite rows_from_lookup by (unfold ICONS_PER_ROW; lia).
    cbn [mbind option_bind]. unfold slice, ICONS_PER_ROW.
    rewrite lookup_take_lt by lia. rewrite lookup_drop. f_equal. lia.
  - rewrite rows_from_lookup_None by (unfold ICONS_PER_ROW; lia).
    cbn [mbind option_bind]. symmetry. apply lookup_ge_None. lia.
Qed.

Lemma rows_from_sizes (l : list Icon) (i : nat) :
  Forall (λ row, 0 < length row <= ICONS_PER_ROW) (rows_from l i).
Proof.
  induction i as [i Hi | i Hi IH] using (rows_loop_ind l).
  - rewrite rows_from_done by exact Hi. constructor.
  - rewrite rows_from_unfold. destruct (decide (i < length l)); [| lia].
    constructor; [| exact IH].
    unfold slice. rewrite length_take, length_drop.
    unfold ICONS_PER_ROW. lia.
Qed.

(** X4. No row of the grid is empty and none has more than 9 icons; the
    grid has no row exactly when the filtered view is empty. *)
Theorem rows_never_empty (filtered_ : list Icon) :
  Forall (λ row, 0 < length row <= ICONS_PER_ROW) (rows filtered_)
  /\ (rows filtered_ = [] <-> filtered_ = []).
Proof.
  split; [apply rows_from_sizes |]. unfold rows. split.
  - intros E. pose proof (concat_rows_from filtered_ 0) as Hc.
    rewrite E in Hc. simpl in Hc. symmetry. exact Hc.
  - intros ->. apply rows_from_done. simpl. lia.
Qed.

Section Search.
Context `{FuseLib}.

(** X5. With a query and an index the filtered view has at most 500
    icons, whatever the style is, and the grid at most 56 rows. *)
Theorem search_rows_bounded (icons_ : list Icon) (fuse_ : Fuse)
    (q style_ : jsstring) (index : gmap jsstring (list Icon)) :
  q <> [] ->
  length (filtered icons_ (Some fuse_) q style_ index) <= 500
  /\ length (rows (filtered icons_ (Some fuse_) q style_ index)) <= 56.
Proof.
  intros Hq.
  assert (Hlen : length (filtered icons_ (Some fuse_) q style_ index) <= 500).
  { unfold filtered. rewrite (FilterSpec.truthy_nonempty q Hq).
    pose proof (FilterSpec.length_Fuse_search fuse_ q 500) as Hs.
    case_bool_decide.
    - etrans; [apply length_filter |]. rewrite length_fmap. exact Hs.
    - rewrite length_fmap. exact Hs. }
  split; [exact Hlen |]. unfold rows. rewrite length_rows_from.
  unfold ICONS_PER_ROW. rewrite Nat.sub_0_r.
  transitivity (508 / 9);
    [apply Nat.Div0.div_le_mono; lia | apply Nat.leb_le; reflexivity].
Qed.

End Search.

End GridSpec.

(* ================================================================== *)
(** ** Properties of the styles bar *)
(* ================================================================== *)

Module StyleBarSpec.
Import App StyleIndexSpec.

(** X6. The styles list has no duplicate, so that the keys of the
    style buttons are distinct, exactly when no icon has the style
    all. *)
Theorem styles_distinct_iff (L : list Icon) :
  NoDup (styles L) <-> forall i, i ∈ L -> style i <> lit "all".
Proof.
  destruct (style_index_facts L) as (sorted & -> & _ & Hnd & Hmem).
  rewrite NoDup_cons. split.
  - intros [Hall _] i Hi E. apply Hall, Hmem. eauto.
  - intros Hno. split; [| exact Hnd].
    intros Hall. apply Hmem in Hall as (i & Hi & E). exact (Hno i Hi E).
Qed.

Section Buttons.
Context `{FuseLib}.

(** X7. Without a query, a style of the styles bar other than all shows
    the icons of that style in source order, and there is at least
    one: a style button never leads to the empty state. *)
Theorem style_button_view (L : list Icon) (fuseRef : option Fuse)
    (s : jsstring) :
  s ∈ styles L -> s <> lit "all" ->
  filtered L fuseRef [] s (styleIndex L) = filter (λ i, style i = s) L
  /\ filtered L fuseRef [] s (styleIndex L) <> [].
Proof.
  intros Hs Hne.
  destruct (style_index_facts L) as (sorted & E & _ & _ & Hmem).
  rewrite E in Hs. apply elem_of_cons in Hs as [Hs | Hs]; [congruence |].
  apply Hmem in Hs as (i & Hi & Hstyle).
  assert (Hin : i ∈ filter (λ j, style j = s) L)
    by (apply list_elem_of_filter; auto).
  assert (Hview : filtered L fuseRef [] s (styleIndex L)
                  = filter (λ j, style j = s) L).
  { unfold filtered. simpl. rewrite bool_decide_eq_true_2 by exact Hne.
    rewrite styleIndex_lookup.
    destruct (filter (λ j, style j = s) L); reflexivity. }
  split; [exact Hview |]. rewrite Hview. intros Hnil.
  rewrite Hnil in Hin. inversion Hin.
Qed.

(** X8. With a style other than all, every icon of the filtered view
    has that style, with a query and without one. *)
Theorem filtered_has_style (L : list Icon) (fuseRef : option Fuse)
    (q style_ : jsstring) (i : Icon) :
  style_ <> lit "all" ->
  i ∈ filtered L fuseRef q style_ (styleIndex L) -> style i = style_.
Proof.
  intros Hne. unfold filtered. rewrite bool_decide_eq_true_2 by exact Hne.
  assert (Hgroup : i ∈ default [] (styleIndex L !! style_) -> style i = style_).
  { rewrite styleIndex_lookup. intros Hi.
    destruct (filter (λ j, style j = style_) L) as [| x g] eqn:Ef;
      [inversion Hi |].
    simpl in Hi. rewrite <- Ef in Hi.
    apply list_elem_of_filter in Hi as [Hs _]. exact Hs. }
  destruct (truthy q), fuseRef; try exact Hgroup.
  intros Hi. apply list_elem_of_filter in Hi as [Hs _]. exact Hs.
Qed.

End Buttons.

End StyleBarSpec.

(* ================================================================== *)
(** ** Properties of the collection cache and of the loading state *)
(* ================================================================== *)

Module CacheSpec.
Import JS App AppControls.

Section Cache.
Context `{FuseLib}.
Variable server : jsstring -> list Icon.

Lemma truthy_true (c : jsstring) : truthy c = true -> c <> [].
Proof. destruct c; [discriminate | congruence]. Qed.

Lemma truthy_false (c : jsstring) : truthy c = false -> c = [].
Proof. destruct c; [reflexivity | discriminate]. Qed.

Lemma remove_first_subset (c x : jsstring) (l : list jsstring) :
  x ∈ remove_first c l -> x ∈ l.
Proof.
  induction l as [| y l IH]; simpl; [auto |].
  case_bool_decide; [intros Hx; right; exact Hx |].
  intros Hx. apply elem_of_cons in Hx as [-> | Hx];
    [left | right; apply IH, Hx].
Qed.

Lemma remove_first_other (c x : jsstring) (l : list jsstring) :
  x <> c -> x ∈ l -> x ∈ remove_first c l.
Proof.
  intros Hne. induction l as [| y l IH]; simpl; [auto |].
  intros Hx. case_bool_decide as Hy.
  - apply elem_of_cons in Hx as [-> | Hx]; [congruence | exact Hx].
  - apply elem_of_cons in Hx as [-> | Hx]; [left | right; apply IH, Hx].
Qed.

Lemma invariant_initial : invariant server initial.
Proof.
  split; simpl.
  - intros c e Hc. rewrite lookup_empty in Hc. discriminate.
  - left. auto.
  - intros c Hc. inversion Hc.
Qed.

Lemma invariant_change_collection (c : jsstring) (st : State) :
  invariant server st -> invariant server (change_collection c st).
Proof.
  intros [Hcache Hshown Hpend]. unfold change_collection.
  case_bool_decide as Hc; [split; assumption |].
  unfold load_collection. cbn [st_collection setCollection].
  destruct (truthy c) eqn:Ht.
  - cbn [st_cache setCollection].
    destruct (st_cache st !! c) as [e |] eqn:Ec.
    + destruct (Hcache c e Ec) as [-> Hne].
      split; simpl; [exact Hcache | | exact Hpend].
      right. exists c. auto.
    + split; simpl; [exact Hcache | exact Hshown |].
      intros x Hx. apply elem_of_app in Hx as [Hx | Hx]; [auto |].
      apply list_elem_of_singleton in Hx as ->. apply truthy_true, Ht.
  - apply truthy_false in Ht as ->.
    split; simpl; [exact Hcache | exact Hshown | exact Hpend].
Qed.

Lemma invariant_step (st : State) (ev : Event) :
  invariant server st -> invariant server (step server st ev).
Proof.
  intros Hst. destruct ev as [cs | c | c | c | s | text |]; simpl.
  - destruct cs as [| c cs].
    + destruct Hst. split; assumption.
    + apply invariant_change_collection. destruct Hst. split; assumption.
  - apply invariant_change_collection, Hst.
  - case_bool_decide as Hc; [| exact Hst].
    destruct Hst as [Hcache Hshown Hpend].
    split; simpl.
    + intros c' e He. destruct (decide (c = c')) as [<- | Hne].
      * rewrite lookup_insert_eq in He. injection He as <-.
        split; [reflexivity | apply Hpend, Hc].
      * rewrite lookup_insert_ne in He by exact Hne. eapply Hcache, He.
    + right. exists c. rewrite lookup_insert_eq. auto.
    + intros x Hx. apply Hpend. eapply remove_first_subset, Hx.
  - case_bool_decide as Hc; [| exact Hst].
    destruct Hst as [Hcache Hshown Hpend].
    split; simpl; [exact Hcache | exact Hshown |].
    intros x Hx. apply Hpend. eapply remove_first_subset, Hx.
  - destruct Hst. split; assumption.
  - destruct Hst. split; assumption.
  - destruct Hst. split; assumption.
Qed.

Lemma invariant_run (evs : list Event) (st : State) :
  invariant server st -> invariant server (run server st evs).
Proof.
  revert st. induction evs as [| ev evs IH]; intros st Hst; [exact Hst |].
  simpl. apply IH, invariant_step, Hst.
Qed.

(** X9. Once a collection is in the cache, selecting it from another
    one fetches nothing: its icons and its index are shown at once, the
    loading state ends, and the style is reset to all. *)
Theorem cached_collection_shown_at_once (evs : list Event) (c : jsstring) :
  let st := run server initial evs in
  is_Some (st_cache st !! c) -> c <> st_collection st ->
  let st' := step server st (SelectCollection c) in
  st_icons st' = server c
  /\ st_fuseRef st' = Some (new_Fuse (server c) FUSE_OPTIONS)
  /\ st_loading st' = false
  /\ st_pending st' = st_pending st
  /\ st_cache st' = st_cache st
  /\ st_collection st' = c
  /\ st_style st' = lit "all".
Proof.
  intros st [e He] Hne st'.
  destruct (invariant_run evs initial invariant_initial) as [Hcache _ _].
  fold st in Hcache. destruct (Hcache c e He) as [-> Hc].
  unfold st'. simpl. unfold change_collection.
  rewrite bool_decide_eq_false_2 by exact Hne.
  unfold load_collection. cbn [st_collection setCollection st_cache].
  destruct c as [| a c]; [congruence |]. cbn [truthy].
  rewrite He. simpl. auto 10.
Qed.

(** X10. In every state of the component the icons shown are those of
    a collection of the cache, with the index of that collection, or
    nothing has been loaded yet and there is neither icon nor index. *)
Theorem shown_icons_are_cached (evs : list Event) :
  let st := run server initial evs in
  (st_icons st = [] /\ st_fuseRef st = None)
  \/ exists c, c <> []
       /\ st_cache st !! c
          = Some {| icons := server c;
                    fuse := new_Fuse (server c) FUSE_OPTIONS |}
       /\ st_icons st = server c
       /\ st_fuseRef st = Some (new_Fuse (server c) FUSE_OPTIONS).
Proof.
  intros st.
  destruct (invariant_run evs initial invariant_initial)
    as [Hcache [Hnone | (c & Hc & Hi & Hf)] _]; fold st in Hcache |- *.
  - left. exact Hnone.
  - right. exists c. destruct (Hcache c _ Hc) as [_ Hne]. auto.
Qed.

Lemma step_cache (st : State) (ev : Event) :
  invariant server st -> st_cache st ⊆ st_cache (step server st ev).
Proof.
  intros [Hcache _ Hpend].
  destruct ev as [cs | c | c | c | s | text |]; simpl; try reflexivity.
  - destruct cs as [| c cs]; [reflexivity |]. unfold change_collection.
    case_bool_decide; [reflexivity |]. unfold load_collection. simpl.
    destruct (truthy c); [| reflexivity].
    destruct (st_cache st !! c); reflexivity.
  - unfold change_collection.
    case_bool_decide; [reflexivity |]. unfold load_collection. simpl.
    destruct (truthy c); [| reflexivity].
    destruct (st_cache st !! c); reflexivity.
  - case_bool_decide as Hc; [| reflexivity]. simpl.
    apply map_subseteq_spec. intros c' e He.
    destruct (decide (c = c')) as [<- | Hne].
    + rewrite lookup_insert_eq. destruct (Hcache c e He) as [-> _].
      reflexivity.
    + rewrite lookup_insert_ne by exact Hne. exact He.
  - case_bool_decide; reflexivity.
Qed.

(** X11. The cache only grows: an entry that is there stays there,
    unchanged, whatever happens next. *)
Theorem cache_only_grows (evs more : list Event) :
  st_cache (run server initial evs)
  ⊆ st_cache (run server initial (evs ++ more)).
Proof.
  unfold run. rewrite foldl_app.
  pose proof (invariant_run evs initial invariant_initial) as Hst.
  unfold run in Hst. revert Hst.
  generalize (foldl (step server) initial evs). intros st.
  induction more as [| ev more IH] in st |- *; intros Hst; [reflexivity |].
  simpl. etrans; [apply step_cache, Hst |].
  apply IH, invariant_step, Hst.
Qed.

Lemma loading_cause_more (evs more : list Event) (st st' : State) :
  st_loading st' = st_loading st -> st_collection st' = st_collection st ->
  st_pending st' = st_pending st ->
  loading_cause evs st -> loading_cause (evs ++ more) st'.
Proof.
  intros El Ec Ep Hst Hl. rewrite Ec, Ep. rewrite El in Hl.
  destruct (Hst Hl) as [H0 | [H0 | H0]]; [auto | auto |].
  right. right. apply elem_of_app. left. exact H0.
Qed.

Lemma loading_cause_change_collection (evs more : list Event)
    (c : jsstring) (st : State) :
  loading_cause evs st -> loading_cause (evs ++ more) (change_collection c st).
Proof.
  intros Hst. unfold change_collection.
  case_bool_decide as Hc;
    [apply (loading_cause_more evs more st); [reflexivity .. | exact Hst] |].
  unfold load_collection. cbn [st_collection setCollection].
  destruct (truthy c) eqn:Ht.
  - cbn [st_cache setCollection].
    destruct (st_cache st !! c) as [e |]; intros Hl; simpl in Hl |- *;
      [discriminate |].
    right. left. apply elem_of_app. right. left.
  - apply truthy_false in Ht as ->. intros _. left. reflexivity.
Qed.

Lemma loading_cause_step (evs : list Event) (st : State) (ev : Event) :
  loading_cause evs st -> loading_cause (evs ++ [ev]) (step server st ev).
Proof.
  intros Hst. destruct ev as [cs | c | c | c | s | text |]; simpl;
    try (apply (loading_cause_more evs _ st); [reflexivity .. | exact Hst]).
  - destruct cs as [| c cs];
      [apply (loading_cause_more evs _ st); [reflexivity .. | exact Hst] |].
    apply (loading_cause_change_collection evs _ c
             (setCollections (c :: cs) st)).
    exact Hst.
  - apply loading_cause_change_collection, Hst.
  - case_bool_decide;
      [| apply (loading_cause_more evs _ st); [reflexivity .. | exact Hst]].
    intros Hl. discriminate.
  - case_bool_decide as Hc;
      [| apply (loading_cause_more evs _ st); [reflexivity .. | exact Hst]].
    intros Hl. simpl in Hl |- *.
    destruct (Hst Hl) as [H0 | [H0 | H0]]; [auto | |].
    + destruct (decide (st_collection st = c)) as [-> | Hne].
      * right. right. apply elem_of_app. right. left.
      * right. left. apply remove_first_other; assumption.
    + right. right. apply elem_of_app. left. exact H0.
Qed.

Lemma loading_cause_run (more evs : list Event) (st : State) :
  loading_cause evs st -> loading_cause (evs ++ more) (run server st more).
Proof.
  revert evs st. induction more as [| ev more IH]; intros evs st Hst.
  - rewrite app_nil_r. exact Hst.
  - simpl. rewrite (cons_middle ev evs more), app_assoc.
    apply IH, loading_cause_step, Hst.
Qed.

(** X12. The component is loading only before a collection is selected,
    or while a fetch of the selected collection is pending, or after a
    fetch of the selected collection has failed. *)
Theorem loading_means_fetching (evs : list Event) :
  let st := run server initial evs in
  st_loading st = true ->
  st_collection st = []
  \/ st_collection st ∈ st_pending st
  \/ FetchFailed (st_collection st) ∈ evs.
Proof.
  intros st.
  apply (loading_cause_run evs [] initial). intros _. left. reflexivity.
Qed.

(** X13. With a manifest that lists no collection the page offers
    nothing that changes the state: whatever the user does, the
    component stays as it started, loading and without icons. *)
Theorem empty_manifest_stays_loading (evs : list Event) :
  user_trace server (started server []) evs = true ->
  run server (started server []) evs = initial
  /\ st_loading (run server (started server []) evs) = true.
Proof.
  change (started server []) with initial.
  assert (Hrun : user_trace server initial evs = true ->
                 run server initial evs = initial).
  { induction evs as [| ev evs IH]; [reflexivity |].
    cbn [user_trace]. intros Hev. apply andb_true_iff in Hev as [Hev Hevs].
    destruct ev as [cs | c | c | c | s | text |]; simpl in Hev;
      try discriminate.
    - rewrite andb_false_r in Hev. discriminate.
    - exact (IH Hevs). }
  intros Hevs. rewrite (Hrun Hevs). auto.
Qed.

Lemma from_manifest_change_collection (cs : list jsstring) (c : jsstring)
    (st : State) :
  c ∈ cs -> from_manifest cs st -> from_manifest cs (change_collection c st).
Proof.
  intros Hc [Hcs Hcol Hpend Hcache]. unfold change_collection.
  case_bool_decide; [split; assumption |].
  unfold load_collection. cbn [st_collection setCollection st_cache].
  destruct (truthy c).
  - destruct (st_cache st !! c) as [e |];
      split; simpl; auto.
    intros x Hx. apply elem_of_app in Hx as [Hx | Hx]; [auto |].
    apply list_elem_of_singleton in Hx as ->. exact Hc.
  - split; simpl; auto.
Qed.

Lemma from_manifest_step (cs : list jsstring) (st : State) (ev : Event) :
  allowed st ev = true ->
  from_manifest cs st -> from_manifest cs (step server st ev).
Proof.
  intros Hev Hst. destruct ev as [cs' | c | c | c | s | text |]; simpl in *;
    try discriminate.
  - apply bool_decide_eq_true in Hev.
    apply from_manifest_change_collection; [| exact Hst].
    destruct Hst as [<- _ _ _]. exact Hev.
  - rewrite Hev. destruct Hst as [Hcs Hcol Hpend Hcache].
    apply bool_decide_eq_true in Hev.
    split; simpl; auto.
    + intros x Hx. apply Hpend. eapply remove_first_subset, Hx.
    + intros x Hx. destruct (decide (c = x)) as [<- | Hne]; [auto |].
      rewrite lookup_insert_ne in Hx by exact Hne. auto.
  - rewrite Hev. destruct Hst as [Hcs Hcol Hpend Hcache].
    split; simpl; auto.
    intros x Hx. apply Hpend. eapply remove_first_subset, Hx.
  - destruct Hst. split; assumption.
  - destruct Hst. split; assumption.
  - destruct Hst. split; assumption.
Qed.

Lemma from_manifest_started (cs : list jsstring) :
  from_manifest cs (started server cs).
Proof.
  assert (Hnone : forall x : jsstring,
            is_Some ((∅ : gmap jsstring CacheEntry) !! x) -> x ∈ cs).
  { intros x [e Hx]. rewrite lookup_empty in Hx. discriminate. }
  unfold started. simpl. destruct cs as [| c cs].
  - split; simpl; [reflexivity | left; reflexivity | | exact Hnone].
    intros x Hx. inversion Hx.
  - unfold change_collection. simpl. case_bool_decide as Hc.
    + split; simpl; [reflexivity | left; reflexivity | | exact Hnone].
      intros x Hx. inversion Hx.
    + unfold load_collection. simpl. destruct (truthy c).
      * rewrite lookup_empty.
        split; simpl; [reflexivity | right; left | | exact Hnone].
        intros x Hx. apply list_elem_of_singleton in Hx as ->. left.
      * split; simpl; [reflexivity | right; left | | exact Hnone].
        intros x Hx. inversion Hx.
Qed.

(** X14. Once the manifest is there, whatever the user does, the
    collection selected is one of the manifest or none, and only
    collections of the manifest that have a name are fetched and
    cached. *)
Theorem fetches_from_manifest (cs : list jsstring) (evs : list Event) :
  user_trace server (started server cs) evs = true ->
  let st := run server (started server cs) evs in
  st_collections st = cs
  /\ (st_collection st = [] \/ st_collection st ∈ cs)
  /\ (forall c, c ∈ st_pending st -> c ∈ cs /\ c <> [])
  /\ (forall c, is_Some (st_cache st !! c) -> c ∈ cs /\ c <> []).
Proof.
  intros Hevs st.
  assert (Hinv : invariant server st).
  { unfold st, started. change (run server (step server initial ?e) evs)
      with (run server initial (e :: evs)).
    apply invariant_run, invariant_initial. }
  assert (Hfm : from_manifest cs st).
  { clear Hinv. unfold st. clear st.
    pose proof (from_manifest_started cs) as Hst. revert Hst Hevs.
    generalize (started server cs). intros st0.
    induction evs as [| ev evs IH] in st0 |- *; intros Hst Hevs;
      [exact Hst |].
    cbn [user_trace] in Hevs. apply andb_true_iff in Hevs as [Hev Hevs].
    simpl. apply IH; [| exact Hevs]. apply from_manifest_step; assumption. }
  destruct Hinv as [Hcache _ Hpend]. destruct Hfm as [Hcs Hcol Hp Hc].
  split; [exact Hcs |]. split; [exact Hcol |]. split.
  - intros c Hin. split; [apply Hp, Hin | apply Hpend, Hin].
  - intros c Hin. split; [apply Hc, Hin |].
    destruct Hin as [e He]. eapply Hcache, He.
Qed.

Lemma in_step_more (evs more : list Event) (st st' : State) :
  st_loading st' = st_loading st -> st_collection st' = st_collection st ->
  st_pending st' = st_pending st -> st_icons st' = st_icons st ->
  st_fuseRef st' = st_fuseRef st ->
  in_step server evs st -> in_step server (evs ++ more) st'.
Proof.
  intros El Ec Ep Ei Ef. unfold in_step. rewrite El, Ec, Ep, Ei, Ef.
  intros [[Hp [H0 | [H0 | [Hl H0]]]] | H0]; auto.
  left. split; [exact Hp |]. right. right. split; [exact Hl |].
  apply elem_of_app. left. exact H0.
Qed.

Lemma in_step_change_collection (evs more : list Event) (c : jsstring)
    (st : State) :
  invariant server st -> st_pending st = [] -> in_step server evs st ->
  in_step server (evs ++ more) (change_collection c st).
Proof.
  intros [Hcache _ _] Hp Hst. unfold change_collection.
  case_bool_decide as Hc;
    [apply (in_step_more evs more st); [reflexivity .. | exact Hst] |].
  unfold load_collection. cbn [st_collection setCollection st_cache].
  destruct (truthy c) eqn:Ht.
  - destruct (st_cache st !! c) as [e |] eqn:Ec.
    + destruct (Hcache c e Ec) as [-> _]. left. simpl.
      split; [exact Hp |]. right. left. auto.
    + right. simpl. rewrite Hp. split; [reflexivity |].
      split; [reflexivity | apply truthy_true, Ht].
  - apply truthy_false in Ht as ->. left. simpl. auto.
Qed.

Lemma in_step_step (evs : list Event) (st : State) (ev : Event) :
  calm st ev = true -> invariant server st -> in_step server evs st ->
  in_step server (evs ++ [ev]) (step server st ev).
Proof.
  intros Hev Hinv Hst. destruct ev as [cs | c | c | c | s | text |];
    simpl in Hev |- *; try discriminate;
    try (apply (in_step_more evs _ st); [reflexivity .. | exact Hst]).
  - apply bool_decide_eq_true in Hev.
    apply in_step_change_collection; assumption.
  - case_bool_decide as Hc;
      [| apply (in_step_more evs _ st); [reflexivity .. | exact Hst]].
    destruct Hst as [[Hp _] | (Hp & _ & Hne)];
      [rewrite Hp in Hc; inversion Hc |].
    rewrite Hp in Hc. apply list_elem_of_singleton in Hc as ->.
    left. simpl. rewrite Hp. simpl.
    rewrite bool_decide_eq_true_2 by reflexivity.
    split; [reflexivity |]. right. left. auto.
  - case_bool_decide as Hc;
      [| apply (in_step_more evs _ st); [reflexivity .. | exact Hst]].
    destruct Hst as [[Hp _] | (Hp & Hl & Hne)];
      [rewrite Hp in Hc; inversion Hc |].
    rewrite Hp in Hc. apply list_elem_of_singleton in Hc as ->.
    left. simpl. rewrite Hp. simpl.
    rewrite bool_decide_eq_true_2 by reflexivity.
    split; [reflexivity |]. right. right. split; [exact Hl |].
    apply elem_of_app. right. left.
Qed.

Lemma in_step_started (cs : list jsstring) :
  in_step server [] (started server cs).
Proof.
  unfold started. simpl. destruct cs as [| c cs]; [left; simpl; auto |].
  apply (in_step_change_collection [] [] c (setCollections (c :: cs) initial));
    [| reflexivity | left; simpl; auto].
  pose proof invariant_initial as [Hc Hs Hp]. split; assumption.
Qed.

Lemma in_step_run (more evs : list Event) (st : State) :
  calm_trace server st more = true -> invariant server st ->
  in_step server evs st -> in_step server (evs ++ more) (run server st more).
Proof.
  revert evs st. induction more as [| ev more IH]; intros evs st Hevs Hinv Hst.
  - rewrite app_nil_r. exact Hst.
  - cbn [calm_trace] in Hevs. apply andb_true_iff in Hevs as [Hev Hevs].
    simpl. rewrite (cons_middle ev evs more), app_assoc.
    apply IH; [exact Hevs | apply invariant_step, Hinv |].
    apply in_step_step; assumption.
Qed.

(** X15. When the user selects a collection only while no fetch is
    pending, the page is never out of step: once loading has ended the
    icons and the index are those of the selected collection, and
    while it is loading either the one pending fetch is that of the
    selected collection, or nothing is pending and the fetch of the
    selected collection has failed. *)
Theorem calm_user_sees_selection (cs : list jsstring) (evs : list Event) :
  calm_trace server (started server cs) evs = true ->
  let st := run server (started server cs) evs in
  st_collection st <> [] ->
  (st_loading st = false ->
     st_icons st = server (st_collection st)
     /\ st_fuseRef st
        = Some (new_Fuse (server (st_collection st)) FUSE_OPTIONS))
  /\ (st_loading st = true ->
      st_pending st = [st_collection st]
      \/ (st_pending st = [] /\ FetchFailed (st_collection st) ∈ evs)).
Proof.
  intros Hevs st Hne.
  assert (Hinv : invariant server (started server cs))
    by (apply invariant_step, invariant_initial).
  pose proof (in_step_run evs [] _ Hevs Hinv (in_step_started cs)) as Hst.
  fold st in Hst. simpl in Hst.
  destruct Hst as [[Hp [Hc | [(Hl & Hi & Hf) | (Hl & Hfail)]]] | (Hp & Hl & _)];
    [congruence | | |].
  - split; [auto |]. congruence.
  - split; [congruence |]. auto.
  - split; [congruence | auto].
Qed.

End Cache.

End CacheSpec.

(* ================================================================== *)
(** ** The transform applied again with another colour and size *)
(* ================================================================== *)

Module TransformLaws.
Import JS IconModal Patterns JSFacts RegexFacts Markup MarkupFacts Settled.

(** *** Replacements of values, one after the other *)

Lemma set_all_set_all (a w w' : jsstring)
    (segs : list (jsstring * jsstring)) :
  set_all a w' (set_all a w segs) = set_all a w' segs.
Proof.
  unfold set_all. induction segs as [| [u v] segs IH]; [reflexivity |].
  cbn [fmap list_fmap fst]. rewrite IH.
  destruct (is_kind a u) eqn:E; cbn [fst]; rewrite E; reflexivity.
Qed.

Lemma set_first_set_first (a w w' : jsstring)
    (segs : list (jsstring * jsstring)) :
  set_first a w' (set_first a w segs) = set_first a w' segs.
Proof.
  induction segs as [| [u v] segs IH]; [reflexivity |].
  cbn [set_first fst]. destruct (is_kind a u) eqn:E;
    cbn [set_first fst]; rewrite E; [reflexivity |].
  rewrite IH. reflexivity.
Qed.

Lemma set_all_set_first (a b w w' : jsstring)
    (segs : list (jsstring * jsstring)) :
  (forall u, is_kind b u = true -> is_kind a u = false) ->
  set_all a w (set_first b w' segs) = set_first b w' (set_all a w segs).
Proof.
  intros Hex. unfold set_all.
  induction segs as [| [u v] segs IH]; [reflexivity |].
  cbn [set_first fmap list_fmap fst].
  destruct (is_kind b u) eqn:Eb.
  - rewrite (Hex u Eb). cbn [fmap list_fmap fst set_first].
    rewrite (Hex u Eb), Eb. reflexivity.
  - cbn [fmap list_fmap fst]. rewrite IH.
    destruct (is_kind a u); cbn [set_first fst]; rewrite Eb; reflexivity.
Qed.

Lemma set_first_comm (a b w w' : jsstring)
    (segs : list (jsstring * jsstring)) :
  (forall u, is_kind a u = true -> is_kind b u = false) ->
  set_first a w (set_first b w' segs) = set_first b w' (set_first a w segs).
Proof.
  intros Hex. induction segs as [| [u v] segs IH]; [reflexivity |].
  cbn [set_first fst]. destruct (is_kind a u) eqn:Ea.
  - rewrite (Hex u Ea). cbn [set_first fst]. rewrite Ea, (Hex u Ea).
    reflexivity.
  - destruct (is_kind b u) eqn:Eb; cbn [set_first fst]; rewrite Ea, Eb;
      [reflexivity |].
    rewrite IH. reflexivity.
Qed.

Lemma width_not_fill_kind (u : jsstring) :
  is_kind (lit "width") u = true -> is_kind (lit "fill") u = false.
Proof. apply kinds_exclusive; compute_done. Qed.

Lemma height_not_fill_kind (u : jsstring) :
  is_kind (lit "height") u = true -> is_kind (lit "fill") u = false.
Proof. apply kinds_exclusive; compute_done. Qed.

(** *** Replacements of values and the insertion after <svg *)

Lemma inject_snd (u1 v1 u2 v2 : jsstring)
    (more more' segs : list (jsstring * jsstring)) (t : jsstring) :
  (inject u1 v1 more segs t).2 = (inject u2 v2 more' segs t).2.
Proof.
  induction segs as [| [u v] segs IH]; cbn [inject].
  - destruct (indexOf (lit "<svg") t); reflexivity.
  - destruct (indexOf (lit "<svg") u); [reflexivity |]. exact IH.
Qed.

Lemma fill_after_svg (u : jsstring) (i : nat) :
  indexOf (lit "<svg") u = Some i ->
  is_kind (lit "fill") (drop (i + 4) u) = is_kind (lit "fill") u.
Proof.
  intros Hi. destruct (svg_split u i Hi) as (pre & post & E & _ & _ & ->).
  rewrite E. symmetry. apply is_kind_after_svg; [compute_done |].
  intros a [= <-]. compute_done.
Qed.

Lemma set_all_inject_fill (c c' : jsstring)
    (segs : list (jsstring * jsstring)) (t : jsstring) :
  has (lit "fill") segs = false ->
  set_all (lit "fill") c' (inject (lit " fill=") c [] segs t).1
  = (inject (lit " fill=") c' [] segs t).1.
Proof.
  unfold has, set_all.
  induction segs as [| [u v] segs IH]; cbn [inject existsb fst].
  - intros _. destruct (indexOf (lit "<svg") t) as [i |]; [| reflexivity].
    cbn [fst fmap list_fmap].
    rewrite is_kind_literal by (simpl; lia). reflexivity.
  - rewrite orb_false_iff. intros [Hu Hs].
    destruct (indexOf (lit "<svg") u) as [i |] eqn:Hi.
    + cbn [fst app fmap list_fmap].
      rewrite is_kind_literal by (simpl; lia).
      rewrite (fill_after_svg u i Hi), Hu.
      change (is_kind (lit "fill") (lit " fill=")) with true. cbn iota.
      do 2 f_equal.
      apply (set_all_absent (lit "fill") c' segs). exact Hs.
    + cbn [fst fmap list_fmap]. rewrite Hu. f_equal. apply IH, Hs.
Qed.

Section Dimensions.
Variables n n' : jsstring.

Lemma set_all_inject_dims (c : jsstring)
    (segs : list (jsstring * jsstring)) (t : jsstring) :
  set_all (lit "fill") c
    (inject (lit " width=") n [(lit " height=", n)] segs t).1
  = (inject (lit " width=") n [(lit " height=", n)]
       (set_all (lit "fill") c segs) t).1.
Proof.
  unfold set_all. induction segs as [| [u v] segs IH]; cbn [inject fst].
  - cbn [fmap list_fmap inject].
    destruct (indexOf (lit "<svg") t) as [i |]; [| reflexivity].
    cbn [fst fmap list_fmap].
    rewrite is_kind_literal by (simpl; lia). reflexivity.
  - cbn [fmap list_fmap fst].
    destruct (indexOf (lit "<svg") u) as [i |] eqn:Hi.
    + destruct (is_kind (lit "fill") u) eqn:Eu; cbn [fst snd inject];
        rewrite Hi; cbn [fst app fmap list_fmap];
        rewrite is_kind_literal by (simpl; lia);
        rewrite (fill_after_svg u i Hi), Eu; reflexivity.
    + destruct (is_kind (lit "fill") u) eqn:Eu; cbn [fst snd inject];
        rewrite Hi; cbn [fst fmap list_fmap]; rewrite IH, Eu; reflexivity.
Qed.

Lemma inject_dims_has_height (segs : list (jsstring * jsstring))
    (t : jsstring) :
  incl (lit "<svg") segs t = true ->
  has (lit "height")
    (inject (lit " width=") n [(lit " height=", n)] segs t).1 = true.
Proof.
  unfold incl, has.
  induction segs as [| [u v] segs IH]; cbn [inject existsb fst].
  - cbn [orb]. rewrite includes_indexOf.
    destruct (indexOf (lit "<svg") t) as [i |]; [intros _ | discriminate].
    cbn [fst existsb]. apply orb_true_iff. right. reflexivity.
  - rewrite (includes_indexOf u).
    destruct (indexOf (lit "<svg") u) as [i |].
    + intros _. cbn [fst existsb app]. apply orb_true_iff. right. reflexivity.
    + cbn [orb fst existsb]. intros Hs. rewrite IH by exact Hs.
      apply orb_true_r.
Qed.

Lemma set_first_inject_dims (segs : list (jsstring * jsstring))
    (t : jsstring) :
  has (lit "width") segs = false -> has (lit "height") segs = false ->
  set_first (lit "height") n'
    (set_first (lit "width") n'
       (inject (lit " width=") n [(lit " height=", n)] segs t).1)
  = (inject (lit " width=") n' [(lit " height=", n')] segs t).1.
Proof.
  unfold has. induction segs as [| [u v] segs IH]; cbn [inject existsb fst].
  - intros _ _. destruct (indexOf (lit "<svg") t) as [i |]; [| reflexivity].
    cbn [fst set_first]. rewrite is_kind_literal by (simpl; lia).
    change (is_kind (lit "width") (lit " width=")) with true. cbn iota.
    cbn [set_first fst].
    rewrite (width_not_height (take (i + 4) t ++ lit " width="))
      by (rewrite is_kind_literal by (simpl; lia); reflexivity).
    reflexivity.
  - rewrite !orb_false_iff. intros [Hw Hws] [Hh Hhs].
    destruct (indexOf (lit "<svg") u) as [i |].
    + cbn [fst set_first app]. rewrite is_kind_literal by (simpl; lia).
      change (is_kind (lit "width") (lit " width=")) with true. cbn iota.
      cbn [set_first fst].
      rewrite (width_not_height (take (i + 4) u ++ lit " width="))
        by (rewrite is_kind_literal by (simpl; lia); reflexivity).
      reflexivity.
    + cbn [fst set_first]. rewrite Hw. cbn [set_first fst]. rewrite Hh.
      rewrite IH by assumption. reflexivity.
Qed.

End Dimensions.

Lemma inject_set_all_snd (a w u1 v1 : jsstring)
    (more segs : list (jsstring * jsstring)) (t : jsstring) :
  (inject u1 v1 more (set_all a w segs) t).2 = (inject u1 v1 more segs t).2.
Proof.
  unfold set_all. induction segs as [| [u v] segs IH]; [reflexivity |].
  cbn [fmap list_fmap fst].
  destruct (is_kind a u); cbn [inject];
    destruct (indexOf (lit "<svg") u); try reflexivity; exact IH.
Qed.

(** *** The two steps, one after the other *)

Lemma dimension_step_twice (n n' : jsstring)
    (st : list (jsstring * jsstring) * jsstring) :
  dimension_step n' (dimension_step n st) = dimension_step n' st.
Proof.
  destruct st as [segs t]. unfold dimension_step. cbn [fst snd].
  destruct (has (lit "width") segs) eqn:Ew,
           (has (lit "height") segs) eqn:Eh; cbn [negb andb fst snd].
  - rewrite !has_set_first, Ew, Eh. cbn [negb andb]. f_equal.
    rewrite (set_first_comm (lit "width") (lit "height"))
      by exact width_not_height.
    rewrite !set_first_set_first. reflexivity.
  - rewrite !has_set_first, Ew, Eh. cbn [negb andb]. f_equal.
    apply set_first_set_first.
  - rewrite !has_set_first, Ew, Eh. cbn [negb andb]. f_equal.
    apply set_first_set_first.
  - destruct (incl (lit "<svg") segs t) eqn:Es.
    + rewrite (inject_dims_has n segs t Es).
      rewrite (inject_dims_has_height n segs t Es). cbn [negb andb].
      rewrite (set_first_inject_dims n n' segs t Ew Eh).
      rewrite (inject_snd (lit " width=") n (lit " width=") n'
                 [(lit " height=", n)] [(lit " height=", n')] segs t).
      destruct (inject _ n' _ segs t). reflexivity.
    + rewrite !(inject_absent _ _ _ segs t Es). cbn [fst snd].
      rewrite Ew, Eh. cbn [negb andb]. apply inject_absent, Es.
Qed.

Lemma fill_step_twice (c c' : jsstring)
    (st : list (jsstring * jsstring) * jsstring) :
  fill_step c' (fill_step c st) = fill_step c' st.
Proof.
  destruct st as [segs t]. unfold fill_step at 2 3. cbn [fst snd].
  destruct (incl (lit "fill=") segs t) eqn:Ef.
  - unfold fill_step. cbn [fst snd]. rewrite incl_set_all, Ef.
    rewrite set_all_set_all. reflexivity.
  - destruct (incl (lit "<svg") segs t) eqn:Es.
    + unfold fill_step. rewrite (inject_fill_incl c segs t Es).
      rewrite set_all_inject_fill
        by (apply (has_incl (lit "fill") segs t); exact Ef).
      rewrite (inject_snd (lit " fill=") c (lit " fill=") c' [] [] segs t).
      destruct (inject _ c' _ segs t). reflexivity.
    + rewrite !(inject_absent _ _ _ segs t Es).
      unfold fill_step. cbn [fst snd]. rewrite Ef.
      apply inject_absent, Es.
Qed.

(** After a fill step the markup holds fill= or has no <svg; the fill
    step and the dimension step can then be exchanged. *)
Lemma fill_step_dimension_step (c n : jsstring)
    (st : list (jsstring * jsstring) * jsstring) :
  incl (lit "fill=") st.1 st.2 = true \/ incl (lit "<svg") st.1 st.2 = false ->
  fill_step c (dimension_step n st) = dimension_step n (fill_step c st).
Proof.
  destruct st as [segs t]. cbn [fst snd]. intros Hst.
  destruct (incl (lit "fill=") segs t) eqn:Ef.
  - unfold fill_step at 2. cbn [fst snd]. rewrite Ef.
    unfold dimension_step. cbn [fst snd]. rewrite !has_set_all.
    destruct (has (lit "width") segs) eqn:Ew,
             (has (lit "height") segs) eqn:Eh; cbn [negb andb].
    + unfold fill_step. cbn [fst snd]. rewrite !incl_set_first, Ef.
      f_equal. rewrite !set_all_set_first;
        auto using height_not_fill_kind, width_not_fill_kind.
    + unfold fill_step. cbn [fst snd]. rewrite !incl_set_first, Ef.
      f_equal. rewrite !set_all_set_first;
        auto using height_not_fill_kind, width_not_fill_kind.
    + unfold fill_step. cbn [fst snd]. rewrite !incl_set_first, Ef.
      f_equal. rewrite !set_all_set_first;
        auto using height_not_fill_kind, width_not_fill_kind.
    + unfold fill_step. rewrite (inject_dims_incl_fill n segs t Ef).
      rewrite set_all_inject_dims.
      rewrite <- (inject_set_all_snd (lit "fill") c (lit " width=") n
                    [(lit " height=", n)] segs t).
      destruct (inject _ n _ (set_all (lit "fill") c segs) t). reflexivity.
  - destruct Hst as [Hst | Es]; [discriminate |].
    assert (Efill : fill_step c (segs, t) = (segs, t)).
    { unfold fill_step. cbn [fst snd]. rewrite Ef. apply inject_absent, Es. }
    rewrite Efill. unfold dimension_step. cbn [fst snd].
    destruct (has (lit "width") segs) eqn:Ew,
             (has (lit "height") segs) eqn:Eh; cbn [negb andb];
      try (unfold fill_step; cbn [fst snd]; rewrite !incl_set_first, Ef;
           apply inject_absent; rewrite !incl_set_first; exact Es).
    rewrite (inject_absent _ _ _ segs t Es). exact Efill.
Qed.

(** The transform on segments, with one colour and size after another,
    is the transform with the last colour and size. *)
Lemma steps_last_win (c c' n n' : jsstring)
    (st : list (jsstring * jsstring) * jsstring) :
  dimension_step n' (fill_step c' (dimension_step n (fill_step c st)))
  = dimension_step n' (fill_step c' st).
Proof.
  rewrite fill_step_dimension_step
    by (destruct (fill_step_settles c st) as [_ Hs]; exact Hs).
  rewrite fill_step_twice. apply dimension_step_twice.
Qed.

(** *** The transform on strings *)

Lemma svg_render (c : jsstring) (n : N)
    (st : list (jsstring * jsstring) * jsstring) :
  plain_color c = true -> wf st ->
  let st' := dimension_step (Number_toString n) (fill_step c st) in
  svg (render st.1 st.2) c n = render st'.1 st'.2 /\ wf st'.
Proof.
  intros Hc Hwf st'. pose proof (fill_step_wf c st Hc Hwf) as Hwf1. split.
  - unfold svg. rewrite handle_fill_render by assumption.
    apply handle_dimensions_render, Hwf1.
  - apply dimension_step_wf, Hwf1.
Qed.

(** X16. On well-quoted markup and with plain colours, the transform
    applied to its own result with another colour and size gives what
    it gives on the original markup with that colour and size: the
    last colour and size win, and nothing of the first is left. *)
Theorem svg_last_wins (m c c' : jsstring) (n n' : N) :
  well_quoted m = true -> plain_color c = true -> plain_color c' = true ->
  svg (svg m c n) c' n' = svg m c' n'.
Proof.
  intros Hm Hc Hc'. destruct (well_quoted_render m Hm) as (st & -> & Hwf).
  destruct (svg_render c n st Hc Hwf) as [E1 Hwf1].
  destruct (svg_render c' n' st Hc' Hwf) as [E2 _].
  destruct (svg_render c' n' _ Hc' Hwf1) as [E3 _].
  rewrite E1, E3, E2, steps_last_win. reflexivity.
Qed.

Lemma pieces_text (u rest : jsstring) :
  dq ∉ u -> pieces (u ++ dq :: rest) = u :: pieces rest.
Proof.
  induction u as [| a u IH]; intros Hu.
  - cbn [app pieces]. rewrite Ascii.eqb_refl. reflexivity.
  - apply not_elem_of_cons in Hu as [Ha Hu]. cbn [app pieces].
    destruct (Ascii.eqb_spec a dq); [congruence |].
    rewrite IH by exact Hu. reflexivity.
Qed.

Lemma pieces_plain (t : jsstring) : dq ∉ t -> pieces t = [t].
Proof.
  induction t as [| a t IH]; intros Ht; [reflexivity |].
  apply not_elem_of_cons in Ht as [Ha Ht]. cbn [pieces].
  destruct (Ascii.eqb_spec a dq); [congruence |].
  rewrite IH by exact Ht. reflexivity.
Qed.

(** Reading the rendering of well-formed segments gives them back. *)
Lemma parse_render (st : list (jsstring * jsstring) * jsstring) :
  wf st -> parse (render st.1 st.2) = Some st.
Proof.
  destruct st as [segs t]. intros [Hsegs Ht]. cbn [fst snd] in *.
  unfold parse. induction Hsegs as [| [u v] segs (Hu & Hv & _) _ IH].
  - cbn [render]. rewrite pieces_plain by exact Ht. reflexivity.
  - cbn [render fst snd] in *.
    rewrite pieces_text by exact Hu. rewrite pieces_text by exact Hv.
    cbn [pair_up]. rewrite IH. reflexivity.
Qed.

Lemma render_well_quoted (st : list (jsstring * jsstring) * jsstring) :
  wf st -> well_quoted (render st.1 st.2) = true.
Proof.
  intros Hwf. unfold well_quoted. rewrite (parse_render st Hwf).
  destruct st as [segs t]. destruct Hwf as [Hsegs _]. cbn [fst] in Hsegs.
  apply forallb_forall. intros uv Hin.
  rewrite Forall_forall in Hsegs. apply list_elem_of_In in Hin.
  destruct (Hsegs uv Hin) as (_ & _ & Hclean). exact Hclean.
Qed.

(** X17. The transform of a well-quoted markup with a plain colour is
    well quoted again: its double quotes come in pairs and no quoted
    value holds fill=, width=, height= or <svg. *)
Theorem svg_well_quoted (m c : jsstring) (n : N) :
  well_quoted m = true -> plain_color c = true ->
  well_quoted (svg m c n) = true.
Proof.
  intros Hm Hc. destruct (well_quoted_render m Hm) as (st & -> & Hwf).
  destruct (svg_render c n st Hc Hwf) as [-> Hwf1].
  apply render_well_quoted, Hwf1.
Qed.


End TransformLaws.

(* ================================================================== *)
(** ** An attribute of the root tag that is there, and one that is not *)
(* ================================================================== *)

Module AsymmetricSpec.
Import JS IconModal Patterns JSFacts RegexFacts IconModalSpec Markup.
Import MarkupFacts Settled DimensionsSpec TransformLaws.

(** *** The two steps, the other way round

    When a width or a height is there the dimension step injects
    nothing, and it can be made before the fill step as well as after
    it. *)
Section Kind.
Variable name : jsstring.
Hypothesis fill_excl :
  forall u, is_kind (lit "fill") u = true -> is_kind name u = false.
Hypothesis name_lt : "<"%char ∉ key name.
Hypothesis name_head : forall a, head (key name) = Some a -> a ∉ lit "<svg".


End Kind.






(** *** One attribute of the two *)



Section One.
Variables name other : jsstring.
Variables RE OTHER : RegExp.
Variable T : N -> jsstring.
Hypothesis name_dq : dq ∉ name.
Hypothesis RE_pattern : pattern RE = attr_pattern name.
Hypothesis OTHER_pattern : pattern OTHER = attr_pattern other.
Hypothesis RE_first : global RE = false.
Hypothesis T_attr :
  forall n, T n = key name ++ dq :: Number_toString n ++ [dq].
Hypothesis T_plain : forall n, dollar ∉ T n.
Hypothesis name_space :
  bool_decide (Forall (λ a, a ∉ key name)
                 [" "%char; "009"%char; "010"%char; "013"%char]) = true.
Hypothesis other_key :
  key other <> [] /\ (dq ∉ key other) /\ (" "%char ∉ key other)
  /\ includes (lit "fill=") (key other) = false
  /\ (forall n, includes (Number_toString n) (key other) = false).
Hypothesis other_clean :
  forall v, clean v = true -> includes v (key other) = false.

(** What the dimension step does of the two patterns, [RE] before
    [OTHER] or after it. *)
Hypothesis dimensions_one :
  forall s n,
    test RE s = true -> test OTHER s = false ->
    handle_dimensions s n = replace s RE (T n).
Hypothesis RE_dimension :
  forall s,
    test RE s = true ->
    test WIDTH_REGEX s = true \/ test HEIGHT_REGEX s = true.
Hypothesis fill_keeps :
  forall m c,
    well_quoted m = true -> plain_color c = true ->
    test RE (handle_fill m c) = test RE m
    /\ test OTHER (handle_fill m c) = test OTHER m.


End One.





End AsymmetricSpec.

(* ================================================================== *)
(** ** The dimension step, on examples *)
(* ================================================================== *)

Module AsymmetricExamples.
Import JS IconModal Patterns Markup Fixture.


End AsymmetricExamples.

(* ================================================================== *)
(** ** Properties of the copy button *)
(* ================================================================== *)

Module ModalSpec.
Import JS IconModal ModalState.

Section Modal.
Variable content : jsstring.

Lemma label_step (st : State) (ev : Event) :
  (copied st = true -> 0 < timers st) ->
  copied (step content st ev) = true -> 0 < timers (step content st ev).
Proof.
  intros Hst. destruct ev; simpl; try exact Hst; [lia |].
  destruct (timers st) eqn:Et; [rewrite Et; exact Hst |].
  simpl. discriminate.
Qed.

Lemma never_copied_step (st : State) (ev : Event) :
  (clipboard st = None -> copied st = false /\ timers st = 0) ->
  clipboard (step content st ev) = None ->
  copied (step content st ev) = false /\ timers (step content st ev) = 0.
Proof.
  intros Hst. destruct ev; simpl; try exact Hst; [discriminate |].
  destruct (timers st) eqn:Et; [rewrite Et; exact Hst |].
  simpl. intros Hc. destruct (Hst Hc) as [_ H0]. discriminate.
Qed.

(** X19. The copy button reads Copied! only after a copy and only while
    a reset of the label is pending, so it never stays that way; a copy
    puts on the clipboard the markup for the colour and the size chosen
    last; and since no timeout is ever cleared, the reset set by an
    earlier click ends the confirmation of a later one. *)
Theorem copied_label_resets (evs : list Event) :
  let st := run content initial evs in
  (copied st = true -> 0 < timers st)
  /\ (clipboard st = None -> label st = lit "Copy SVG" /\ timers st = 0)
  /\ clipboard (step content st ClickCopy)
     = Some (svg content (color st) (size st))
  /\ label (run content st [ClickCopy; ClickCopy; TimeoutFires])
     = lit "Copy SVG"
  /\ timers (run content st [ClickCopy; ClickCopy; TimeoutFires])
     = S (timers st).
Proof.
  intros st.
  assert (Hinv : (copied st = true -> 0 < timers st)
                 /\ (clipboard st = None ->
                     copied st = false /\ timers st = 0)).
  { unfold st, run. clear st.
    assert (H0 : (copied initial = true -> 0 < timers initial)
                 /\ (clipboard initial = None ->
                     copied initial = false /\ timers initial = 0))
      by (split; [discriminate | auto]).
    revert H0. generalize initial. intros st0.
    induction evs as [| ev evs IH] in st0 |- *; intros [H1 H2];
      [split; assumption |].
    simpl. apply IH. split;
      [apply label_step, H1 | apply never_copied_step, H2]. }
  destruct Hinv as [H1 H2]. split; [exact H1 |]. split.
  - intros Hc. destruct (H2 Hc) as [Hcopied Ht]. unfold label.
    rewrite Hcopied. auto.
  - split; [reflexivity |]. split; reflexivity.
Qed.

End Modal.

End ModalSpec.

(* ================================================================== *)
(** ** The names, the grid, the cache and the transform on concrete data *)
(* ================================================================== *)

Module ViewExamples.
Import JS IconModal App AppView AppControls Markup Fixture Samples.

Lemma below_128_font_awesome : below_128 font_awesome.
Proof. unfold below_128. repeat constructor. Qed.

Lemma formatName_chars_witness :
  below_128 font_awesome
  /\ formatName font_awesome = lit "Font Awesome"
  /\ length (formatName font_awesome) = length font_awesome.
Proof.
  split; [exact below_128_font_awesome |]. split; [reflexivity |].
  exact (proj1 (FormatNameSpec.formatName_chars font_awesome
                  below_128_font_awesome)).
Defined.

Lemma formatName_idempotent_witness :
  below_128 font_awesome
  /\ formatName (formatName font_awesome) = formatName font_awesome.
Proof.
  split; [exact below_128_font_awesome |].
  exact (proj2 (FormatNameSpec.formatName_idempotent font_awesome
                  below_128_font_awesome)).
Defined.

Lemma search_rows_bounded_witness :
  lit "home" <> []
  /\ length (rows (filtered hame_home (Some (new_Fuse hame_home FUSE_OPTIONS))
                     (lit "home") (lit "all") (styleIndex hame_home))) <= 56.
Proof.
  assert (Hq : lit "home" <> []) by discriminate.
  split; [exact Hq |].
  exact (proj2 (GridSpec.search_rows_bounded hame_home
                  (new_Fuse hame_home FUSE_OPTIONS)
                  (lit "home") (lit "all") (styleIndex hame_home) Hq)).
Defined.

Lemma style_button_view_witness :
  lit "solid" ∈ styles with_all /\ lit "solid" <> lit "all"
  /\ filtered with_all None [] (lit "solid") (styleIndex with_all)
     = [mk_icon (lit "c") (lit "a") (lit "solid")]
  /\ filtered with_all None [] (lit "solid") (styleIndex with_all) <> [].
Proof.
  assert (Hs : lit "solid" ∈ styles with_all)
    by (vm_compute; right; right; left).
  assert (Hne : lit "solid" <> lit "all") by discriminate.
  split; [exact Hs |]. split; [exact Hne |].
  split; [vm_compute; reflexivity |].
  exact (proj2 (StyleBarSpec.style_button_view with_all None (lit "solid")
                  Hs Hne)).
Defined.

Lemma filtered_has_style_witness :
  lit "solid" <> lit "all"
  /\ mk_icon (lit "c") (lit "a") (lit "solid")
     ∈ filtered with_all None [] (lit "solid") (styleIndex with_all)
  /\ style (mk_icon (lit "c") (lit "a") (lit "solid")) = lit "solid".
Proof.
  assert (Hne : lit "solid" <> lit "all") by discriminate.
  assert (Hin : mk_icon (lit "c") (lit "a") (lit "solid")
                ∈ filtered with_all None [] (lit "solid") (styleIndex with_all))
    by (vm_compute; left).
  split; [exact Hne |]. split; [exact Hin |].
  exact (StyleBarSpec.filtered_has_style with_all None [] (lit "solid") _
           Hne Hin).
Defined.

Lemma cached_collection_shown_at_once_witness :
  is_Some (st_cache (run two_collections initial both_loaded) !! col_a)
  /\ col_a <> st_collection (run two_collections initial both_loaded)
  /\ st_icons (step two_collections
                 (run two_collections initial both_loaded)
                 (SelectCollection col_a))
     = two_collections col_a
  /\ st_pending (step two_collections
                   (run two_collections initial both_loaded)
                   (SelectCollection col_a))
     = [].
Proof.
  assert (Hc : is_Some (st_cache (run two_collections initial both_loaded)
                          !! col_a)) by (vm_compute; eauto).
  assert (Hne : col_a <> st_collection (run two_collections initial both_loaded))
    by (vm_compute; discriminate).
  split; [exact Hc |]. split; [exact Hne |].
  destruct (CacheSpec.cached_collection_shown_at_once two_collections
              both_loaded col_a Hc Hne) as (Hi & _ & _ & Hp & _).
  split; [exact Hi |]. rewrite Hp. vm_compute. reflexivity.
Defined.

Lemma loading_means_fetching_witness :
  st_loading (run two_collections initial failed_a) = true
  /\ st_pending (run two_collections initial failed_a) = []
  /\ (st_collection (run two_collections initial failed_a) = []
      \/ st_collection (run two_collections initial failed_a)
         ∈ st_pending (run two_collections initial failed_a)
      \/ FetchFailed (st_collection (run two_collections initial failed_a))
         ∈ failed_a).
Proof.
  assert (Hl : st_loading (run two_collections initial failed_a) = true)
    by reflexivity.
  split; [exact Hl |]. split; [vm_compute; reflexivity |].
  exact (CacheSpec.loading_means_fetching two_collections failed_a Hl).
Defined.

Lemma empty_manifest_stays_loading_witness :
  user_trace two_collections (started two_collections [])
    [DebounceElapsed; DebounceElapsed] = true
  /\ run two_collections (started two_collections [])
       [DebounceElapsed; DebounceElapsed] = initial.
Proof.
  assert (Hu : user_trace two_collections (started two_collections [])
                 [DebounceElapsed; DebounceElapsed] = true) by reflexivity.
  split; [exact Hu |].
  exact (proj1 (CacheSpec.empty_manifest_stays_loading two_collections
                  [DebounceElapsed; DebounceElapsed] Hu)).
Defined.

Lemma fetches_from_manifest_witness :
  user_trace two_collections (started two_collections manifest_ab) load_both
    = true
  /\ st_collections (run two_collections (started two_collections manifest_ab)
                       load_both)
     = manifest_ab.
Proof.
  assert (Hu : user_trace two_collections (started two_collections manifest_ab)
                 load_both = true) by (vm_compute; reflexivity).
  split; [exact Hu |].
  exact (proj1 (CacheSpec.fetches_from_manifest two_collections manifest_ab
                  load_both Hu)).
Defined.

Lemma calm_user_sees_selection_witness :
  calm_trace two_collections (started two_collections manifest_ab) load_both
    = true
  /\ st_collection (run two_collections (started two_collections manifest_ab)
                      load_both) = col_b
  /\ st_loading (run two_collections (started two_collections manifest_ab)
                   load_both) = false
  /\ st_icons (run two_collections (started two_collections manifest_ab)
                 load_both)
     = two_collections col_b.
Proof.
  assert (Hu : calm_trace two_collections
                 (started two_collections manifest_ab) load_both = true)
    by (vm_compute; reflexivity).
  assert (Hc : st_collection (run two_collections
                 (started two_collections manifest_ab) load_both) = col_b)
    by (vm_compute; reflexivity).
  assert (Hl : st_loading (run two_collections
                 (started two_collections manifest_ab) load_both) = false)
    by (vm_compute; reflexivity).
  assert (Hne : st_collection (run two_collections
                  (started two_collections manifest_ab) load_both) <> [])
    by (rewrite Hc; discriminate).
  split; [exact Hu |]. split; [exact Hc |]. split; [exact Hl |].
  destruct (proj1 (CacheSpec.calm_user_sees_selection two_collections
                     manifest_ab load_both Hu Hne) Hl) as [Hi _].
  rewrite Hi, Hc. reflexivity.
Defined.

Lemma svg_last_wins_witness :
  well_quoted icon_markup = true /\ plain_color red = true
  /\ plain_color black = true
  /\ svg (svg icon_markup red 32) black 64 = svg icon_markup black 64.
Proof.
  assert (Hm : well_quoted icon_markup = true) by (vm_compute; reflexivity).
  assert (Hr : plain_color red = true) by (vm_compute; reflexivity).
  assert (Hb : plain_color black = true) by (vm_compute; reflexivity).
  split; [exact Hm |]. split; [exact Hr |]. split; [exact Hb |].
  exact (TransformLaws.svg_last_wins icon_markup red black 32 64 Hm Hr Hb).
Defined.

Lemma svg_well_quoted_witness :
  well_quoted icon_markup = true /\ plain_color red = true
  /\ well_quoted (svg icon_markup red 32) = true.
Proof.
  assert (Hm : well_quoted icon_markup = true) by (vm_compute; reflexivity).
  assert (Hr : plain_color red = true) by (vm_compute; reflexivity).
  split; [exact Hm |]. split; [exact Hr |].
  exact (TransformLaws.svg_well_quoted icon_markup red 32 Hm Hr).
Defined.


End ViewExamples.
